(** * neo-devpack-ts: the integer codec, conditional lowering, expression
      chains, manifest entries and the pass pipeline

    A shallow embedding of the parts of the TypeScript compiler that the
    specification talks about, followed by their properties.

    - [Codec]: [toBuffer], [toBigInt], [allBitsSet], [bigIntToByteArray]
      and [byteArrayToBigInt] of [utils.ts], the latter over a store of
      byte buffers because it copies and reverses a buffer in place; the
      tables of [bigIntToByteArray.spec.ts];
    - [CodecSpec]: the codec in the words of the specification, and the
      two's-complement reading of byte strings;
    - [Expr]: [makeConditionalExpression], [reduceExpressionChain],
      [makeExpressionChain] and [parseExpression] of
      [passes/expressionProcessor.ts];
    - [Compiler]: [compile], [toMethodDef], [toDebugInfoMethod] and the
      three passes of [compiler.ts];
    - [CodecFacts], [ExprFacts], [CompilerFacts]: the theorems.

    Bytes are integers in [0, 256) held in [list Z]; JavaScript strings are
    [string]; thrown exceptions are the [Throw] case of [result]. *)

From Stdlib Require Import ZArith QArith Lia Ascii String List.
From stdpp Require Import base tactics option list gmap strings.

Local Open Scope Z_scope.

(** ** Values shared by the modules *)

(** What the compiler reads of a [tsm.Node] when it reports it. *)
Record Node : Type := mkNode {
  getPos : Z;
  getEnd : Z;
  getSourceFile : string;
  print : string
}.

(** A [tsm.Symbol]: an object of the front end, compared by identity and
    carrying a name. *)
Record Symbol : Type := mkSymbol {
  symbolId : positive;
  getName : string
}.

(** ** Results of calls that may throw *)

Inductive exn : Type :=
| SyntaxError (message : string)     (* thrown by BigInt() *)
| Error (message : string)           (* new Error(message) *)
| CompileError (message : string) (node : Node)
| InvalidReference.    (* a reference to no buffer of the store; cannot
                          be built in JavaScript *)

Inductive result (A : Type) : Type :=
| Ok (a : A)
| Throw (e : exn).
Arguments Ok {A} a.
Arguments Throw {A} e.

Definition result_bind {A B} (r : result A) (k : A -> result B) : result B :=
  match r with
  | Ok a => k a
  | Throw e => Throw e
  end.

Definition is_ok {A} (r : result A) : bool :=
  match r with Ok _ => true | Throw _ => false end.

#[global] Instance result_mbind : MBind result :=
  fun A B k r => result_bind r k.
#[global] Instance result_mret : MRet result := fun A a => Ok a.

#[global] Instance Node_eq_dec : EqDecision Node.
Proof. solve_decision. Defined.

#[global] Instance Symbol_eq_dec : EqDecision Symbol.
Proof. solve_decision. Defined.

#[global] Instance exn_eq_dec : EqDecision exn.
Proof. solve_decision. Defined.

#[global] Instance result_eq_dec `{EqDecision A} : EqDecision (result A).
Proof. solve_decision. Defined.

Module Codec.

(** ** Hexadecimal text *)

(** The digit characters produced by [BigInt.prototype.toString(16)] and
    [Buffer.prototype.toString('hex')]: lower case. *)
Definition hexDigit (d : Z) : ascii :=
  match d with
  | 0 => "0" | 1 => "1" | 2 => "2" | 3 => "3"
  | 4 => "4" | 5 => "5" | 6 => "6" | 7 => "7"
  | 8 => "8" | 9 => "9" | 10 => "a" | 11 => "b"
  | 12 => "c" | 13 => "d" | 14 => "e" | _ => "f"
  end%char.

(** The value of a hexadecimal character, either case; [None] for any
    other character. *)
Definition hexValue (c : ascii) : option Z :=
  let n := Z.of_N (N_of_ascii c) in
  if (48 <=? n) && (n <=? 57) then Some (n - 48)
  else if (97 <=? n) && (n <=? 102) then Some (n - 87)
  else if (65 <=? n) && (n <=? 70) then Some (n - 55)
  else None.

(** The digits of a non-negative integer in a radix, most significant
    first, without leading zeros ([0] gives the single digit 0). The
    recursion runs on a bound [fuel] on the number of digits. *)
Fixpoint radixDigits (radix : Z) (fuel : nat) (v : Z) : list Z :=
  match fuel with
  | O => []
  | S fuel' =>
      if v <? radix then [v]
      else radixDigits radix fuel' (v / radix) ++ [v mod radix]
  end.

(** A bound on the number of digits of [v]: its number of bits. *)
Definition digitBound (v : Z) : nat := S (Z.to_nat (Z.log2 v)).

Definition hexDigits (v : Z) : list Z := radixDigits 16 (digitBound v) v.

(** [value.toString(16)] for a bigint: a minus sign before the digits of
    the absolute value when [value] is negative. *)
Definition toString16 (value : Z) : string :=
  if value <? 0
  then String "-"%char
         (string_of_list_ascii (map hexDigit (hexDigits (- value))))
  else string_of_list_ascii (map hexDigit (hexDigits value)).

(** [Buffer.from(str, 'hex')]: decodes two characters per byte and stops
    at the first pair that is not two hexadecimal characters (or at a
    single trailing character). *)
Fixpoint hexPairs (cs : list ascii) : list Z :=
  match cs with
  | hi :: lo :: rest =>
      match hexValue hi, hexValue lo with
      | Some h, Some l => (16 * h + l) :: hexPairs rest
      | _, _ => []
      end
  | _ => []
  end.

Definition Buffer_from_hex (str : string) : list Z :=
  hexPairs (list_ascii_of_string str).

(** [buffer.toString('hex')]: two lower-case digits per byte. *)
Definition Buffer_toString_hex (buffer : list Z) : string :=
  string_of_list_ascii
    (flat_map (fun b => [hexDigit (b / 16); hexDigit (b mod 16)]) buffer).

(** [BigInt(`0x${digits}`)]: the hexadecimal literal must have at least
    one digit and only hexadecimal digits, else a SyntaxError is thrown,
    whose message quotes the literal. *)
Definition cannotConvert (literal : string) : exn :=
  SyntaxError ("Cannot convert " +:+ literal +:+ " to a BigInt").

Fixpoint hexNumber (literal : string) (acc : Z) (cs : list ascii)
    : result Z :=
  match cs with
  | [] => Ok acc
  | c :: rest =>
      match hexValue c with
      | Some d => hexNumber literal (16 * acc + d) rest
      | None => Throw (cannotConvert literal)
      end
  end.

Definition BigInt_0x (digits : string) : result Z :=
  let literal := "0x" +:+ digits in
  match list_ascii_of_string digits with
  | [] => Throw (cannotConvert literal)
  | cs => hexNumber literal 0 cs
  end.

(** ** utils.ts *)

(** [function toBigInt(buffer: Buffer): bigint] *)
Definition toBigInt (buffer : list Z) : result Z :=
  BigInt_0x (Buffer_toString_hex buffer).

(** [function toBuffer(value: bigint): Buffer] *)
Definition toBuffer (value : Z) : list Z :=
  let str := toString16 value in
  let str :=
    if (Z.of_nat (String.length str) mod 2 =? 1)
    then String "0"%char str else str in
  Buffer_from_hex str.

(** [function allBitsSet(buffer: Uint8Array): boolean]; the loop over
    [i], with [n] iterations left. *)
Fixpoint allBitsSet_loop (buffer : list Z) (i n : nat) : bool :=
  match n with
  | O => true
  | S n' =>
      if bool_decide (buffer !! i = Some 255)
      then allBitsSet_loop buffer (S i) n'
      else false
  end.

Definition allBitsSet (buffer : list Z) : bool :=
  allBitsSet_loop buffer 0 (length buffer).

(** [buffer[0] & 0x80]: reading past the end gives [undefined], which
    [&] converts to 0. *)
Definition signBit (buffer : list Z) : Z :=
  Z.land (default 0 (buffer !! 0%nat)) 128.

(** The [while (i < end)] loop of [bigIntToByteArray]:
    [buffer[i] = buffer[i] ^ 0xff], the store truncating to eight bits. *)
Fixpoint invert_loop (buffer : list Z) (i n : nat) : list Z :=
  match n with
  | O => buffer
  | S n' =>
      let x := Z.lxor (default 0 (buffer !! i)) 255 in
      invert_loop (<[i := Z.land x 255]> buffer) (S i) n'
  end.

(** [export function bigIntToByteArray(value: bigint): Uint8Array]. The
    buffers it updates in place are of its own making and are not shared:
    each update is written as a new value of [buffer]. *)
Definition bigIntToByteArray (value : Z) : result (list Z) :=
  if 0 <=? value then
    let buffer := toBuffer value in
    let buffer :=
      if bool_decide (signBit buffer ≠ 0) then [0] ++ buffer else buffer in
    Ok (reverse buffer)
  else
    let buffer := toBuffer (value * -1) in
    let buffer := if allBitsSet buffer then [0] ++ buffer else buffer in
    let buffer := invert_loop buffer 0 (length buffer) in
    result_bind (toBigInt buffer) (fun v =>
    let buffer2 := toBuffer (v + 1) in
    let buffer2 :=
      if bool_decide (signBit buffer2 = 0) then [255] ++ buffer2
      else buffer2 in
    Ok (reverse buffer2)).

(** ** The store of byte buffers

    [Buffer.from(value)] allocates a new buffer and [buffer.reverse()]
    reverses a buffer in place, so [byteArrayToBigInt] runs over a store
    that maps references to the contents of the buffers they denote. A
    computation takes the store and returns its outcome with the store it
    leaves behind; a throw keeps the writes made before it. *)

Abbreviation loc := positive (only parsing).
Abbreviation store := (gmap positive (list Z)) (only parsing).

Definition M (A : Type) : Type := store -> result A * store.

Definition ret {A} (a : A) : M A := fun σ => (Ok a, σ).

Definition throw {A} (e : exn) : M A := fun σ => (Throw e, σ).

Definition bind {A B} (m : M A) (k : A -> M B) : M B :=
  fun σ =>
    match m σ with
    | (Ok a, σ') => k a σ'
    | (Throw e, σ') => (Throw e, σ')
    end.

Definition lift {A} (r : result A) : M A := fun σ => (r, σ).

#[global] Instance M_bind : MBind M := fun A B k m => bind m k.
#[global] Instance M_ret : MRet M := fun A a => ret a.

(** [Buffer.from(value)] for a [Uint8Array]: a new buffer with a copy of
    the bytes. *)
Definition Buffer_from (value : loc) : M loc :=
  fun σ =>
    match σ !! value with
    | Some bytes =>
        let buffer := fresh (dom σ) in
        (Ok buffer, <[buffer := bytes]> σ)
    | None => (Throw InvalidReference, σ)
    end.

(** [buffer.reverse()]: in place. *)
Definition Buffer_reverse (buffer : loc) : M unit :=
  fun σ =>
    match σ !! buffer with
    | Some bytes => (Ok tt, <[buffer := reverse bytes]> σ)
    | None => (Throw InvalidReference, σ)
    end.

(** The bytes a reference denotes, for reads. *)
Definition Buffer_contents (buffer : loc) : M (list Z) :=
  fun σ =>
    match σ !! buffer with
    | Some bytes => (Ok bytes, σ)
    | None => (Throw InvalidReference, σ)
    end.

(** [export function byteArrayToBigInt(value: Uint8Array): bigint] *)
Definition byteArrayToBigInt (value : loc) : M Z :=
  buffer ← Buffer_from value;
  _ ← Buffer_reverse buffer;
  bytes ← Buffer_contents buffer;
  let negativeValue := signBit bytes in
  if bool_decide (negativeValue = 0)
  then lift (toBigInt bytes)
  else throw (Error "Not Implemented").

(** The decoder called on a byte array held in a store of its own. *)
Definition decode (bytes : list Z) : result Z :=
  fst (byteArrayToBigInt 1%positive {[ 1%positive := bytes ]}).

(** ** bigIntToByteArray.spec.ts

    The tables of the test-suite, "generated via powershell in order to
    ensure .NET BigInteger compat". *)

Definition positiveValueTests : list (Z * string) :=
  [ (0, "00");
    (1, "01");
    (2, "02");
    (3, "03");
    (4, "04");
    (5, "05");
    (7, "07");
    (8, "08");
    (9, "09");
    (15, "0F");
    (16, "10");
    (17, "11");
    (31, "1F");
    (32, "20");
    (33, "21");
    (63, "3F");
    (64, "40");
    (65, "41");
    (127, "7F");
    (128, "8000");
    (129, "8100");
    (255, "FF00");
    (256, "0001");
    (257, "0101");
    (511, "FF01");
    (512, "0002");
    (513, "0102");
    (1023, "FF03");
    (1024, "0004");
    (1025, "0104");
    (2047, "FF07");
    (2048, "0008");
    (2049, "0108");
    (4095, "FF0F");
    (4096, "0010");
    (4097, "0110");
    (8191, "FF1F");
    (8192, "0020");
    (8193, "0120");
    (16383, "FF3F");
    (16384, "0040");
    (16385, "0140");
    (32767, "FF7F");
    (32768, "008000");
    (32769, "018000");
    (65535, "FFFF00");
    (65536, "000001");
    (65537, "010001");
    (131071, "FFFF01");
    (131072, "000002");
    (131073, "010002");
    (262143, "FFFF03");
    (262144, "000004");
    (262145, "010004");
    (524287, "FFFF07");
    (524288, "000008");
    (524289, "010008");
    (1048575, "FFFF0F");
    (1048576, "000010");
    (1048577, "010010");
    (2097151, "FFFF1F");
    (2097152, "000020");
    (2097153, "010020");
    (4194303, "FFFF3F");
    (4194304, "000040");
    (4194305, "010040");
    (8388607, "FFFF7F");
    (8388608, "00008000");
    (8388609, "01008000");
    (16777215, "FFFFFF00");
    (16777216, "00000001");
    (16777217, "01000001");
    (33554431, "FFFFFF01");
    (33554432, "00000002");
    (33554433, "01000002");
    (67108863, "FFFFFF03");
    (67108864, "00000004");
    (67108865, "01000004");
    (134217727, "FFFFFF07");
    (134217728, "00000008");
    (134217729, "01000008");
    (268435455, "FFFFFF0F");
    (268435456, "00000010");
    (268435457, "01000010");
    (536870911, "FFFFFF1F");
    (536870912, "00000020");
    (536870913, "01000020");
    (1073741823, "FFFFFF3F");
    (1073741824, "00000040");
    (1073741825, "01000040");
    (2147483647, "FFFFFF7F");
    (2147483648, "0000008000");
    (2147483649, "0100008000");
    (4294967295, "FFFFFFFF00");
    (4294967296, "0000000001");
    (4294967297, "0100000001");
    (8589934591, "FFFFFFFF01");
    (8589934592, "0000000002");
    (8589934593, "0100000002");
    (17179869183, "FFFFFFFF03");
    (17179869184, "0000000004");
    (17179869185, "0100000004");
    (34359738367, "FFFFFFFF07");
    (34359738368, "0000000008");
    (34359738369, "0100000008");
    (68719476735, "FFFFFFFF0F");
    (68719476736, "0000000010");
    (68719476737, "0100000010");
    (137438953471, "FFFFFFFF1F");
    (137438953472, "0000000020");
    (137438953473, "0100000020");
    (274877906943, "FFFFFFFF3F");
    (274877906944, "0000000040");
    (274877906945, "0100000040");
    (549755813887, "FFFFFFFF7F");
    (549755813888, "000000008000");
    (549755813889, "010000008000");
    (1099511627775, "FFFFFFFFFF00");
    (1099511627776, "000000000001");
    (1099511627777, "010000000001");
    (2199023255551, "FFFFFFFFFF01");
    (2199023255552, "000000000002");
    (2199023255553, "010000000002");
    (4398046511103, "FFFFFFFFFF03");
    (4398046511104, "000000000004");
    (4398046511105, "010000000004");
    (8796093022207, "FFFFFFFFFF07");
    (8796093022208, "000000000008");
    (8796093022209, "010000000008");
    (17592186044415, "FFFFFFFFFF0F");
    (17592186044416, "000000000010");
    (17592186044417, "010000000010");
    (35184372088831, "FFFFFFFFFF1F");
    (35184372088832, "000000000020");
    (35184372088833, "010000000020");
    (70368744177663, "FFFFFFFFFF3F");
    (70368744177664, "000000000040");
    (70368744177665, "010000000040");
    (140737488355327, "FFFFFFFFFF7F");
    (140737488355328, "00000000008000");
    (140737488355329, "01000000008000");
    (281474976710655, "FFFFFFFFFFFF00");
    (281474976710656, "00000000000001");
    (281474976710657, "01000000000001");
    (562949953421311, "FFFFFFFFFFFF01");
    (562949953421312, "00000000000002");
    (562949953421313, "01000000000002");
    (1125899906842623, "FFFFFFFFFFFF03");
    (1125899906842624, "00000000000004");
    (1125899906842625, "01000000000004");
    (2251799813685247, "FFFFFFFFFFFF07");
    (2251799813685248, "00000000000008");
    (2251799813685249, "01000000000008");
    (4503599627370495, "FFFFFFFFFFFF0F");
    (4503599627370496, "00000000000010");
    (4503599627370497, "01000000000010");
    (9007199254740991, "FFFFFFFFFFFF1F");
    (9007199254740992, "00000000000020");
    (9007199254740993, "01000000000020");
    (18014398509481983, "FFFFFFFFFFFF3F");
    (18014398509481984, "00000000000040");
    (18014398509481985, "01000000000040");
    (36028797018963967, "FFFFFFFFFFFF7F");
    (36028797018963968, "0000000000008000");
    (36028797018963969, "0100000000008000");
    (72057594037927935, "FFFFFFFFFFFFFF00");
    (72057594037927936, "0000000000000001");
    (72057594037927937, "0100000000000001");
    (144115188075855871, "FFFFFFFFFFFFFF01");
    (144115188075855872, "0000000000000002");
    (144115188075855873, "0100000000000002");
    (288230376151711743, "FFFFFFFFFFFFFF03");
    (288230376151711744, "0000000000000004");
    (288230376151711745, "0100000000000004");
    (576460752303423487, "FFFFFFFFFFFFFF07");
    (576460752303423488, "0000000000000008");
    (576460752303423489, "0100000000000008");
    (1152921504606846975, "FFFFFFFFFFFFFF0F");
    (1152921504606846976, "0000000000000010");
    (1152921504606846977, "0100000000000010");
    (2305843009213693951, "FFFFFFFFFFFFFF1F");
    (2305843009213693952, "0000000000000020");
    (2305843009213693953, "0100000000000020");
    (4611686018427387903, "FFFFFFFFFFFFFF3F");
    (4611686018427387904, "0000000000000040");
    (4611686018427387905, "0100000000000040");
    (9223372036854775807, "FFFFFFFFFFFFFF7F");
    (9223372036854775808, "000000000000008000");
    (9223372036854775809, "010000000000008000");
    (18446744073709551615, "FFFFFFFFFFFFFFFF00");
    (18446744073709551616, "000000000000000001");
    (18446744073709551617, "010000000000000001") ].

Definition negativeValueTests : list (Z * string) :=
  [ ((-1), "FF");
    ((-2), "FE");
    ((-3), "FD");
    ((-4), "FC");
    ((-5), "FB");
    ((-7), "F9");
    ((-8), "F8");
    ((-9), "F7");
    ((-15), "F1");
    ((-16), "F0");
    ((-17), "EF");
    ((-31), "E1");
    ((-32), "E0");
    ((-33), "DF");
    ((-63), "C1");
    ((-64), "C0");
    ((-65), "BF");
    ((-127), "81");
    ((-128), "80");
    ((-129), "7FFF");
    ((-255), "01FF");
    ((-256), "00FF");
    ((-257), "FFFE");
    ((-511), "01FE");
    ((-512), "00FE");
    ((-513), "FFFD");
    ((-1023), "01FC");
    ((-1024), "00FC");
    ((-1025), "FFFB");
    ((-2047), "01F8");
    ((-2048), "00F8");
    ((-2049), "FFF7");
    ((-4095), "01F0");
    ((-4096), "00F0");
    ((-4097), "FFEF");
    ((-8191), "01E0");
    ((-8192), "00E0");
    ((-8193), "FFDF");
    ((-16383), "01C0");
    ((-16384), "00C0");
    ((-16385), "FFBF");
    ((-32767), "0180");
    ((-32768), "0080");
    ((-32769), "FF7FFF");
    ((-65535), "0100FF");
    ((-65536), "0000FF");
    ((-65537), "FFFFFE");
    ((-131071), "0100FE");
    ((-131072), "0000FE");
    ((-131073), "FFFFFD");
    ((-262143), "0100FC");
    ((-262144), "0000FC");
    ((-262145), "FFFFFB");
    ((-524287), "0100F8");
    ((-524288), "0000F8");
    ((-524289), "FFFFF7");
    ((-1048575), "0100F0");
    ((-1048576), "0000F0");
    ((-1048577), "FFFFEF");
    ((-2097151), "0100E0");
    ((-2097152), "0000E0");
    ((-2097153), "FFFFDF");
    ((-4194303), "0100C0");
    ((-4194304), "0000C0");
    ((-4194305), "FFFFBF");
    ((-8388607), "010080");
    ((-8388608), "000080");
    ((-8388609), "FFFF7FFF");
    ((-16777215), "010000FF");
    ((-16777216), "000000FF");
    ((-16777217), "FFFFFFFE");
    ((-33554431), "010000FE");
    ((-33554432), "000000FE");
    ((-33554433), "FFFFFFFD");
    ((-67108863), "010000FC");
    ((-67108864), "000000FC");
    ((-67108865), "FFFFFFFB");
    ((-134217727), "010000F8");
    ((-134217728), "000000F8");
    ((-134217729), "FFFFFFF7");
    ((-268435455), "010000F0");
    ((-268435456), "000000F0");
    ((-268435457), "FFFFFFEF");
    ((-536870911), "010000E0");
    ((-536870912), "000000E0");
    ((-536870913), "FFFFFFDF");
    ((-1073741823), "010000C0");
    ((-1073741824), "000000C0");
    ((-1073741825), "FFFFFFBF");
    ((-2147483647), "01000080");
    ((-2147483648), "00000080");
    ((-2147483649), "FFFFFF7FFF");
    ((-4294967295), "01000000FF");
    ((-4294967296), "00000000FF");
    ((-4294967297), "FFFFFFFFFE");
    ((-8589934591), "01000000FE");
    ((-8589934592), "00000000FE");
    ((-8589934593), "FFFFFFFFFD");
    ((-17179869183), "01000000FC");
    ((-17179869184), "00000000FC");
    ((-17179869185), "FFFFFFFFFB");
    ((-34359738367), "01000000F8");
    ((-34359738368), "00000000F8");
    ((-34359738369), "FFFFFFFFF7");
    ((-68719476735), "01000000F0");
    ((-68719476736), "00000000F0");
    ((-68719476737), "FFFFFFFFEF");
    ((-137438953471), "01000000E0");
    ((-137438953472), "00000000E0");
    ((-137438953473), "FFFFFFFFDF");
    ((-274877906943), "01000000C0");
    ((-274877906944), "00000000C0");
    ((-274877906945), "FFFFFFFFBF");
    ((-549755813887), "0100000080");
    ((-549755813888), "0000000080");
    ((-549755813889), "FFFFFFFF7FFF");
    ((-1099511627775), "0100000000FF");
    ((-1099511627776), "0000000000FF");
    ((-1099511627777), "FFFFFFFFFFFE");
    ((-2199023255551), "0100000000FE");
    ((-2199023255552), "0000000000FE");
    ((-2199023255553), "FFFFFFFFFFFD");
    ((-4398046511103), "0100000000FC");
    ((-4398046511104), "0000000000FC");
    ((-4398046511105), "FFFFFFFFFFFB");
    ((-8796093022207), "0100000000F8");
    ((-8796093022208), "0000000000F8");
    ((-8796093022209), "FFFFFFFFFFF7");
    ((-17592186044415), "0100000000F0");
    ((-17592186044416), "0000000000F0");
    ((-17592186044417), "FFFFFFFFFFEF");
    ((-35184372088831), "0100000000E0");
    ((-35184372088832), "0000000000E0");
    ((-35184372088833), "FFFFFFFFFFDF");
    ((-70368744177663), "0100000000C0");
    ((-70368744177664), "0000000000C0");
    ((-70368744177665), "FFFFFFFFFFBF");
    ((-140737488355327), "010000000080");
    ((-140737488355328), "000000000080");
    ((-140737488355329), "FFFFFFFFFF7FFF");
    ((-281474976710655), "010000000000FF");
    ((-281474976710656), "000000000000FF");
    ((-281474976710657), "FFFFFFFFFFFFFE");
    ((-562949953421311), "010000000000FE");
    ((-562949953421312), "000000000000FE");
    ((-562949953421313), "FFFFFFFFFFFFFD");
    ((-1125899906842623), "010000000000FC");
    ((-1125899906842624), "000000000000FC");
    ((-1125899906842625), "FFFFFFFFFFFFFB");
    ((-2251799813685247), "010000000000F8");
    ((-2251799813685248), "000000000000F8");
    ((-2251799813685249), "FFFFFFFFFFFFF7");
    ((-4503599627370495), "010000000000F0");
    ((-4503599627370496), "000000000000F0");
    ((-4503599627370497), "FFFFFFFFFFFFEF");
    ((-9007199254740991), "010000000000E0");
    ((-9007199254740992), "000000000000E0");
    ((-9007199254740993), "FFFFFFFFFFFFDF");
    ((-18014398509481983), "010000000000C0");
    ((-18014398509481984), "000000000000C0");
    ((-18014398509481985), "FFFFFFFFFFFFBF");
    ((-36028797018963967), "01000000000080");
    ((-36028797018963968), "00000000000080");
    ((-36028797018963969), "FFFFFFFFFFFF7FFF");
    ((-72057594037927935), "01000000000000FF");
    ((-72057594037927936), "00000000000000FF");
    ((-72057594037927937), "FFFFFFFFFFFFFFFE");
    ((-144115188075855871), "01000000000000FE");
    ((-144115188075855872), "00000000000000FE");
    ((-144115188075855873), "FFFFFFFFFFFFFFFD");
    ((-288230376151711743), "01000000000000FC");
    ((-288230376151711744), "00000000000000FC");
    ((-288230376151711745), "FFFFFFFFFFFFFFFB");
    ((-576460752303423487), "01000000000000F8");
    ((-576460752303423488), "00000000000000F8");
    ((-576460752303423489), "FFFFFFFFFFFFFFF7");
    ((-1152921504606846975), "01000000000000F0");
    ((-1152921504606846976), "00000000000000F0");
    ((-1152921504606846977), "FFFFFFFFFFFFFFEF");
    ((-2305843009213693951), "01000000000000E0");
    ((-2305843009213693952), "00000000000000E0");
    ((-2305843009213693953), "FFFFFFFFFFFFFFDF");
    ((-4611686018427387903), "01000000000000C0");
    ((-4611686018427387904), "00000000000000C0");
    ((-4611686018427387905), "FFFFFFFFFFFFFFBF");
    ((-9223372036854775807), "0100000000000080");
    ((-9223372036854775808), "0000000000000080");
    ((-9223372036854775809), "FFFFFFFFFFFFFF7FFF");
    ((-18446744073709551615), "0100000000000000FF");
    ((-18446744073709551616), "0000000000000000FF");
    ((-18446744073709551617), "FFFFFFFFFFFFFFFFFE") ].

(** [testConvertInt]: [bigIntToByteArray(value)] deep-equals
    [Buffer.from(expected, 'hex')]. *)
Definition testConvertInt (t : Z * string) : bool :=
  bool_decide (bigIntToByteArray t.1 = Ok (Buffer_from_hex t.2)).

(** [testConvertBuffer]: [byteArrayToBigInt(Buffer.from(expected, 'hex'))]
    equals [value]. *)
Definition testConvertBuffer (t : Z * string) : bool :=
  bool_decide (decode (Buffer_from_hex t.2) = Ok t.1).

End Codec.

(** ** The codec in the words of the specification *)

Module CodecSpec.

(** "encode the magnitude big-endian": the bytes of a non-negative
    integer, most significant first. The definition is positional and
    does not go through the digit routine of the code: [m] has as many
    bytes as base-256 digits, [floor (log2 m / 8) + 1] (one for 0), and
    its byte of weight [256 ^ i] is [(m / 256 ^ i) mod 256]. *)
Definition byteLength (m : Z) : nat := S (Z.to_nat (Z.log2 m / 8)).

Definition byteAt (m : Z) (i : nat) : Z := (m / 256 ^ Z.of_nat i) mod 256.

Definition magnitude (m : Z) : list Z :=
  reverse (map (byteAt m) (seq 0 (byteLength m))).

(** "interpret as a big-endian magnitude" *)
Definition bigEndianValue (bytes : list Z) : Z :=
  foldl (fun acc b => 256 * acc + b) 0 bytes.

(** "the most-significant bit of the first byte is set" *)
Definition msbSet (bytes : list Z) : bool :=
  match bytes with
  | b :: _ => Z.testbit b 7
  | [] => false
  end.

(** "bitwise-invert every byte" *)
Definition invertByte (b : Z) : Z := Z.lnot b mod 256.

(** "For n > 0: encode the magnitude big-endian, then prepend a 0x00 byte
    if the most-significant bit of the first byte is set, then reverse to
    little-endian"; "Zero encodes as a single 0x00 byte". *)
Definition encodeNonNegative (n : Z) : list Z :=
  if n =? 0 then [0]
  else
    let bytes := magnitude n in
    let bytes := if msbSet bytes then 0 :: bytes else bytes in
    reverse bytes.

(** "For n < 0: encode |n|; if the encoding's bytes are all 0xFF append a
    leading 0x00 padding byte before inverting; bitwise-invert every
    byte; interpret as a big-endian magnitude, add 1, re-encode; if the
    result's most-significant bit is clear, prepend 0xFF; reverse to
    little-endian". *)
Definition encodeNegative (n : Z) : list Z :=
  let bytes := magnitude (Z.abs n) in
  let bytes := if forallb (Z.eqb 255) bytes then 0 :: bytes else bytes in
  let bytes := map invertByte bytes in
  let bytes := magnitude (bigEndianValue bytes + 1) in
  let bytes := if msbSet bytes then bytes else 255 :: bytes in
  reverse bytes.

(** The integer a little-endian two's-complement byte string denotes:
    its unsigned value, less [256 ^ length] when the sign bit, the top
    bit of the last byte, is set. *)
Definition unsignedValue (bytes : list Z) : Z :=
  foldr (fun b acc => b + 256 * acc) 0 bytes.

Definition signSet (bytes : list Z) : bool :=
  match last bytes with
  | Some b => Z.testbit b 7
  | None => false
  end.

Definition twosComplement (bytes : list Z) : Z :=
  if signSet bytes
  then unsignedValue bytes - 256 ^ Z.of_nat (length bytes)
  else unsignedValue bytes.

(** The digits [toBuffer] decodes: the hexadecimal digits of the value
    after the "0" that makes their number even, and the bytes that pairs
    of digits stand for. *)
Definition evenPad (ds : list Z) : list Z :=
  if Z.of_nat (length ds) mod 2 =? 1 then 0 :: ds else ds.

Fixpoint digitPairs (ds : list Z) : list Z :=
  match ds with
  | h :: l :: rest => (16 * h + l) :: digitPairs rest
  | _ => []
  end.

(** A byte string whose every element is a byte. *)
Definition isBytes (bytes : list Z) : Prop :=
  Forall (fun b => 0 <= b < 256) bytes.

(** [bytes] is a shortest two's-complement encoding of [n]: a non-empty
    string of bytes that denotes [n], no non-empty string of fewer bytes
    doing so. *)
Definition minimalEncoding (n : Z) (bytes : list Z) : Prop :=
  isBytes bytes /\ bytes <> [] /\ twosComplement bytes = n /\
  forall other,
    isBytes other -> other <> [] -> twosComplement other = n ->
    (length bytes <= length other)%nat.

(** The leading (most-significant, last) byte is removable when the
    string without it denotes the same integer. *)
Definition removableLeadingByte (bytes : list Z) : Prop :=
  (2 <= length bytes)%nat /\
  twosComplement (removelast bytes) = twosComplement bytes.

End CodecSpec.

Module Expr.

(** ** Operations (types/Operation.ts)

    An operation is a JavaScript object with a [kind] and, by kind, an
    operand. The module that declares the type is not among the sources;
    the kinds below are those the sources build. Only no-ops are ever
    compared by identity ([===]), as jump targets: a [noop] carries the
    identity of its object and a jump-style operation the identity of the
    object it targets. *)
Inductive Operation : Type :=
| noop (id : nat)
| jump (target : nat)
| jumpif (target : nat)
| jumpifnot (target : nat)
| pushint (value : Z)
| pushdata (value : list Z)
| pushbool (value : bool)
| pushnull
| syscall (name : string)
| simple (kind : string).     (* add, drop, pickitem, ...: no operand *)

#[global] Instance Operation_eq_dec : EqDecision Operation.
Proof. solve_decision. Defined.

(** The [target] property of an operation, when it has one. *)
Definition targetOf (op : Operation) : option nat :=
  match op with
  | jump t | jumpif t | jumpifnot t => Some t
  | _ => None
  end.

(** Modelled from the spec: [isJumpTargetOp], [pushInt] and [pushString]
    of types/Operation.ts, which is not among the sources. "control ops:
    jump / jump-if / jump-if-not ..., each carrying a reference to a
    target Operation"; "Literal forms push a single corresponding
    Operation (integer via the Codec, string/byte-string as raw UTF-8
    bytes, boolean, null)". A [string] is the UTF-8 text. *)
Definition isJumpTargetOp (op : Operation) : bool :=
  bool_decide (is_Some (targetOf op)).

Definition pushInt (value : Z) : Operation := pushint value.

Definition pushString (value : string) : Operation :=
  pushdata (map (fun c => Z.of_N (N_of_ascii c)) (list_ascii_of_string value)).

(** Object allocation: a computation takes the identity of the next
    object and returns the one after those it has created. *)
Definition Alloc (A : Type) : Type := nat -> A * nat.

(** fp-ts: [ROA.append(end)(init)] and [ROA.concat(second)(first)], and
    [pipe(x, f, g)] written [x |> f |> g]. *)
Definition ROA_append {A} (end_ : A) (init : list A) : list A :=
  init ++ [end_].

Definition ROA_concat {A} (second first : list A) : list A :=
  first ++ second.

Notation "x |> f" := (f x) (at level 45, left associativity, only parsing).

(** [export function makeConditionalExpression({ condition, whenTrue,
    whenFalse })] *)
Definition makeConditionalExpression
    (condition whenTrue whenFalse : list Operation)
    : Alloc (list Operation) :=
  fun next =>
    let falseTarget := next in            (* { kind: "noop" } *)
    let endTarget := S next in            (* { kind: "noop" } *)
    (condition
       |> ROA_append (jumpifnot falseTarget)
       |> ROA_concat whenTrue
       |> ROA_append (jump endTarget)
       |> ROA_append (noop falseTarget)
       |> ROA_concat whenFalse
       |> ROA_append (noop endTarget),
     S (S next)).

(** The objects an operation refers to were allocated before [next]:
    what holds of every operation that exists when the object [next] is
    created. *)
Definition allocatedBefore (next : nat) (op : Operation) : Prop :=
  match op with
  | noop id => (id < next)%nat
  | jump target | jumpif target | jumpifnot target => (target < next)%nat
  | _ => True
  end.

(** The invariant of operation sequences, at position [i] of [ops]: when
    the operation there is jump-style, its target appears exactly once in
    [ops], at a later position. *)
Definition targetResolved (ops : list Operation) (i : nat) : Prop :=
  forall op t,
    ops !! i = Some op -> targetOf op = Some t ->
    exists j,
      (i < j)%nat /\ ops !! j = Some (noop t) /\
      forall j', ops !! j' = Some (noop t) -> j' = j.

(** Where the [k]-th operation of [condition ++ whenTrue ++ whenFalse]
    stands in the sequence [makeConditionalExpression] returns, [c] and
    [wt] being the lengths of [condition] and [whenTrue]: one operation
    is put after [condition] and two after [whenTrue]. *)
Definition conditionalPosition (c wt k : nat) : nat :=
  if decide (k < c)%nat then k
  else if decide (k < c + wt)%nat then S k
  else S (S (S k)).

(** ** Expressions

    The expression nodes [reduceExpressionChain] tells apart, with what it
    reads of each; any other kind of node is an [OtherExpression], with
    the expression it wraps when it has one ([node.getExpression()]).
    The value of a numeric literal is a rational. *)
#[warnings="-register-all"]
Inductive Expression : Type :=
| BigIntLiteral (value : Z)
| FalseKeyword
| TrueKeyword
| Identifier (symbol : option Symbol)
| NullKeyword
| NumericLiteral (value : Q)
| StringLiteral (value : string)
| OtherExpression (kindName : string) (expression : option Expression).

Definition getKindName (node : Expression) : string :=
  match node with
  | BigIntLiteral _ => "BigIntLiteral"
  | FalseKeyword => "FalseKeyword"
  | TrueKeyword => "TrueKeyword"
  | Identifier _ => "Identifier"
  | NullKeyword => "NullKeyword"
  | NumericLiteral _ => "NumericLiteral"
  | StringLiteral _ => "StringLiteral"
  | OtherExpression kindName _ => kindName
  end.

Definition getSymbol (node : Expression) : option Symbol :=
  match node with
  | Identifier symbol => symbol
  | _ => None
  end.

(** Modelled from the spec: [TS.getExpression] of TS.ts, which is not
    among the sources; "a property-access or call expression is first
    decomposed into its access chain": the expression a node wraps. *)
Definition getExpression (node : Expression) : option Expression :=
  match node with
  | OtherExpression _ expression => expression
  | _ => None
  end.

Record ParseError : Type := mkParseError {
  message : string;
  node : Expression
}.

Definition makeParseError (node : Expression) (message : string)
    : ParseError :=
  mkParseError message node.

(** [Number.isInteger(value)] and the integer [pushInt] is given. *)
Definition Number_isInteger (value : Q) : bool :=
  Z.rem (Qnum value) (Z.pos (Qden value)) =? 0.

Definition Number_toInteger (value : Q) : Z :=
  Z.quot (Qnum value) (Z.pos (Qden value)).

(** A compile-time object, as far as [reduceIdentifier] reads it. The
    scope it is resolved in is a parameter. *)
Record CompileTimeObject (Scope : Type) : Type := mkCompileTimeObject {
  symbol : Symbol;
  getLoadOps : option (Scope -> Expression -> ParseError + list Operation)
}.
Arguments symbol {Scope} _.
Arguments getLoadOps {Scope} _.

(** What types/CompileTimeObject.ts (not among the sources) and the
    JavaScript runtime provide: the scopes with their [resolve], and the
    text of a number in a template string. *)
Class Collaborators : Type := {
  Scope : Type;
  resolve : Scope -> Symbol -> option (CompileTimeObject Scope);
  Number_toString : Q -> string
}.

Section Chain.
Context `{Collaborators}.

Record ExpressionChainContext : Type := mkContext {
  scope : Scope;
  endTarget : Operation;
  ops : list Operation;
  cto : option (CompileTimeObject Scope);
  error : option ParseError
}.

(** [{ ...context, ops }], [{ ...context, error }] and
    [{ ...context, cto, ops }] *)
Definition withOps (context : ExpressionChainContext)
    (ops' : list Operation) : ExpressionChainContext :=
  mkContext (scope context) (endTarget context) ops' (cto context)
    (error context).

Definition withError (context : ExpressionChainContext)
    (error' : ParseError) : ExpressionChainContext :=
  mkContext (scope context) (endTarget context) (ops context) (cto context)
    (Some error').

Definition withCtoOps (context : ExpressionChainContext)
    (cto' : CompileTimeObject Scope) (ops' : list Operation)
    : ExpressionChainContext :=
  mkContext (scope context) (endTarget context) ops' (Some cto')
    (error context).

Definition reduceBigIntLitera (context : ExpressionChainContext)
    (value : Z) : ExpressionChainContext :=
  let operations := ROA_append (pushInt value) (ops context) in
  withOps context operations.

Definition reduceBooleanLiteral (context : ExpressionChainContext)
    (value : bool) : ExpressionChainContext :=
  let operations := ROA_append (pushbool value) (ops context) in
  withOps context operations.

Definition reduceNullLiteral (context : ExpressionChainContext)
    : ExpressionChainContext :=
  let operations := ROA_append pushnull (ops context) in
  withOps context operations.

Definition reduceNumericLiteral (context : ExpressionChainContext)
    (node : Expression) (value : Q) : ExpressionChainContext :=
  if Number_isInteger value
  then withOps context
         (ROA_append (pushInt (Number_toInteger value)) (ops context))
  else withError context
         (makeParseError node
            ("invalid non-integer numeric literal "
               +:+ Number_toString value)).

Definition reduceStringLiteral (context : ExpressionChainContext)
    (value : string) : ExpressionChainContext :=
  let operations := ROA_append (pushString value) (ops context) in
  withOps context operations.

(** Modelled from the spec: [TS.parseSymbol] of TS.ts, which is not
    among the sources, as [parseSymbol] of the declarations pass has it:
    the symbol of the node, or the error "invalid symbol". *)
Definition parseSymbol (node : Expression) : ParseError + Symbol :=
  match getSymbol node with
  | Some symbol => inr symbol
  | None => inl (makeParseError node "invalid symbol")
  end.

Definition reduceIdentifier (context : ExpressionChainContext)
    (node : Expression) : ExpressionChainContext :=
  let resolved : ParseError + CompileTimeObject Scope :=
    match parseSymbol node with
    | inl e => inl e
    | inr symbol =>
        match resolve (scope context) symbol with
        | Some cto => inr cto
        | None =>
            inl (makeParseError node
                   ("Failed to resolve identifier " +:+ getName symbol))
        end
    end in
  let loaded : ParseError + (CompileTimeObject Scope * list Operation) :=
    match resolved with
    | inl e => inl e
    | inr cto =>
        match
          match getLoadOps cto with
          | Some load => load (scope context) node
          | None =>
              inl (makeParseError node
                     (getName (symbol cto)
                        +:+ " does not support load operations"))
          end
        with
        | inl e => inl e
        | inr loadOps => inr (cto, loadOps)
        end
    end in
  match loaded with
  | inl error => withError context error
  | inr (cto, loadOps) =>
      withCtoOps context cto (ROA_concat (ops context) loadOps)
  end.

Definition reduceExpressionChain (context : ExpressionChainContext)
    (node : Expression) : ExpressionChainContext :=
  match error context with
  | Some _ => context
  | None =>
      match node with
      | BigIntLiteral value => reduceBigIntLitera context value
      | FalseKeyword => reduceBooleanLiteral context false
      | Identifier _ => reduceIdentifier context node
      | NullKeyword => reduceNullLiteral context
      | NumericLiteral value => reduceNumericLiteral context node value
      | StringLiteral value => reduceStringLiteral context value
      | TrueKeyword => reduceBooleanLiteral context true
      | OtherExpression _ _ =>
          withError context
            (makeParseError node
               ("reduceChainContext " +:+ getKindName node
                  +:+ " not implemented"))
      end
  end.

(** [makeExpressionChain]: [makeChain] on the chain [head :: tail]. *)
Fixpoint makeChain (head : Expression) (tail : list Expression)
    : list Expression :=
  match head with
  | OtherExpression _ (Some expr) => makeChain expr (head :: tail)
  | _ => head :: tail
  end.

Definition makeExpressionChain (node : Expression) : list Expression :=
  makeChain node [].

(** The context [parseExpression] starts from, its end target being the
    object allocated at [next]. *)
Definition initialContext (scope : Scope) (next : nat)
    : ExpressionChainContext :=
  mkContext scope (noop next) [] None None.

(** [export function parseExpression(scope)] applied to [node] *)
Definition parseExpression (scope : Scope) (node : Expression)
    : Alloc (ParseError + list Operation) :=
  fun next =>
    let chain := makeExpressionChain node in
    let context := initialContext scope next in
    let result := foldl reduceExpressionChain context chain in
    match error result with
    | Some error => (inl error, S next)
    | None =>
        let hasEndJumps :=
          negb (bool_decide
            (filter (fun op => targetOf op = Some next)
               (filter (fun op => isJumpTargetOp op = true) (ops result))
             = [])) in
        let operations :=
          if hasEndJumps
          then ROA_append (endTarget context) (ops result)
          else ops result in
        (inr operations, S next)
    end.

End Chain.

(** Collaborators for examples: no symbol resolves. *)
Definition sampleCollaborators : Collaborators :=
  {| Scope := unit;
     resolve := fun _ _ => None;
     Number_toString := fun _ => "0.5" |}.

End Expr.

Module Compiler.

(** ** What the compiler reads of the ts-morph project *)

(** A [tsm.Type]: its flags and its symbol. *)
Record tsType : Type := mkType {
  getFlags : Z;
  typeSymbol : option Symbol
}.

Record ParameterDeclaration : Type := mkParameter {
  parameterName : string;
  parameterType : tsType
}.

(** The body of a function declaration: a statement, or a node of
    another kind. *)
Inductive Body : Type :=
| StatementBody (statement : Node)
| OtherBody (kindName : string) (node : Node).

Record FunctionDeclaration : Type := mkFunctionDeclaration {
  functionName : option string;          (* getName() *)
  hasExportKeyword : bool;               (* getExportKeyword() *)
  getParameters : list ParameterDeclaration;
  getReturnType : tsType;
  getBody : option Body
}.

Record VariableDeclaration : Type := mkVariableDeclaration {
  declarationSymbol : option Symbol;
  declarationType : tsType
}.

(** The children of a source file that the passes look at. *)
Inductive SourceChild : Type :=
| InterfaceDeclaration (symbol : option Symbol)
    (members : list (option Symbol))
| VariableStatement (declarations : list VariableDeclaration)
| FunctionDeclarationNode (declaration : FunctionDeclaration)
| OtherChild.

Record SourceFile : Type := mkSourceFile {
  isDeclarationFile : bool;
  children : list SourceChild
}.

Record Project : Type := mkProject {
  getSourceFiles : list SourceFile
}.

(** ** Contract types (contractType.ts and neon-core's
       [sc.ContractParamType]); [OtherPrimitive] and [OtherKind] stand
       for values outside the cases [convertContractType] lists. *)
Inductive PrimitiveType : Type :=
| PT_Address | PT_Boolean | PT_ByteArray | PT_Hash160 | PT_Hash256
| PT_Integer | PT_PublicKey | PT_Signature | PT_String
| OtherPrimitive (name : string).

Inductive ContractType : Type :=
| CT_Array | CT_Interop | CT_Map | CT_Struct | CT_Unspecified
| CT_Primitive (type : PrimitiveType)
| OtherKind (name : string).

Inductive ContractParamType : Type :=
| Any | Boolean | Integer | ByteArray | String_ | Hash160 | Hash256
| PublicKey | Signature | Array | Map | InteropInterface | Void.

(** ** Diagnostics *)

Inductive DiagnosticCategory : Type :=
| Warning | ErrorCategory | Suggestion | Message.

#[global] Instance DiagnosticCategory_eq_dec : EqDecision DiagnosticCategory.
Proof. solve_decision. Defined.

Record Diagnostic : Type := mkDiagnostic {
  category : DiagnosticCategory;
  code : Z;
  file : option string;
  diagnosticLength : option Z;           (* length *)
  messageText : string;
  start : option Z;
  source : option string
}.

(** ** Script builders, artifacts and the compilation context *)

Record Instruction : Type := mkInstruction {
  opCode : Z;
  operand : list Z
}.

Record SequencePoint : Type := mkSequencePoint {
  address : Z;
  location : Node
}.

(** The state of a [ScriptBuilder]: its instructions, each with the
    node it is a sequence point of, if any. *)
Abbreviation ScriptBuilder := (list (Instruction * option Node)).

Inductive VmCall : Type :=
| SysCall (syscall : string).

Record Builtins : Type := mkBuiltins {
  variables : gmap positive Symbol;
  interfaces : gmap positive (gmap positive (list VmCall))
}.

(** An [OperationContext]; its [parent] is the compilation context it is
    listed in. *)
Record OperationContext : Type := mkOperationContext {
  name : string;
  isPublic : bool;
  node : FunctionDeclaration;
  builder : ScriptBuilder
}.

(** The object given to [new sc.ContractMethodDefinition]; every
    property is optional there, so an omitted return type is [None]. *)
Record ContractMethodDefinition : Type := mkContractMethodDefinition {
  methodName : string;
  offset : Z;
  parameters : list (string * ContractParamType);
  returnType : option ContractParamType
}.

Record DebugInfoMethod : Type := mkDebugInfoMethod {
  debugName : string;
  rangeStart : Z;
  rangeEnd : Z;
  debugParameters : list (string * nat * ContractType);
  debugReturnType : option ContractType;       (* undefined: None *)
  sequencePoints : list SequencePoint
}.

Record MethodInfo : Type := mkMethodInfo {
  methodDef : option ContractMethodDefinition;
  debug : DebugInfoMethod
}.

Record NEF : Type := mkNEF {
  compiler : string;
  script : string
}.

Record ContractManifest : Type := mkContractManifest {
  manifestName : string;
  abiMethods : list ContractMethodDefinition
}.

Record DebugInfo : Type := mkDebugInfo {
  contractHash : string;
  checksum : Z;
  methods : list DebugInfoMethod
}.

Record CompilationArtifacts : Type := mkCompilationArtifacts {
  nef : NEF;
  manifest : ContractManifest;
  debugInfo : DebugInfo
}.

Record CompileOptions : Type := mkCompileOptions {
  project : Project;
  optimize : option bool;
  inline : option bool;
  addressVersion : option Z
}.

Record Options : Type := mkOptions {
  optAddressVersion : Z;
  optInline : bool;
  optOptimize : bool
}.

Record CompilationContext : Type := mkCompilationContext {
  contextProject : Project;
  options : Options;
  contextName : option string;
  builtins : option Builtins;
  operations : option (list OperationContext);
  diagnostics : list Diagnostic;
  artifacts : option CompilationArtifacts
}.

Record CompileResults : Type := mkCompileResults {
  resultDiagnostics : list Diagnostic;
  resultArtifacts : option CompilationArtifacts;
  resultContext : CompilationContext
}.

(** What the modules that are not among the sources provide:
    [tsTypeToContractType] of contractType.ts, [convertStatement] of
    convert.ts (it is given the operation context and, through its
    [parent], the diagnostics; it may throw), the [push] and [compile]
    methods of ScriptBuilder.ts, [TypeFlags.VoidLike] of TypeScript, and
    of neon-core [OpCode.INITSLOT], [u.hash160] and the checksum of a
    NEF. *)
Class Collaborators : Type := {
  VoidLike : Z;
  tsTypeToContractType : tsType -> ContractType;
  INITSLOT : Z;
  ScriptBuilder_push : Z -> list Z -> ScriptBuilder -> ScriptBuilder;
  ScriptBuilder_compile :
    ScriptBuilder -> Z -> result (list Z * list SequencePoint);
  convertStatement :
    Node -> OperationContext -> list Diagnostic ->
    result unit * ScriptBuilder * list Diagnostic;
  hash160 : string -> string;
  NEF_checksum : NEF -> Z
}.


Section Passes.
Context `{Collaborators}.

(** utils.ts: [checkFlags] and [isVoidLike] return the masked flags, a
    number that is used as a condition. *)
Definition checkFlags (type : tsType) (flags : Z) : Z :=
  Z.land (getFlags type) flags.

Definition isVoidLike (type : tsType) : Z := checkFlags type VoidLike.

Definition truthy (n : Z) : bool := negb (n =? 0).

(** [export function convertContractType(type: ContractType | tsm.Type)] *)
Definition convertContractType (type : ContractType + tsType)
    : result ContractParamType :=
  let type :=
    match type with
    | inl type => type
    | inr type => tsTypeToContractType type
    end in
  match type with
  | CT_Array => Ok Array
  | CT_Interop => Ok InteropInterface
  | CT_Map => Ok Map
  | CT_Struct => Ok Array
  | CT_Unspecified => Ok Any
  | CT_Primitive primitive =>
      match primitive with
      | PT_Address => Ok Hash160
      | PT_Boolean => Ok Boolean
      | PT_ByteArray => Ok ByteArray
      | PT_Hash160 => Ok Hash160
      | PT_Hash256 => Ok Hash256
      | PT_Integer => Ok Integer
      | PT_PublicKey => Ok PublicKey
      | PT_Signature => Ok Signature
      | PT_String => Ok String_
      | OtherPrimitive name =>
          Throw (Error ("Unrecognized PrimitiveType " +:+ name))
      end
  | OtherKind name => Throw (Error ("Unrecognized ContractTypeKind " +:+ name))
  end.

(** [node.getNameOrThrow()] *)
Definition getNameOrThrow (node : FunctionDeclaration) : result string :=
  match functionName node with
  | Some name => Ok name
  | None => Throw (Error "Expected to find a name.")
  end.

(** [function toMethodDef(node, offset)]; [undefined] is [None]. *)
Definition toMethodDef (node : FunctionDeclaration) (offset : Z)
    : result (option ContractMethodDefinition) :=
  if negb (hasExportKeyword node) then Ok None
  else
    let returnType := getReturnType node in
    name ← getNameOrThrow node;
    parameters ←
      mapM (fun p =>
              type ← convertContractType (inr (parameterType p));
              Ok (parameterName p, type))
           (getParameters node);
    returnType ←
      (if truthy (isVoidLike returnType)
       then Ok Void
       else convertContractType (inr returnType));
    Ok (Some (mkContractMethodDefinition name offset parameters
                (Some returnType))).

(** [function toDebugInfoMethod(op, offset, length, sequencePoints)] *)
Definition toDebugInfoMethod (op : OperationContext) (offset length : Z)
    (sequencePoints : list SequencePoint) : DebugInfoMethod :=
  let parameters :=
    imap (fun index p =>
            (parameterName p, index, tsTypeToContractType (parameterType p)))
         (getParameters (node op)) in
  let returnType := getReturnType (node op) in
  mkDebugInfoMethod (name op) offset (offset + length - 1) parameters
    (if truthy (isVoidLike returnType)
     then None
     else Some (tsTypeToContractType returnType))
    sequencePoints.

(** *** The passes

    A pass mutates the compilation context and may throw: it maps the
    context to its outcome and the context it leaves. *)
Definition CompilePass : Type :=
  CompilationContext -> result unit * CompilationContext.

Definition setBuiltins (context : CompilationContext) (b : Builtins)
    : CompilationContext :=
  mkCompilationContext (contextProject context) (options context)
    (contextName context) (Some b) (operations context)
    (diagnostics context) (artifacts context).

Definition setOperations (context : CompilationContext)
    (ops : list OperationContext) (diags : list Diagnostic)
    : CompilationContext :=
  mkCompilationContext (contextProject context) (options context)
    (contextName context) (builtins context) (Some ops) diags
    (artifacts context).

Definition setDiagnostics (context : CompilationContext)
    (diags : list Diagnostic) : CompilationContext :=
  mkCompilationContext (contextProject context) (options context)
    (contextName context) (builtins context) (operations context) diags
    (artifacts context).

Definition setArtifacts (context : CompilationContext)
    (a : CompilationArtifacts) : CompilationContext :=
  mkCompilationContext (contextProject context) (options context)
    (contextName context) (builtins context) (operations context)
    (diagnostics context) (Some a).

Definition storageBuiltin : gmap string (list VmCall) :=
  list_to_map
    [ ("currentContext", [SysCall "System.Storage.GetContext"]);
      ("get", [SysCall "System.Storage.Get"]);
      ("put", [SysCall "System.Storage.Put"]) ].

Definition builtinInterfaces : gmap string (gmap string (list VmCall)) :=
  {[ "StorageConstructor" := storageBuiltin ]}.

(** The loop over the members of an interface; [None] when a member has
    no symbol, where the callback returns. *)
Fixpoint resolveMembers (iface : gmap string (list VmCall))
    (members : list (option Symbol))
    (acc : gmap positive (list VmCall))
    : option (gmap positive (list VmCall)) :=
  match members with
  | [] => Some acc
  | None :: _ => None
  | Some memberSymbol :: rest =>
      match iface !! getName memberSymbol with
      | Some (call :: calls) =>
          resolveMembers iface rest
            (<[symbolId memberSymbol := call :: calls]> acc)
      | _ => resolveMembers iface rest acc
      end
  end.

(** The callback of [src.forEachChild] in [resolveDeclarationsPass]. *)
Definition resolveChild (b : Builtins) (child : SourceChild) : Builtins :=
  match child with
  | InterfaceDeclaration (Some symbol) members =>
      match builtinInterfaces !! getName symbol with
      | Some iface =>
          match resolveMembers iface members ∅ with
          | Some resolved =>
              mkBuiltins (variables b)
                (<[symbolId symbol := resolved]> (interfaces b))
          | None => b
          end
      | None => b
      end
  | VariableStatement declarations =>
      mkBuiltins
        (foldl (fun vars decl =>
                  match declarationSymbol decl,
                        typeSymbol (declarationType decl) with
                  | Some symbol, Some type => <[symbolId symbol := type]> vars
                  | _, _ => vars
                  end)
               (variables b) declarations)
        (interfaces b)
  | _ => b
  end.

Definition resolveDeclarationsPass : CompilePass :=
  fun context =>
    let resolved :=
      foldl (fun b src =>
               if negb (isDeclarationFile src) then b
               else foldl resolveChild b (children src))
            (mkBuiltins ∅ ∅)
            (getSourceFiles (contextProject context)) in
    (Ok tt, setBuiltins context resolved).

(** A loop whose body may throw: the first throw ends it, with the
    context as the body left it. *)
Fixpoint forEach {A} (body : A -> CompilePass) (items : list A)
    : CompilePass :=
  fun context =>
    match items with
    | [] => (Ok tt, context)
    | item :: rest =>
        match body item context with
        | (Ok _, context) => forEach body rest context
        | (Throw e, context) => (Throw e, context)
        end
    end.

(** The callback of [src.forEachChild] in [processFunctionsPass]. The
    operation context is pushed on [context.operations] before its
    builder is filled: its entry in the list ends with the builder as it
    was left, also by a throw. *)
Definition processChild (child : SourceChild) : CompilePass :=
  fun context =>
    match child with
    | FunctionDeclarationNode node =>
        match functionName node with
        | None => (Ok tt, context)
        | Some name =>
            let listed := default [] (operations context) in
            let paramCount := Z.of_nat (List.length (getParameters node)) in
            let localCount := 0 in
            let builder : ScriptBuilder :=
              if (0 <? localCount) || (0 <? paramCount)
              then ScriptBuilder_push INITSLOT [localCount; paramCount] []
              else [] in
            let opCtx :=
              mkOperationContext name (hasExportKeyword node) node builder in
            match getBody node with
            | None =>
                (Throw (Error "Expected to find the function body."),
                 setOperations context (listed ++ [opCtx])
                   (diagnostics context))
            | Some (StatementBody body) =>
                let '(outcome, builder, diags) :=
                  convertStatement body opCtx (diagnostics context) in
                (outcome,
                 setOperations context
                   (listed ++
                      [mkOperationContext name (hasExportKeyword node) node
                         builder])
                   diags)
            | Some (OtherBody kindName body) =>
                (Throw (CompileError ("Unexpected body kind " +:+ kindName)
                          body),
                 setOperations context (listed ++ [opCtx])
                   (diagnostics context))
            end
        end
    | _ => (Ok tt, context)
    end.

Definition processFunctionsPass : CompilePass :=
  fun context =>
    forEach (fun src : SourceFile =>
               if isDeclarationFile src then (fun context => (Ok tt, context))
               else forEach processChild (children src))
            (getSourceFiles (contextProject context)) context.

(** The loop of [collectArtifactsPass] over the operation contexts,
    from the script and the methods collected so far. *)
Fixpoint collectMethods (ops : list OperationContext)
    (fullScript : list Z) (methods : list MethodInfo)
    : result (list Z * list MethodInfo) :=
  match ops with
  | [] => Ok (fullScript, methods)
  | op :: rest =>
      let offset := Z.of_nat (List.length fullScript) in
      compiled ← ScriptBuilder_compile (builder op) offset;
      let '(script, sequencePoints) := compiled in
      methodDef ← toMethodDef (node op) offset;
      let debug :=
        toDebugInfoMethod op offset (Z.of_nat (List.length script))
          sequencePoints in
      collectMethods rest (fullScript ++ script)
        (methods ++ [mkMethodInfo methodDef debug])
  end.

Definition collectArtifactsPass : CompilePass :=
  fun context =>
    let name := default "Test Contract" (contextName context) in
    match collectMethods (default [] (operations context)) [] [] with
    | Throw e => (Throw e, context)
    | Ok (fullScript, methods) =>
        let nef :=
          mkNEF "neo-devpack-ts" (Codec.Buffer_toString_hex fullScript) in
        let manifest :=
          mkContractManifest name (omap methodDef methods) in
        let debugInfo :=
          mkDebugInfo (hash160 (script nef)) (NEF_checksum nef)
            (map debug methods) in
        (Ok tt,
         setArtifacts context
           (mkCompilationArtifacts nef manifest debugInfo))
    end.

(** *** compile *)

(** The diagnostic the [catch] clause of [compile] pushes. *)
Definition caughtDiagnostic (error : exn) : Diagnostic :=
  let messageText :=
    match error with
    | SyntaxError message | Error message | CompileError message _ =>
        message
    | InvalidReference => "unknown error"
    end in
  let node :=
    match error with
    | CompileError _ node => Some node
    | _ => None
    end in
  mkDiagnostic ErrorCategory 0
    (getSourceFile <$> node)
    ((fun node => getEnd node - getPos node) <$> node)
    messageText
    (getPos <$> node)
    (print <$> node).

Definition isError (d : Diagnostic) : bool :=
  bool_decide (category d = ErrorCategory).

(** One turn of the [for (const pass of passes)] loop, up to its
    [break] test: the pass in its [try], the diagnostic of the [catch]. *)
Definition runPass (pass : CompilePass) (context : CompilationContext)
    : CompilationContext :=
  match pass context with
  | (Ok _, context) => context
  | (Throw error, context) =>
      setDiagnostics context (diagnostics context ++ [caughtDiagnostic error])
  end.

Fixpoint runPasses (passes : list CompilePass)
    (context : CompilationContext) : CompilationContext :=
  match passes with
  | [] => context
  | pass :: rest =>
      let context := runPass pass context in
      if existsb isError (diagnostics context)
      then context                                   (* break *)
      else runPasses rest context
  end.

Definition DEFAULT_ADDRESS_VALUE : Z := 53.

Definition passes : list CompilePass :=
  [ resolveDeclarationsPass; processFunctionsPass; collectArtifactsPass ].

Definition initialContext (options : CompileOptions) : CompilationContext :=
  mkCompilationContext (project options)
    (mkOptions (default DEFAULT_ADDRESS_VALUE (addressVersion options))
       (default false (inline options))
       (default false (optimize options)))
    None None None [] None.

(** [function compile(options: CompileOptions): CompileResults] *)
Definition compile (options : CompileOptions) : CompileResults :=
  let context := runPasses passes (initialContext options) in
  mkCompileResults (diagnostics context) (artifacts context) context.





End Passes.

(** The ranges of the methods of a debug information, in order, tile the
    addresses from [start] up to [stop]: the first range begins at
    [start], each following one where the one before it ends, and the
    last one ends before [stop]. *)
Fixpoint tiled (start : Z) (methods : list DebugInfoMethod) (stop : Z)
    : Prop :=
  match methods with
  | [] => start = stop
  | method :: rest =>
      rangeStart method = start /\ tiled (rangeEnd method + 1) rest stop
  end.


(** How the method information collected for an operation context
    relates to it: the debug method has the operation's name; there is a
    manifest entry only for an exported declaration, under the
    declaration's name and at the offset where the debug range starts. *)
Definition collectedFrom (op : OperationContext) (m : MethodInfo) : Prop :=
  debugName (debug m) = name op /\
  match methodDef m with
  | None => hasExportKeyword (node op) = false
  | Some def =>
      hasExportKeyword (node op) = true /\
      functionName (node op) = Some (methodName def) /\
      offset def = rangeStart (debug m)
  end.

(** Collaborators and projects for examples: TypeScript's value of
    [TypeFlags.VoidLike], every type unspecified, a builder that lists
    what is pushed and compiles to one byte per instruction, statements
    that convert to nothing. *)
Definition sampleCollaborators : Collaborators :=
  {| VoidLike := 49152;
     tsTypeToContractType := fun _ => CT_Unspecified;
     INITSLOT := 87;
     ScriptBuilder_push :=
       fun opCode operand builder =>
         builder ++ [(mkInstruction opCode operand, None)];
     ScriptBuilder_compile :=
       fun builder _ => Ok (map (fun i => opCode i.1) builder, []);
     convertStatement := fun _ op diags => (Ok tt, builder op, diags);
     hash160 := fun script => script;
     NEF_checksum := fun _ => 0 |}.

Definition voidType : tsType := mkType 16384 None.

Definition stringType : tsType := mkType 4 None.

Definition sampleBody : Body :=
  StatementBody (mkNode 0 2 "contract.ts" "{}").

(** [export function helloWorld(): void {}],
    [function helper(name: string): string {}] and an overload
    signature [export function broken(): void;] without a body. *)
Definition helloWorld : FunctionDeclaration :=
  mkFunctionDeclaration (Some "helloWorld") true [] voidType
    (Some sampleBody).

Definition helper : FunctionDeclaration :=
  mkFunctionDeclaration (Some "helper") false
    [mkParameter "name" stringType] stringType (Some sampleBody).


Definition sampleOptions (declarations : list FunctionDeclaration)
    : CompileOptions :=
  mkCompileOptions
    (mkProject
       [mkSourceFile false (map FunctionDeclarationNode declarations)])
    None None None.

End Compiler.

(** ** Constants (utils.ts and the declarations pass) *)

Module Constants.
Import Expr.

(** [bigint | boolean | Uint8Array | null] *)
Inductive ConstantValue : Type :=
| NullValue
| BigIntValue (value : Z)
| BooleanValue (value : bool)
| BytesValue (value : list Z).

(** [Buffer.from(literal, 'utf8')], a [string] being the UTF-8 text. *)
Definition utf8Bytes (literal : string) : list Z :=
  map (fun c => Z.of_N (N_of_ascii c)) (list_ascii_of_string literal).

Section Values.
Context `{Collaborators}.

(** [export function getConstantValue(node: tsm.Expression)] of
    utils.ts. A thrown [CompileError(message, node)] is the left case,
    with its message and its node. *)
Definition getConstantValue (node : Expression)
    : ParseError + ConstantValue :=
  match node with
  | NullKeyword => inr NullValue
  | BigIntLiteral value => inr (BigIntValue value)
  | NumericLiteral literal =>
      if negb (Number_isInteger literal)
      then inl (makeParseError node "invalid non-integer numeric literal")
      else inr (BigIntValue (Number_toInteger literal))
  | FalseKeyword => inr (BooleanValue false)
  | TrueKeyword => inr (BooleanValue true)
  | StringLiteral literal => inr (BytesValue (utf8Bytes literal))
  | _ =>
      inl (makeParseError node ("Unsupported const type " +:+ getKindName node))
  end.

(** [const parseConstantValue] of the declarations pass *)
Definition parseConstantValue (node : Expression)
    : ParseError + ConstantValue :=
  match node with
  | NullKeyword => inr NullValue
  | FalseKeyword => inr (BooleanValue false)
  | TrueKeyword => inr (BooleanValue true)
  | BigIntLiteral literal => inr (BigIntValue literal)
  | NumericLiteral literal =>
      if Number_isInteger literal
      then inr (BigIntValue (Number_toInteger literal))
      else inl (makeParseError node
                  ("invalid non-integer numeric literal "
                     +:+ Number_toString literal))
  | StringLiteral literal => inr (BytesValue (utf8Bytes literal))
  | _ =>
      inl (makeParseError node ("Unsupported const type " +:+ getKindName node))
  end.

End Values.

(** Collaborators for examples: every symbol resolves to an object that
    loads the integer 42. *)
Definition answerCollaborators : Collaborators :=
  {| Scope := unit;
     resolve :=
       fun _ symbol =>
         Some (mkCompileTimeObject unit symbol
                 (Some (fun _ _ => inr [pushint 42])));
     Number_toString := fun _ => "0.5" |}.

End Constants.

(** ** Built-in symbols (builtins.ts) *)

Module BuiltinDefs.
Import Expr.

(** [value.startsWith('0x') || value.startsWith('0X') ?
    value.substring(2) : value] *)
Definition stripHexPrefix (value : string) : string :=
  if String.prefix "0x" value || String.prefix "0X" value
  then String.substring 2 (String.length value - 2) value
  else value.

(** [const fromHex = (value: string): O.Option<Uint8Array>];
    [Buffer.from(value, 'hex')] does not throw on a string, so
    [fromEncoding('hex')] is always [some]. *)
Definition fromHex (value : string) : option (list Z) :=
  let value := stripHexPrefix value in
  buffer ← Some (Codec.Buffer_from_hex value);
  if (List.length buffer * 2 =? String.length value)%nat
  then Some buffer
  else None.

(** fp-ts: [E.map(f)] and [ROA.sequence(E.Applicative)], which gives the
    first left in the order of the array, or all the rights. *)
Definition E_map {E A B} (f : A -> B) (fa : E + A) : E + B :=
  match fa with
  | inl e => inl e
  | inr a => inr (f a)
  end.

Fixpoint ROA_sequence {E A} (results : list (E + A)) : E + list A :=
  match results with
  | [] => inr []
  | inl e :: _ => inl e
  | inr a :: rest =>
      match ROA_sequence rest with
      | inl e => inl e
      | inr values => inr (a :: values)
      end
  end.

Section Calls.
Context `{Collaborators}.

(** [ROA.map(parseExpression(scope))]: every argument is parsed, in
    order, each parse creating its end target. *)
Fixpoint parseEach (scope : Scope) (args : list Expression)
    : Alloc (list (ParseError + list Operation)) :=
  fun next =>
    match args with
    | [] => ([], next)
    | arg :: rest =>
        let '(result, next) := parseExpression scope arg next in
        let '(results, next) := parseEach scope rest next in
        (result :: results, next)
    end.

(** [const parseArgArray = (scope) => (args)] *)
Definition parseArgArray (scope : Scope) (args : list Expression)
    : Alloc (ParseError + list Operation) :=
  fun next =>
    let '(results, next) := parseEach scope args next in
    (ROA_sequence results
       |> E_map (@reverse (list Operation))
       |> E_map (@concat Operation),
     next).

(** [CallContractFunctionDef.parseArguments(scope)(node)], [args] being
    [getArguments(node)]. The call arguments are parsed only when the
    target arguments have parsed. *)
Definition callContractArguments (scope : Scope) (node : Expression)
    (args : list Expression) : Alloc (ParseError + list Operation) :=
  fun next =>
    let callArgs := take 3 args in
    if negb (List.length callArgs =? 3)%nat
    then (inl (makeParseError node "invalid arg count"), next)
    else
      let targetArgs := drop 3 args in
      let '(target, next) := parseArgArray scope targetArgs next in
      match
        target
          |> E_map (ROA_concat
                      [pushint (Z.of_nat (List.length targetArgs));
                       simple "pack"])
      with
      | inl e => (inl e, next)
      | inr target =>
          let '(call, next) := parseArgArray scope callArgs next in
          match
            call |> E_map (ROA_append (syscall "System.Contract.Call"))
          with
          | inl e => (inl e, next)
          | inr call => (inr (ROA_concat call target), next)
          end
      end.

(** [OperationsFunctionDef.parseArguments(scope)(node)], [args] being
    [getArguments(node)]. *)
Definition operationsArguments (scope : Scope) (args : list Expression)
    : Alloc (ParseError + list Operation) :=
  fun next =>
    let '(results, next) := parseEach scope args next in
    (ROA_sequence results |> E_map (@concat Operation), next).

End Calls.

End BuiltinDefs.

(** ** The declarations of the project's libraries (the library pass of
       parseDeclarations.ts) *)

Module Library.

(** The children of a library source file that the pass looks at; a
    declaration is the node that declares it. A module declaration is
    given by whether its kind is [Global] and by the children of its
    body, if it has one. *)
#[warnings="-register-all"]
Inductive LibNode : Type :=
| EnumDeclarationNode (declaration : Node)
| FunctionDeclarationNode (declaration : Node)
| InterfaceDeclarationNode (declaration : Node)
| VariableStatementNode (declarations : list Node)
| ModuleDeclarationNode (isGlobal : bool) (body : option (list LibNode))
| OtherNode.

Record SourceFile : Type := mkSourceFile {
  getFilePath : string;
  getChildren : list LibNode;
  getLibReferenceDirectives : list string;     (* their file names *)
  getTypeReferenceDirectives : list string
}.

Record LibraryDeclarations : Type := mkLibraryDeclarations {
  enums : list Node;
  functions : list Node;
  interfaces : list Node;
  variables : list Node
}.

Definition isEnumDeclaration (node : LibNode) : option Node :=
  match node with EnumDeclarationNode d => Some d | _ => None end.

Definition isFunctionDeclaration (node : LibNode) : option Node :=
  match node with FunctionDeclarationNode d => Some d | _ => None end.

Definition isInterfaceDeclaration (node : LibNode) : option Node :=
  match node with InterfaceDeclarationNode d => Some d | _ => None end.

Definition isVariableStatement (node : LibNode) : option (list Node) :=
  match node with VariableStatementNode ds => Some ds | _ => None end.

(** [isModuleDeclaration] followed by the filter on the declaration
    kind: the body of a global module. *)
Definition isGlobalModule (node : LibNode) : option (option (list LibNode)) :=
  match node with
  | ModuleDeclarationNode true body => Some body
  | _ => None
  end.

(** [const parseDeclarations = (children): LibraryDeclarations] *)
Definition parseDeclarations (children : list LibNode)
    : LibraryDeclarations :=
  mkLibraryDeclarations
    (omap isEnumDeclaration children)
    (omap isFunctionDeclaration children)
    (omap isInterfaceDeclaration children)
    (mjoin (omap isVariableStatement children)).

(** [libDeclMonoid] *)
Definition libDecl_concat (x y : LibraryDeclarations) : LibraryDeclarations :=
  mkLibraryDeclarations
    (Expr.ROA_concat (enums y) (enums x))
    (Expr.ROA_concat (functions y) (functions x))
    (Expr.ROA_concat (interfaces y) (interfaces x))
    (Expr.ROA_concat (variables y) (variables x)).

Definition libDecl_empty : LibraryDeclarations :=
  mkLibraryDeclarations [] [] [] [].

Record Resolver : Type := mkResolver {
  resolveLib : string -> string + SourceFile;
  resolveTypes : string -> string + SourceFile
}.

(** [const resolveReferences = (resolver) => (libs, types)] *)
Definition resolveReferences (resolver : Resolver)
    (libs types : list string) : list (string + SourceFile) :=
  let resolvedLibs := map (resolveLib resolver) libs in
  let resolbedTypes := map (resolveTypes resolver) types in
  Expr.ROA_concat resolvedLibs resolbedTypes.

(** [ROA.partitionMap(identity)]: the lefts and the rights, in order. *)
Definition lefts {E A} (results : list (E + A)) : list E :=
  omap (fun r => match r with inl e => Some e | inr _ => None end) results.

Definition rights {E A} (results : list (E + A)) : list A :=
  omap (fun r => match r with inl _ => None | inr a => Some a end) results.

(** The compiler options of the project that the pass reads. *)
Record Project : Type := mkProject {
  lib : option (list string);
  types : option (list string)
}.

(** What lies outside the model: the file system of the project, from
    which [makeResolver] builds the resolver, [posix.basename] of
    Node.js, and [createDiagnostic] of utils.ts, which is not among the
    sources. *)
Class Collaborators : Type := {
  Diagnostic : Type;
  makeResolver : Project -> Resolver;
  basename : string -> string;
  createDiagnostic : string -> Diagnostic
}.

Section Pass.
Context `{Collaborators}.

(** The loop over the global modules in [parseLibrarySourceFile]:
    [None] when a module has no body, where the function returns. *)
Fixpoint globalModulesLoop (modules : list (option (list LibNode)))
    (childDecls : LibraryDeclarations) : option LibraryDeclarations :=
  match modules with
  | [] => Some childDecls
  | None :: _ => None
  | Some body :: rest =>
      globalModulesLoop rest
        (libDecl_concat childDecls (parseDeclarations body))
  end.

(** [const parseLibrarySourceFile = (resolver) => (src)], a state
    computation on the declarations. *)
Definition parseLibrarySourceFile (resolver : Resolver) (src : SourceFile)
    (declarations : LibraryDeclarations)
    : list (string + SourceFile) * LibraryDeclarations :=
  let children := getChildren src in
  let childDecls := parseDeclarations children in
  let globalModules := omap isGlobalModule children in
  match globalModulesLoop globalModules childDecls with
  | None =>
      ([inl (basename (getFilePath src) +:+ " global module")],
       declarations)
  | Some childDecls =>
      let libs := getLibReferenceDirectives src in
      let types := getTypeReferenceDirectives src in
      (resolveReferences resolver libs types,
       libDecl_concat childDecls declarations)
  end.

(** The [while (ROA.isNonEmpty(sources))] loop of [parseProjectLibrary],
    with a bound [fuel] on the number of its turns; [None] when the
    bound is reached. *)
Fixpoint libraryLoop (resolver : Resolver) (fuel : nat)
    (sources : list SourceFile) (parsed : gset string)
    (declarations : LibraryDeclarations) (failures : list string)
    : option (LibraryDeclarations * list string) :=
  match sources with
  | [] => Some (declarations, failures)
  | head :: sources =>
      match fuel with
      | O => None
      | S fuel =>
          let headPath := getFilePath head in
          if decide (headPath ∈ parsed)
          then libraryLoop resolver fuel sources parsed declarations failures
          else
            let parsed := {[ headPath ]} ∪ parsed in
            let '(results, declarations) :=
              parseLibrarySourceFile resolver head declarations in
            let failures := Expr.ROA_concat (lefts results) failures in
            let sources := Expr.ROA_concat (rights results) sources in
            libraryLoop resolver fuel sources parsed declarations failures
      end
  end.

(** [export const parseProjectLibrary = (project) => diagnostics] *)
Definition parseProjectLibrary (fuel : nat) (project : Project)
    (diagnostics : list Diagnostic)
    : option (LibraryDeclarations * list Diagnostic) :=
  let resolver := makeResolver project in
  let results :=
    resolveReferences resolver (default [] (lib project))
      (default [] (types project)) in
  match
    libraryLoop resolver fuel (rights results) ∅ libDecl_empty
      (lefts results)
  with
  | None => None
  | Some (declarations, failures) =>
      Some (declarations,
            Expr.ROA_concat (map createDiagnostic failures) diagnostics)
  end.

(** What a source file adds to the declarations. *)
Definition contribution (resolver : Resolver) (src : SourceFile)
    : LibraryDeclarations :=
  (parseLibrarySourceFile resolver src libDecl_empty).2.

End Pass.

(** The files of a list that are the first of their path in it, the
    paths [seen] not counted. *)
Fixpoint firstByPath (seen : gset string) (files : list SourceFile)
    : list SourceFile :=
  match files with
  | [] => []
  | file :: rest =>
      if decide (getFilePath file ∈ seen)
      then firstByPath seen rest
      else file :: firstByPath ({[ getFilePath file ]} ∪ seen) rest
  end.

(** The order in which files are visited from the files [initial],
    [references] giving the files a file refers to: the list holds, in
    order, the files that are the first of their path in the queue made
    of [initial] followed by the references of each file of the list,
    and each of its files is in [initial] or is referred to by a file
    before it in the list. *)
Definition visitOrder (references : SourceFile -> list SourceFile)
    (seen : gset string) (initial visited : list SourceFile) : Prop :=
  visited = firstByPath seen (initial ++ flat_map references visited) /\
  forall earlier v later,
    visited = earlier ++ v :: later ->
    v ∈ initial \/ exists w, w ∈ earlier /\ v ∈ references w.

(** A library for examples: [es2020] refers to [es5] twice, by a lib
    directive and a types directive, and [es5] back to [es2020]. *)
Definition declared (name : string) : Node := mkNode 0 1 "lib.d.ts" name.

Definition es5 : SourceFile :=
  mkSourceFile "/lib/lib.es5.d.ts"
    [FunctionDeclarationNode (declared "parseInt");
     ModuleDeclarationNode true
       (Some [InterfaceDeclarationNode (declared "Array")])]
    ["es2020"] [].

Definition es2020 : SourceFile :=
  mkSourceFile "/lib/lib.es2020.d.ts"
    [VariableStatementNode [declared "BigInt"; declared "globalThis"];
     OtherNode]
    ["es5"] ["es5"; "missing"].

Definition sampleResolver : Resolver :=
  let resolve kind name :=
    if String.eqb name "es5" then inr es5
    else if String.eqb name "es2020" then inr es2020
    else inl (name +:+ kind) in
  mkResolver (resolve " library") (resolve " types").

Definition sampleCollaborators : Collaborators :=
  {| Diagnostic := string;
     makeResolver := fun _ => sampleResolver;
     basename := fun path => path;
     createDiagnostic := fun message => message |}.

End Library.


(** * Properties *)

Module CodecFacts.
Import Codec CodecSpec.

(** ** Digits *)

Lemma hexValue_hexDigit d :
  0 <= d < 16 -> hexValue (hexDigit d) = Some d.
Proof.
  intros Hd.
  assert (Hcases : In d [0;1;2;3;4;5;6;7;8;9;10;11;12;13;14;15])
    by (simpl; lia).
  simpl in Hcases.
  repeat (destruct Hcases as [<- | Hcases]; [reflexivity |]).
  contradiction.
Qed.

Lemma digitBound_enough radix v :
  2 <= radix -> 0 <= v -> v < radix ^ Z.of_nat (digitBound v).
Proof.
  intros Hr Hv. unfold digitBound.
  rewrite Nat2Z.inj_succ, Z2Nat.id by apply Z.log2_nonneg.
  destruct (Z.eq_dec v 0) as [-> | Hnz].
  - simpl. lia.
  - pose proof (Z.log2_spec v ltac:(lia)) as [_ Hlt].
    eapply Z.lt_le_trans; [exact Hlt |].
    apply Z.pow_le_mono_l. lia.
Qed.

Lemma radixDigits_S radix f v :
  radixDigits radix (S f) v =
    if v <? radix then [v]
    else radixDigits radix f (v / radix) ++ [v mod radix].
Proof. reflexivity. Qed.

Lemma radixDigits_fuel radix f1 :
  2 <= radix ->
  forall f2 v,
    0 <= v ->
    v < radix ^ Z.of_nat (S f1) -> v < radix ^ Z.of_nat (S f2) ->
    radixDigits radix (S f1) v = radixDigits radix (S f2) v.
Proof.
  intros Hr. induction f1 as [| f1 IH]; intros f2 v Hv H1 H2.
  - change (Z.of_nat 1) with 1 in H1. rewrite Z.pow_1_r in H1.
    simpl. apply Z.ltb_lt in H1. rewrite H1. reflexivity.
  - rewrite (radixDigits_S radix (S f1)), (radixDigits_S radix f2).
    destruct (v <? radix) eqn:E; [reflexivity |].
    apply Z.ltb_ge in E.
    rewrite Nat2Z.inj_succ, Z.pow_succ_r in H1 by lia.
    rewrite Nat2Z.inj_succ, Z.pow_succ_r in H2 by lia.
    destruct f2 as [| f2].
    { change (Z.of_nat 0) with 0 in H2. rewrite Z.pow_0_r in H2. lia. }
    rewrite (IH f2 (v / radix)); [reflexivity | | |].
    + apply Z.div_pos; lia.
    + apply Z.div_lt_upper_bound; lia.
    + apply Z.div_lt_upper_bound; lia.
Qed.

Lemma radixDigits_unfold radix v :
  2 <= radix -> 0 <= v ->
  radixDigits radix (digitBound v) v =
    if v <? radix then [v]
    else radixDigits radix (digitBound (v / radix)) (v / radix)
           ++ [v mod radix].
Proof.
  intros Hr Hv. unfold digitBound at 1. rewrite radixDigits_S.
  destruct (v <? radix) eqn:E; [reflexivity |].
  apply Z.ltb_ge in E. f_equal.
  assert (Hq : 0 <= v / radix) by (apply Z.div_pos; lia).
  assert (Hlog : 0 < Z.log2 v) by (apply Z.log2_pos; lia).
  destruct (Z.to_nat (Z.log2 v)) as [| f] eqn:Ef; [lia |].
  unfold digitBound. apply radixDigits_fuel; try assumption.
  - apply Z.div_lt_upper_bound; [lia |].
    rewrite <- Z.pow_succ_r by lia. rewrite <- Nat2Z.inj_succ.
    rewrite <- Ef.
    pose proof (digitBound_enough radix v Hr Hv) as Hb.
    unfold digitBound in Hb. exact Hb.
  - apply (digitBound_enough radix (v / radix) Hr Hq).
Qed.

Lemma radixDigits_range radix fuel v :
  2 <= radix -> 0 <= v ->
  Forall (fun d => 0 <= d < radix) (radixDigits radix fuel v).
Proof.
  intros Hr. revert v. induction fuel as [| fuel IH]; intros v Hv.
  - constructor.
  - rewrite radixDigits_S. destruct (v <? radix) eqn:E.
    + apply Z.ltb_lt in E. repeat constructor; lia.
    + apply Forall_app. split.
      * apply IH. apply Z.div_pos; lia.
      * repeat constructor; apply Z.mod_pos_bound; lia.
Qed.

Lemma radixDigits_nonempty radix v :
  radixDigits radix (digitBound v) v <> [].
Proof.
  unfold digitBound. rewrite radixDigits_S.
  destruct (v <? radix); [discriminate |].
  intros Heq. apply app_eq_nil in Heq as [_ Heq]. discriminate.
Qed.

(** ** Hexadecimal text and [toBuffer] *)

Lemma length_string_of_list_ascii cs :
  String.length (string_of_list_ascii cs) = length cs.
Proof. induction cs as [| c cs IH]; simpl; congruence. Qed.

Lemma hexPairs_hexDigits ds :
  Forall (fun d => 0 <= d < 16) ds ->
  hexPairs (map hexDigit ds) = digitPairs ds.
Proof.
  remember (length ds) as n eqn:Hn.
  revert ds Hn. induction n as [n IH] using lt_wf_ind.
  intros [| h [| l rest]] Hn Hds; try reflexivity.
  inversion Hds as [| ? ? Hh Hds']; subst.
  inversion Hds' as [| ? ? Hl Hrest]; subst.
  cbn [map hexPairs digitPairs].
  rewrite !hexValue_hexDigit by assumption.
  f_equal. eapply IH; [| reflexivity | assumption]. simpl. lia.
Qed.

Lemma digitPairs_app ds a b :
  Z.of_nat (length ds) mod 2 = 0 ->
  digitPairs (ds ++ [a; b]) = digitPairs ds ++ [16 * a + b].
Proof.
  remember (length ds) as n eqn:Hn.
  revert ds Hn. induction n as [n IH] using lt_wf_ind.
  intros [| h [| l rest]] Hn Hev; try reflexivity.
  - subst n. simpl in Hev. discriminate.
  - cbn [app digitPairs]. f_equal.
    eapply IH; [| reflexivity |].
    + subst n. simpl. lia.
    + subst n. cbn [length] in Hev.
      rewrite !Nat2Z.inj_succ in Hev.
      replace (Z.succ (Z.succ (Z.of_nat (length rest))))
        with (Z.of_nat (length rest) + 1 * 2) in Hev by lia.
      rewrite Z.mod_add in Hev by lia. exact Hev.
Qed.

Lemma evenPad_even ds : Z.of_nat (length (evenPad ds)) mod 2 = 0.
Proof.
  unfold evenPad.
  destruct (Z.of_nat (length ds) mod 2 =? 1) eqn:E.
  - apply Z.eqb_eq in E. cbn [length]. rewrite Nat2Z.inj_succ.
    unfold Z.succ. rewrite Z.add_mod, E by lia. reflexivity.
  - apply Z.eqb_neq in E.
    pose proof (Z.mod_pos_bound (Z.of_nat (length ds)) 2 ltac:(lia)). lia.
Qed.

Lemma evenPad_app ds a b : evenPad (ds ++ [a; b]) = evenPad ds ++ [a; b].
Proof.
  unfold evenPad. rewrite length_app. cbn [length].
  replace (Z.of_nat (length ds + 2)) with (Z.of_nat (length ds) + 1 * 2)
    by lia.
  rewrite Z.mod_add by lia.
  destruct (Z.of_nat (length ds) mod 2 =? 1); reflexivity.
Qed.

Lemma toBuffer_digits v :
  0 <= v -> toBuffer v = digitPairs (evenPad (hexDigits v)).
Proof.
  intros Hv. unfold toBuffer, toString16, Buffer_from_hex.
  destruct (v <? 0) eqn:E; [apply Z.ltb_lt in E; lia |].
  rewrite length_string_of_list_ascii, length_map.
  assert (Hrange : Forall (fun d => 0 <= d < 16) (hexDigits v))
    by (apply radixDigits_range; lia).
  unfold evenPad.
  destruct (Z.of_nat (length (hexDigits v)) mod 2 =? 1).
  - cbn [list_ascii_of_string].
    rewrite list_ascii_of_string_of_list_ascii.
    change ("0"%char :: map hexDigit (hexDigits v))
      with (map hexDigit (0 :: hexDigits v)).
    apply hexPairs_hexDigits. constructor; [lia | assumption].
  - rewrite list_ascii_of_string_of_list_ascii.
    apply hexPairs_hexDigits. assumption.
Qed.

Lemma hexDigits_unfold v :
  0 <= v ->
  hexDigits v = if v <? 16 then [v] else hexDigits (v / 16) ++ [v mod 16].
Proof. intros Hv. apply radixDigits_unfold; lia. Qed.

Lemma byteLength_small m : 0 <= m < 256 -> byteLength m = 1%nat.
Proof.
  intros Hm. unfold byteLength.
  destruct (Z.eq_dec m 0) as [-> | Hnz]; [reflexivity |].
  assert (Hlog : Z.log2 m < 8)
    by (apply Z.log2_lt_pow2; [lia | simpl; lia]).
  pose proof (Z.log2_nonneg m).
  rewrite Z.div_small by lia. reflexivity.
Qed.

Lemma byteLength_step m :
  256 <= m -> byteLength m = S (byteLength (m / 256)).
Proof.
  intros Hm. unfold byteLength. f_equal.
  assert (Hlog : 8 <= Z.log2 m)
    by (apply Z.log2_le_pow2; [lia | simpl; lia]).
  change 256 with (2 ^ 8). rewrite <- Z.shiftr_div_pow2 by lia.
  rewrite Z.log2_shiftr by lia.
  rewrite Z.max_r by lia.
  replace (Z.log2 m) with ((Z.log2 m - 8) + 1 * 8) at 1 by lia.
  rewrite Z.div_add by lia.
  rewrite Z2Nat.inj_add by (try apply Z.div_pos; lia).
  change (Z.to_nat 1) with 1%nat. lia.
Qed.

Lemma byteAt_step m i :
  0 <= m -> byteAt m (S i) = byteAt (m / 256) i.
Proof.
  intros Hm. unfold byteAt.
  rewrite Nat2Z.inj_succ, Z.pow_succ_r by lia.
  rewrite Z.div_div by (try apply Z.pow_pos_nonneg; lia). reflexivity.
Qed.

(** The positional bytes satisfy the recursion of the digit routine. *)
Lemma magnitude_unfold m :
  0 <= m ->
  magnitude m =
    if m <? 256 then [m] else magnitude (m / 256) ++ [m mod 256].
Proof.
  intros Hm. unfold magnitude. destruct (m <? 256) eqn:E.
  - apply Z.ltb_lt in E. rewrite byteLength_small by lia.
    cbn [seq map]. unfold byteAt. change (256 ^ Z.of_nat 0) with 1.
    rewrite Z.div_1_r, Z.mod_small by lia. reflexivity.
  - apply Z.ltb_ge in E. rewrite byteLength_step by exact E.
    cbn [seq map]. rewrite reverse_cons. f_equal.
    + f_equal. rewrite <- seq_shift, map_map.
      apply map_ext. intros i. apply byteAt_step. exact Hm.
    + unfold byteAt. change (256 ^ Z.of_nat 0) with 1.
      rewrite Z.div_1_r. reflexivity.
Qed.

(** They are the digits the code computes with [radixDigits]. *)
Lemma magnitude_radixDigits m :
  0 <= m -> magnitude m = radixDigits 256 (digitBound m) m.
Proof.
  pattern m. apply (well_founded_induction (Z.lt_wf 0)).
  clear m. intros m IH Hm.
  rewrite (magnitude_unfold m Hm), radixDigits_unfold by lia.
  destruct (m <? 256) eqn:E; [reflexivity |].
  apply Z.ltb_ge in E. rewrite IH; [reflexivity | |].
  - split; [apply Z.div_pos; lia | apply Z.div_lt_upper_bound; lia].
  - apply Z.div_pos; lia.
Qed.

(** [toBuffer] yields the big-endian magnitude bytes. *)
Lemma toBuffer_magnitude v : 0 <= v -> toBuffer v = magnitude v.
Proof.
  intros Hv. rewrite toBuffer_digits by assumption.
  revert Hv. pattern v. apply (well_founded_induction (Z.lt_wf 0)).
  clear v. intros v IH Hv.
  rewrite (magnitude_unfold v Hv), (hexDigits_unfold v Hv).
  destruct (v <? 16) eqn:E16.
  - apply Z.ltb_lt in E16.
    destruct (v <? 256) eqn:E256; [| apply Z.ltb_ge in E256; lia].
    reflexivity.
  - apply Z.ltb_ge in E16.
    assert (Hq : 0 <= v / 16) by (apply Z.div_pos; lia).
    rewrite (hexDigits_unfold (v / 16) Hq).
    destruct (v <? 256) eqn:E256.
    + apply Z.ltb_lt in E256.
      destruct (v / 16 <? 16) eqn:E;
        [| apply Z.ltb_ge in E;
           assert (v / 16 < 16) by (apply Z.div_lt_upper_bound; lia); lia].
      change (digitPairs (evenPad ([v / 16] ++ [v mod 16])))
        with [16 * (v / 16) + v mod 16].
      f_equal. pose proof (Z.div_mod v 16 ltac:(lia)). lia.
    + apply Z.ltb_ge in E256.
      destruct (v / 16 <? 16) eqn:E.
      { apply Z.ltb_lt in E.
        assert (16 <= v / 16) by (apply Z.div_le_lower_bound; lia). lia. }
      rewrite Z.div_div by lia. change (16 * 16) with 256.
      rewrite <- app_assoc. cbn [app].
      rewrite evenPad_app, digitPairs_app by apply evenPad_even.
      rewrite IH.
      * f_equal. f_equal.
        pose proof (Z.div_mod v 16 ltac:(lia)).
        pose proof (Z.div_mod (v / 16) 16 ltac:(lia)).
        pose proof (Z.mod_pos_bound v 16 ltac:(lia)).
        pose proof (Z.mod_pos_bound (v / 16) 16 ltac:(lia)).
        apply (Z.mod_unique_pos v 256 (v / 16 / 16)); lia.
      * split; [apply Z.div_pos; lia |].
        apply Z.div_lt_upper_bound; lia.
      * apply Z.div_pos; lia.
Qed.


Lemma magnitude_isBytes m : 0 <= m -> isBytes (magnitude m).
Proof.
  intros Hm. unfold magnitude. apply Forall_reverse.
  induction (seq 0 (byteLength m)) as [| i rest IH]; constructor;
    [apply Z.mod_pos_bound; lia | exact IH].
Qed.

Lemma magnitude_nonempty m : magnitude m <> [].
Proof.
  unfold magnitude, byteLength. cbn [seq map]. rewrite reverse_cons.
  intros Heq. apply app_eq_nil in Heq as [_ Heq]. discriminate.
Qed.

(** ** Bytes *)

(** A property of bytes that a computation over the 256 bytes checks. *)
Lemma byte_forall (f : Z -> bool) :
  forallb f (map Z.of_nat (seq 0 256)) = true ->
  forall b, 0 <= b < 256 -> f b = true.
Proof.
  intros Hall b Hb. rewrite forallb_forall in Hall. apply Hall.
  apply in_map_iff. exists (Z.to_nat b). split; [lia |].
  apply in_seq. lia.
Qed.

Lemma invert_byte b :
  0 <= b < 256 -> Z.land (Z.lxor b 255) 255 = invertByte b.
Proof.
  intros Hb. apply Z.eqb_eq.
  apply (byte_forall
           (fun b => Z.land (Z.lxor b 255) 255 =? invertByte b));
    [vm_compute; reflexivity | assumption].
Qed.

Lemma sign_byte b :
  0 <= b < 256 -> negb (Z.land b 128 =? 0) = Z.testbit b 7.
Proof.
  intros Hb. apply Bool.eqb_prop.
  apply (byte_forall
           (fun b => Bool.eqb (negb (Z.land b 128 =? 0)) (Z.testbit b 7)));
    [vm_compute; reflexivity | assumption].
Qed.

Lemma signBit_msbSet buffer :
  isBytes buffer ->
  bool_decide (signBit buffer ≠ 0) = msbSet buffer.
Proof.
  intros Hbytes. unfold signBit, msbSet.
  destruct buffer as [| b rest]; [reflexivity |].
  inversion Hbytes as [| ? ? Hb _]; subst.
  change (default 0 ((b :: rest) !! 0%nat)) with b.
  rewrite <- (sign_byte b Hb).
  destruct (Z.land b 128 =? 0) eqn:E.
  - apply Z.eqb_eq in E. rewrite E. reflexivity.
  - apply Z.eqb_neq in E. apply bool_decide_eq_true. exact E.
Qed.

Lemma signBit_clear_msbSet buffer :
  isBytes buffer ->
  bool_decide (signBit buffer = 0) = negb (msbSet buffer).
Proof.
  intros Hbytes. rewrite <- (signBit_msbSet buffer Hbytes).
  destruct (decide (signBit buffer = 0)) as [E | E].
  - rewrite bool_decide_eq_true_2, bool_decide_eq_false_2 by tauto.
    reflexivity.
  - rewrite bool_decide_eq_false_2, bool_decide_eq_true_2 by tauto.
    reflexivity.
Qed.

(** ** [toBigInt] *)

Lemma hexNumber_bytes bytes :
  isBytes bytes ->
  forall literal acc,
    hexNumber literal acc
      (flat_map (fun b => [hexDigit (b / 16); hexDigit (b mod 16)]) bytes)
    = Ok (foldl (fun acc b => 256 * acc + b) acc bytes).
Proof.
  induction 1 as [| b rest Hb _ IH]; intros literal acc; [reflexivity |].
  cbn [flat_map app hexNumber foldl].
  assert (0 <= b / 16 < 16).
  { split; [apply Z.div_pos; lia | apply Z.div_lt_upper_bound; lia]. }
  rewrite !hexValue_hexDigit by (try assumption; apply Z.mod_pos_bound; lia).
  rewrite IH. do 2 f_equal.
  pose proof (Z.div_mod b 16 ltac:(lia)). lia.
Qed.

Lemma toBigInt_bytes bytes :
  isBytes bytes -> bytes <> [] ->
  toBigInt bytes = Ok (bigEndianValue bytes).
Proof.
  intros Hbytes Hne. unfold toBigInt, BigInt_0x, Buffer_toString_hex.
  rewrite list_ascii_of_string_of_list_ascii.
  destruct bytes as [| b rest]; [contradiction |].
  cbn [flat_map app].
  change (hexDigit (b / 16) :: hexDigit (b mod 16)
            :: flat_map (fun b => [hexDigit (b / 16); hexDigit (b mod 16)])
                 rest)
    with (flat_map (fun b => [hexDigit (b / 16); hexDigit (b mod 16)])
            (b :: rest)).
  apply hexNumber_bytes. assumption.
Qed.

Lemma toBigInt_empty : is_ok (toBigInt []) = false.
Proof. reflexivity. Qed.

(** ** The loops *)

Lemma allBitsSet_loop_forallb post :
  forall pre,
    allBitsSet_loop (pre ++ post) (length pre) (length post)
    = forallb (Z.eqb 255) post.
Proof.
  induction post as [| b post IH]; intros pre; [reflexivity |].
  cbn [length allBitsSet_loop forallb].
  rewrite list_lookup_middle by reflexivity.
  replace (pre ++ b :: post) with ((pre ++ [b]) ++ post)
    by (rewrite <- app_assoc; reflexivity).
  replace (S (length pre)) with (length (pre ++ [b]))
    by (rewrite length_app; simpl; lia).
  rewrite IH.
  destruct (decide (b = 255)) as [-> | Hb].
  - rewrite bool_decide_eq_true_2 by reflexivity. reflexivity.
  - rewrite bool_decide_eq_false_2 by congruence.
    symmetry. apply andb_false_iff. left. apply Z.eqb_neq. congruence.
Qed.

Lemma allBitsSet_forallb buffer :
  allBitsSet buffer = forallb (Z.eqb 255) buffer.
Proof. apply (allBitsSet_loop_forallb buffer []). Qed.

Lemma invert_loop_map post :
  forall pre,
    invert_loop (pre ++ post) (length pre) (length post)
    = pre ++ map (fun b => Z.land (Z.lxor b 255) 255) post.
Proof.
  induction post as [| b post IH]; intros pre; [reflexivity |].
  cbn [length invert_loop map].
  rewrite list_lookup_middle by reflexivity.
  change (default 0 (Some b)) with b.
  rewrite insert_app_r_alt by lia.
  replace (length pre - length pre)%nat with 0%nat by lia.
  cbn [insert list_insert].
  replace (pre ++ Z.land (Z.lxor b 255) 255 :: post)
    with ((pre ++ [Z.land (Z.lxor b 255) 255]) ++ post)
    by (rewrite <- app_assoc; reflexivity).
  replace (S (length pre))
    with (length (pre ++ [Z.land (Z.lxor b 255) 255]))
    by (rewrite length_app; simpl; lia).
  rewrite IH, <- app_assoc. reflexivity.
Qed.

Lemma invert_loop_bytes buffer :
  isBytes buffer ->
  invert_loop buffer 0 (length buffer) = map invertByte buffer.
Proof.
  intros Hbytes.
  change (invert_loop buffer 0 (length buffer))
    with (invert_loop ([] ++ buffer) (length (@nil Z)) (length buffer)).
  rewrite (invert_loop_map buffer []). cbn [app].
  apply map_ext_in. intros b Hb. apply invert_byte.
  unfold isBytes in Hbytes. rewrite Forall_forall in Hbytes.
  apply Hbytes. apply list_elem_of_In. exact Hb.
Qed.

Lemma invertByte_isBytes bytes : isBytes (map invertByte bytes).
Proof.
  apply Forall_forall. intros b Hb. apply list_elem_of_In in Hb.
  apply in_map_iff in Hb as (b' & <- & _).
  unfold invertByte. apply Z.mod_pos_bound. lia.
Qed.


Lemma foldl_bytes_nonneg bytes :
  isBytes bytes ->
  forall acc, 0 <= acc -> 0 <= foldl (fun acc b => 256 * acc + b) acc bytes.
Proof.
  induction 1 as [| b rest Hb _ IH]; intros acc Hacc; [assumption |].
  cbn [foldl]. apply IH. lia.
Qed.

Lemma bigEndianValue_nonneg bytes : isBytes bytes -> 0 <= bigEndianValue bytes.
Proof. intros Hb. apply foldl_bytes_nonneg; [assumption | lia]. Qed.

(** ** The encoder against the specification's algorithm *)

Lemma bigIntToByteArray_of_nonnegative (n : Z) :
  0 <= n -> bigIntToByteArray n = Ok (encodeNonNegative n).
Proof.
  intros Hn. unfold bigIntToByteArray, encodeNonNegative.
  destruct (0 <=? n) eqn:E; [| apply Z.leb_gt in E; lia].
  rewrite toBuffer_magnitude by assumption.
  rewrite signBit_msbSet by (apply magnitude_isBytes; assumption).
  destruct (n =? 0) eqn:E0.
  - apply Z.eqb_eq in E0. subst n. reflexivity.
  - reflexivity.
Qed.

(** C3. [bigIntToByteArray(0)] is the single byte 0x00, and for [n > 0]
    the encoder returns the big-endian magnitude bytes of [n], with one
    0x00 byte prepended exactly when the most-significant bit of the
    first magnitude byte is set, reversed to little-endian order. The
    magnitude bytes are those [magnitude] gives by position, whatever
    the digit routine of the code computes. *)
Theorem bigIntToByteArray_nonnegative (n : Z) :
  0 <= n -> bigIntToByteArray n = Ok (encodeNonNegative n).
Proof. exact (bigIntToByteArray_of_nonnegative n). Qed.

Lemma bigIntToByteArray_nonnegative_witness :
  0 <= 128 /\ bigIntToByteArray 128 = Ok [128; 0].
Proof. split; [lia | apply (bigIntToByteArray_nonnegative 128); lia]. Defined.

Example encodeNonNegative_128 : encodeNonNegative 128 = [128; 0].
Proof. reflexivity. Qed.

Lemma bigIntToByteArray_of_negative (n : Z) :
  n < 0 -> bigIntToByteArray n = Ok (encodeNegative n).
Proof.
  intros Hn. unfold bigIntToByteArray, encodeNegative.
  destruct (0 <=? n) eqn:E; [apply Z.leb_le in E; lia |].
  replace (n * -1) with (Z.abs n) by lia.
  assert (Hm : 0 <= Z.abs n) by lia.
  rewrite toBuffer_magnitude by assumption.
  rewrite allBitsSet_forallb.
  change ([0] ++ magnitude (Z.abs n)) with (0 :: magnitude (Z.abs n)).
  set (padded := if forallb (Z.eqb 255) (magnitude (Z.abs n))
                 then 0 :: magnitude (Z.abs n) else magnitude (Z.abs n)).
  assert (Hpadded : isBytes padded).
  { subst padded. destruct (forallb _ _).
    - constructor; [lia | apply magnitude_isBytes; assumption].
    - apply magnitude_isBytes; assumption. }
  assert (Hne : padded <> []).
  { subst padded. destruct (forallb _ _); [discriminate |].
    apply magnitude_nonempty. }
  rewrite invert_loop_bytes by assumption.
  rewrite toBigInt_bytes;
    [| apply invertByte_isBytes
     | destruct padded; [contradiction | discriminate]].
  cbn [result_bind].
  set (v := bigEndianValue (map invertByte padded)).
  assert (Hv : 0 <= v + 1).
  { pose proof (bigEndianValue_nonneg _ (invertByte_isBytes padded)).
    subst v. lia. }
  rewrite toBuffer_magnitude by assumption.
  rewrite signBit_clear_msbSet by (apply magnitude_isBytes; assumption).
  destruct (msbSet (magnitude (v + 1))); reflexivity.
Qed.

(** C2. For [n < 0] the encoder returns what the specification's
    negative-encoding algorithm returns: the magnitude bytes of [|n|],
    padded with 0x00 when they are all 0xFF, inverted, read as a
    big-endian magnitude, incremented, re-encoded, prefixed with 0xFF
    when the most-significant bit is clear, and reversed. Both
    encodings of a magnitude are those [magnitude] gives by position,
    whatever the digit routine of the code computes. *)
Theorem bigIntToByteArray_negative (n : Z) :
  n < 0 -> bigIntToByteArray n = Ok (encodeNegative n).
Proof. exact (bigIntToByteArray_of_negative n). Qed.

Lemma bigIntToByteArray_negative_witness :
  -129 < 0 /\ bigIntToByteArray (-129) = Ok [127; 255].
Proof. split; [lia | apply (bigIntToByteArray_negative (-129)); lia]. Defined.

Example encodeNegative_129 : encodeNegative (-129) = [127; 255].
Proof. reflexivity. Qed.


(** ** The decoder over the store *)

Lemma byteArrayToBigInt_run (σ : gmap positive (list Z)) value bytes :
  σ !! value = Some bytes ->
  byteArrayToBigInt value σ =
    (if bool_decide (signBit (reverse bytes) = 0)
     then toBigInt (reverse bytes)
     else Throw (Error "Not Implemented"),
     <[fresh (dom σ) := reverse bytes]> σ).
Proof.
  intros Hvalue.
  unfold byteArrayToBigInt, mbind, M_bind, bind, Buffer_from.
  rewrite Hvalue. unfold Buffer_reverse.
  rewrite lookup_insert_eq. unfold Buffer_contents.
  rewrite lookup_insert_eq, insert_insert_eq.
  destruct (bool_decide (signBit (reverse bytes) = 0)); reflexivity.
Qed.

Lemma byteArrayToBigInt_dangling (σ : gmap positive (list Z)) value :
  σ !! value = None ->
  byteArrayToBigInt value σ = (Throw InvalidReference, σ).
Proof.
  intros Hvalue.
  unfold byteArrayToBigInt, mbind, M_bind, bind, Buffer_from.
  rewrite Hvalue. reflexivity.
Qed.

Lemma fresh_unallocated (σ : gmap positive (list Z)) :
  σ !! fresh (dom σ) = None.
Proof. apply not_elem_of_dom. apply is_fresh. Qed.

Lemma signBit_reverse bytes :
  signBit (reverse bytes) = Z.land (default 0 (last bytes)) 128.
Proof.
  unfold signBit. rewrite <- head_lookup, head_reverse. reflexivity.
Qed.

Lemma decode_run bytes :
  decode bytes =
    if bool_decide (signBit (reverse bytes) = 0)
    then toBigInt (reverse bytes)
    else Throw (Error "Not Implemented").
Proof.
  unfold decode.
  rewrite (byteArrayToBigInt_run _ 1%positive bytes)
    by apply lookup_singleton_eq.
  reflexivity.
Qed.


(** C4. On a non-empty byte array whose most-significant byte, the last
    one, has the sign bit 0x80 set, [byteArrayToBigInt] throws the error
    "Not Implemented"; whenever it returns a value, the array is not
    empty and the sign bit of its last byte is clear. *)
Theorem byteArrayToBigInt_sign_bit
    (σ : gmap positive (list Z)) (value : positive) (bytes : list Z) :
  σ !! value = Some bytes ->
  (forall top,
     last bytes = Some top -> Z.land top 128 <> 0 ->
     (byteArrayToBigInt value σ).1 = Throw (Error "Not Implemented")) /\
  (forall n,
     (byteArrayToBigInt value σ).1 = Ok n ->
     exists top, last bytes = Some top /\ Z.land top 128 = 0).
Proof.
  intros Hvalue. rewrite (byteArrayToBigInt_run σ value bytes Hvalue).
  cbn [fst]. rewrite signBit_reverse. split.
  - intros top Htop Hset. rewrite Htop. cbn [default].
    rewrite bool_decide_eq_false_2 by exact Hset. reflexivity.
  - intros n Hn. destruct (last bytes) as [top |] eqn:Htop.
    + exists top. split; [reflexivity |].
      cbn [default] in Hn.
      destruct (decide (Z.land top 128 = 0)) as [E | E]; [exact E |].
      rewrite bool_decide_eq_false_2 in Hn by exact E. discriminate.
    + apply last_None in Htop. subst bytes. discriminate.
Qed.

Lemma byteArrayToBigInt_sign_bit_witness :
  ({[ 1%positive := [255] ]} : gmap positive (list Z)) !! 1%positive
    = Some [255] /\
  (byteArrayToBigInt 1%positive {[ 1%positive := [255] ]}).1
    = Throw (Error "Not Implemented").
Proof.
  split; [reflexivity |].
  refine (proj1 (byteArrayToBigInt_sign_bit
                   {[ 1%positive := [255] ]} 1%positive [255] _)
            255 _ _).
  - reflexivity.
  - reflexivity.
  - discriminate.
Defined.

(** C10. [byteArrayToBigInt] does not mutate its argument: after the
    call, whether it returned or threw, the array holds what it held
    before, and so does every other buffer of the store; the buffer that
    is reversed is a fresh copy. *)
Theorem byteArrayToBigInt_preserves_argument
    (σ : gmap positive (list Z)) (value : positive) :
  (byteArrayToBigInt value σ).2 !! value = σ !! value /\
  σ ⊆ (byteArrayToBigInt value σ).2.
Proof.
  destruct (σ !! value) as [bytes |] eqn:Hvalue.
  - rewrite (byteArrayToBigInt_run σ value bytes Hvalue). cbn [snd].
    pose proof (fresh_unallocated σ) as Hfresh. split.
    + rewrite lookup_insert_ne; [exact Hvalue |].
      intros Heq. rewrite Heq in Hfresh. congruence.
    + apply insert_subseteq. exact Hfresh.
  - rewrite (byteArrayToBigInt_dangling σ value Hvalue). cbn [snd].
    split; [exact Hvalue | reflexivity].
Qed.

(** ** The tables of the test-suite *)

(** The round trip of the specification fails on the table of negative
    values: [-1] encodes to [FF], which the decoder refuses. *)
Lemma roundtrip_fails_on_negative_table :
  ~ (forall t,
       t ∈ positiveValueTests ++ negativeValueTests ->
       bigIntToByteArray t.1 ≫= decode = Ok t.1).
Proof.
  intros Hall.
  specialize (Hall (-1, "FF")).
  assert (Hin : (-1, "FF") ∈ positiveValueTests ++ negativeValueTests).
  { apply elem_of_app. right. unfold negativeValueTests. left. }
  specialize (Hall Hin). vm_compute in Hall. discriminate.
Qed.

(** The test-suite passes: [testConvertInt] on both tables and
    [testConvertBuffer] on the table of the non-negative values, the
    only one it is run on. *)
Example test_suite_passes :
  forallb testConvertInt (positiveValueTests ++ negativeValueTests) = true /\
  forallb testConvertBuffer positiveValueTests = true.
Proof. split; vm_compute; reflexivity. Qed.

(** C1, as the code has it. For every entry of the two tables the
    encoder returns the expected bytes; decoding the encoding of an
    entry gives the entry back for the non-negative entries, and throws
    "Not Implemented" for the negative ones. *)
Theorem tables_encode_and_nonnegative_roundtrip :
  Forall (fun t => bigIntToByteArray t.1 = Ok (Buffer_from_hex t.2))
    (positiveValueTests ++ negativeValueTests) /\
  Forall (fun t => 0 <= t.1 /\ bigIntToByteArray t.1 ≫= decode = Ok t.1)
    positiveValueTests /\
  Forall (fun t =>
            t.1 < 0 /\
            bigIntToByteArray t.1 ≫= decode
              = Throw (Error "Not Implemented"))
    negativeValueTests.
Proof.
  split; [| split].
  - apply (bool_decide_eq_true_1 _). vm_compute. reflexivity.
  - apply (bool_decide_eq_true_1 _). vm_compute. reflexivity.
  - apply (bool_decide_eq_true_1 _). vm_compute. reflexivity.
Qed.


(** ** The round trip of the non-negative integers *)

Lemma foldl_bytes_shift bytes :
  forall acc,
    foldl (fun acc b => 256 * acc + b) acc bytes
    = acc * 256 ^ Z.of_nat (length bytes) + bigEndianValue bytes.
Proof.
  unfold bigEndianValue.
  induction bytes as [| b rest IH]; intros acc.
  - cbn [foldl length]. change (Z.of_nat 0) with 0. lia.
  - cbn [foldl length]. rewrite (IH (256 * acc + b)), (IH (256 * 0 + b)).
    rewrite Nat2Z.inj_succ, Z.pow_succ_r by lia. lia.
Qed.

Lemma bigEndianValue_cons b rest :
  bigEndianValue (b :: rest)
  = b * 256 ^ Z.of_nat (length rest) + bigEndianValue rest.
Proof.
  unfold bigEndianValue at 1. cbn [foldl].
  rewrite foldl_bytes_shift. lia.
Qed.

Lemma bigEndianValue_snoc bytes b :
  bigEndianValue (bytes ++ [b]) = 256 * bigEndianValue bytes + b.
Proof. unfold bigEndianValue. rewrite foldl_app. reflexivity. Qed.

Lemma bigEndianValue_magnitude m : 0 <= m -> bigEndianValue (magnitude m) = m.
Proof.
  pattern m. apply (well_founded_induction (Z.lt_wf 0)).
  clear m. intros m IH Hm.
  rewrite (magnitude_unfold m Hm). destruct (m <? 256) eqn:E.
  - unfold bigEndianValue. cbn [foldl]. lia.
  - apply Z.ltb_ge in E. rewrite bigEndianValue_snoc, IH.
    + pose proof (Z.div_mod m 256 ltac:(lia)). lia.
    + split; [apply Z.div_pos; lia | apply Z.div_lt_upper_bound; lia].
    + apply Z.div_pos; lia.
Qed.

(** The bytes before the reversal in [encodeNonNegative]: the sign bit
    is clear and the value is [n]. *)
Lemma nonnegative_bytes n :
  0 <= n ->
  let bytes :=
    if msbSet (magnitude n) then 0 :: magnitude n else magnitude n in
  isBytes bytes /\ bytes <> [] /\ msbSet bytes = false /\
  bigEndianValue bytes = n.
Proof.
  intros Hn. cbv zeta.
  pose proof (magnitude_isBytes n Hn) as Hbytes.
  pose proof (magnitude_nonempty n) as Hne.
  pose proof (bigEndianValue_magnitude n Hn) as Hvalue.
  destruct (msbSet (magnitude n)) eqn:E.
  - repeat split; try discriminate.
    + constructor; [lia | assumption].
    + rewrite bigEndianValue_cons, Hvalue. lia.
  - repeat split; assumption.
Qed.

Lemma encodeNonNegative_reverse n :
  0 <= n ->
  encodeNonNegative n
  = reverse (if msbSet (magnitude n) then 0 :: magnitude n
             else magnitude n).
Proof.
  intros Hn. unfold encodeNonNegative. destruct (n =? 0) eqn:E.
  - apply Z.eqb_eq in E. subst n. reflexivity.
  - reflexivity.
Qed.

(** X1. Decoding the encoding of a non-negative integer gives it back. *)
Theorem nonnegative_roundtrip (n : Z) :
  0 <= n -> bigIntToByteArray n ≫= decode = Ok n.
Proof.
  intros Hn. rewrite (bigIntToByteArray_of_nonnegative n Hn).
  change (Ok (encodeNonNegative n) ≫= decode)
    with (decode (encodeNonNegative n)).
  rewrite decode_run, (encodeNonNegative_reverse n Hn), reverse_involutive.
  destruct (nonnegative_bytes n Hn) as (Hbytes & Hne & Hmsb & Hvalue).
  rewrite (signBit_clear_msbSet _ Hbytes), Hmsb. cbn [negb].
  rewrite (toBigInt_bytes _ Hbytes Hne), Hvalue. reflexivity.
Qed.

Lemma nonnegative_roundtrip_witness :
  0 <= 32768 /\ bigIntToByteArray 32768 ≫= decode = Ok 32768.
Proof. split; [lia | apply (nonnegative_roundtrip 32768); lia]. Defined.


(** ** Two's complement *)

Lemma pow256_pos k : 0 < 256 ^ Z.of_nat k.
Proof. apply Z.pow_pos_nonneg; lia. Qed.

Lemma pow256_S k : 256 ^ Z.of_nat (S k) = 256 * 256 ^ Z.of_nat k.
Proof. rewrite Nat2Z.inj_succ, Z.pow_succ_r by lia. reflexivity. Qed.

Lemma pow256_le j k :
  (j <= k)%nat -> 256 ^ Z.of_nat j <= 256 ^ Z.of_nat k.
Proof. intros Hjk. apply Z.pow_le_mono_r; lia. Qed.

Lemma pow256_lt j k :
  (j < k)%nat -> 256 * 256 ^ Z.of_nat j <= 256 ^ Z.of_nat k.
Proof.
  intros Hjk. rewrite <- pow256_S. apply pow256_le. lia.
Qed.

Lemma bigEndianValue_bound bytes :
  isBytes bytes -> 0 <= bigEndianValue bytes < 256 ^ Z.of_nat (length bytes).
Proof.
  induction 1 as [| b rest Hb _ IH].
  - unfold bigEndianValue. cbn. lia.
  - rewrite bigEndianValue_cons. cbn [length]. rewrite pow256_S.
    pose proof (pow256_pos (length rest)). nia.
Qed.

Lemma unsignedValue_snoc bytes b :
  unsignedValue (bytes ++ [b])
  = unsignedValue bytes + 256 ^ Z.of_nat (length bytes) * b.
Proof.
  induction bytes as [| b' rest IH].
  - cbn. lia.
  - cbn [app unsignedValue foldr length].
    fold (unsignedValue (rest ++ [b])). fold (unsignedValue rest).
    rewrite IH, pow256_S. lia.
Qed.

Lemma unsignedValue_reverse bytes :
  unsignedValue (reverse bytes) = bigEndianValue bytes.
Proof.
  induction bytes as [| b rest IH]; [reflexivity |].
  rewrite reverse_cons, unsignedValue_snoc, IH, bigEndianValue_cons.
  rewrite length_reverse. lia.
Qed.

Lemma signSet_reverse bytes : signSet (reverse bytes) = msbSet bytes.
Proof.
  unfold signSet, msbSet. rewrite last_reverse.
  destruct bytes; reflexivity.
Qed.

Lemma twosComplement_reverse bytes :
  twosComplement (reverse bytes)
  = if msbSet bytes
    then bigEndianValue bytes - 256 ^ Z.of_nat (length bytes)
    else bigEndianValue bytes.
Proof.
  unfold twosComplement.
  rewrite signSet_reverse, unsignedValue_reverse, length_reverse.
  reflexivity.
Qed.

Lemma testbit_7 b : 0 <= b < 256 -> Z.testbit b 7 = (128 <=? b).
Proof.
  intros Hb. apply Bool.eqb_prop.
  apply (byte_forall (fun b => Bool.eqb (Z.testbit b 7) (128 <=? b)));
    [vm_compute; reflexivity | assumption].
Qed.

(** What a string of [S k] bytes, given most significant byte first, can
    denote. *)
Lemma twosComplement_reverse_range h rest :
  isBytes (h :: rest) ->
  - (128 * 256 ^ Z.of_nat (length rest))
    <= twosComplement (reverse (h :: rest))
    < 128 * 256 ^ Z.of_nat (length rest).
Proof.
  intros Hbytes. inversion Hbytes as [| ? ? Hh Hrest]; subst.
  rewrite twosComplement_reverse, bigEndianValue_cons.
  cbn [msbSet length]. rewrite (testbit_7 h Hh), pow256_S.
  pose proof (bigEndianValue_bound rest Hrest).
  pose proof (pow256_pos (length rest)).
  destruct (128 <=? h) eqn:E;
    [apply Z.leb_le in E | apply Z.leb_gt in E]; nia.
Qed.

Lemma twosComplement_range bytes k :
  isBytes bytes -> length bytes = S k ->
  - (128 * 256 ^ Z.of_nat k) <= twosComplement bytes < 128 * 256 ^ Z.of_nat k.
Proof.
  intros Hbytes Hlen.
  rewrite <- (reverse_involutive bytes).
  destruct (reverse bytes) as [| h rest] eqn:Hrev.
  - apply (f_equal length) in Hrev. rewrite length_reverse in Hrev.
    cbn in Hrev. lia.
  - assert (length rest = k) as <-.
    { apply (f_equal length) in Hrev. rewrite length_reverse in Hrev.
      cbn in Hrev. lia. }
    apply twosComplement_reverse_range.
    rewrite <- Hrev. unfold isBytes. apply Forall_reverse. exact Hbytes.
Qed.

(** An encoding of [n] in [S k] bytes is a shortest one when [k] bytes
    cannot denote [n]. *)
Lemma minimalEncoding_intro n bytes k :
  isBytes bytes -> length bytes = S k -> twosComplement bytes = n ->
  (k = 0%nat \/
   128 * 256 ^ Z.of_nat (k - 1) <= n \/
   n < - (128 * 256 ^ Z.of_nat (k - 1))) ->
  minimalEncoding n bytes.
Proof.
  intros Hbytes Hlen Hn Hk. unfold minimalEncoding.
  split; [exact Hbytes |]. split; [intros ->; discriminate |].
  split; [exact Hn |].
  intros other Hother Hne Hval.
  destruct other as [| b other']; [contradiction |].
  destruct (Nat.le_gt_cases (length bytes) (length (b :: other')))
    as [Hle | Hgt]; [exact Hle | exfalso].
  pose proof (twosComplement_range (b :: other') (length other')
                Hother eq_refl) as Hrange.
  rewrite Hval in Hrange. cbn [length] in Hgt.
  assert (Hpow : 256 ^ Z.of_nat (length other') <= 256 ^ Z.of_nat (k - 1))
    by (apply pow256_le; lia).
  destruct Hk as [-> | [Hk | Hk]]; lia.
Qed.

(** A shortest encoding has no removable leading byte. *)
Lemma minimalEncoding_not_removable n bytes :
  minimalEncoding n bytes -> ~ removableLeadingByte bytes.
Proof.
  intros (Hbytes & _ & Hvalue & Hmin) [Hlen Hsame].
  assert (Hshort : length (removelast bytes) = pred (length bytes)).
  { rewrite removelast_firstn_len. apply length_take_le. lia. }
  specialize (Hmin (removelast bytes)).
  rewrite Hshort in Hmin.
  assert (length bytes <= pred (length bytes))%nat; [| lia].
  apply Hmin.
  - rewrite removelast_firstn_len. apply Forall_take. exact Hbytes.
  - intros Hnil. rewrite Hnil in Hshort. cbn in Hshort. lia.
  - rewrite Hsame. exact Hvalue.
Qed.


(** ** The shape of the magnitude bytes *)

Lemma magnitude_head m :
  0 < m -> exists h rest, magnitude m = h :: rest /\ 0 < h < 256.
Proof.
  pattern m. apply (well_founded_induction (Z.lt_wf 0)).
  clear m. intros m IH Hm.
  rewrite (magnitude_unfold m ltac:(lia)). destruct (m <? 256) eqn:E.
  - apply Z.ltb_lt in E. exists m, []. split; [reflexivity | lia].
  - apply Z.ltb_ge in E.
    assert (Hq : 0 < m / 256) by (apply Z.div_str_pos; lia).
    destruct (IH (m / 256)) as (h & rest & Heq & Hh).
    + split; [lia | apply Z.div_lt_upper_bound; lia].
    + exact Hq.
    + exists h, (rest ++ [m mod 256]). rewrite Heq. split; [reflexivity | exact Hh].
Qed.

Lemma magnitude_bounds m h rest :
  0 <= m -> magnitude m = h :: rest ->
  0 <= h < 256 /\ isBytes rest /\
  m = h * 256 ^ Z.of_nat (length rest) + bigEndianValue rest /\
  0 <= bigEndianValue rest < 256 ^ Z.of_nat (length rest).
Proof.
  intros Hm Heq.
  pose proof (magnitude_isBytes m Hm) as Hbytes. rewrite Heq in Hbytes.
  inversion Hbytes as [| ? ? Hh Hrest]; subst.
  pose proof (bigEndianValue_magnitude m Hm) as Hvalue.
  rewrite Heq, bigEndianValue_cons in Hvalue.
  repeat split; try assumption; try lia.
  all: apply (bigEndianValue_bound rest Hrest).
Qed.

Lemma magnitude_shape x h j :
  0 < h < 256 ->
  h * 256 ^ Z.of_nat j <= x < (h + 1) * 256 ^ Z.of_nat j ->
  exists rest, magnitude x = h :: rest /\ length rest = j.
Proof.
  intros Hh Hx. pose proof (pow256_pos j) as Hpj.
  assert (Hpos : 0 < x) by nia.
  destruct (magnitude_head x Hpos) as (h0 & rest0 & Heq & Hh0).
  destruct (magnitude_bounds x h0 rest0 ltac:(lia) Heq)
    as (_ & _ & Hval & Hq).
  pose proof (pow256_pos (length rest0)) as Hp0.
  assert (Hlen : length rest0 = j).
  { destruct (Nat.lt_trichotomy (length rest0) j) as [Hlt | [Heqj | Hgt]];
      [exfalso | exact Heqj | exfalso].
    - pose proof (pow256_lt _ _ Hlt). nia.
    - pose proof (pow256_lt _ _ Hgt). nia. }
  exists rest0. split; [| exact Hlen].
  rewrite Heq. f_equal. rewrite Hlen in *. nia.
Qed.

(** ** Minimality of the encoding of the non-negative integers *)

Theorem encodeNonNegative_minimal (n : Z) :
  0 <= n -> minimalEncoding n (encodeNonNegative n).
Proof.
  intros Hn. rewrite (encodeNonNegative_reverse n Hn).
  destruct (nonnegative_bytes n Hn) as (Hbytes & Hne & Hmsb & Hvalue).
  cbv zeta in *.
  set (bytes := if msbSet (magnitude n) then 0 :: magnitude n
                else magnitude n) in *.
  assert (Htwos : twosComplement (reverse bytes) = n)
    by (rewrite twosComplement_reverse, Hmsb; exact Hvalue).
  assert (Hrev : isBytes (reverse bytes))
    by (apply Forall_reverse; exact Hbytes).
  destruct (Z.eq_dec n 0) as [-> | Hnz].
  { apply (minimalEncoding_intro 0 _ 0%nat); try assumption.
    - reflexivity.
    - left. reflexivity. }
  destruct (magnitude_head n ltac:(lia)) as (h & rest & Heq & Hh).
  destruct (magnitude_bounds n h rest Hn Heq) as (_ & Hrest & Hval & Hq).
  pose proof (pow256_pos (length rest)) as Hp.
  subst bytes. rewrite Heq in *. cbn [msbSet] in *.
  rewrite (testbit_7 h ltac:(lia)) in *.
  destruct (128 <=? h) eqn:E; [apply Z.leb_le in E | apply Z.leb_gt in E].
  - apply (minimalEncoding_intro n _ (S (length rest))); try assumption.
    + rewrite length_reverse. reflexivity.
    + right. left. replace (S (length rest) - 1)%nat with (length rest) by lia.
      nia.
  - apply (minimalEncoding_intro n _ (length rest)); try assumption.
    + rewrite length_reverse. reflexivity.
    + destruct rest as [| r rest']; [left; reflexivity |].
      right. left. cbn [length] in *.
      replace (S (length rest') - 1)%nat with (length rest') by lia.
      rewrite pow256_S in *. pose proof (pow256_pos (length rest')). nia.
Qed.

Lemma encodeNonNegative_minimal_witness :
  0 <= 255 /\ minimalEncoding 255 (encodeNonNegative 255).
Proof. split; [lia | apply (encodeNonNegative_minimal 255); lia]. Defined.


(** ** The encoding of the negative integers *)

Lemma invertByte_eq b : 0 <= b < 256 -> invertByte b = 255 - b.
Proof.
  intros Hb. apply Z.eqb_eq.
  apply (byte_forall (fun b => invertByte b =? 255 - b));
    [vm_compute; reflexivity | assumption].
Qed.

Lemma bigEndianValue_invert bytes :
  isBytes bytes ->
  bigEndianValue (map invertByte bytes)
  = 256 ^ Z.of_nat (length bytes) - 1 - bigEndianValue bytes.
Proof.
  induction 1 as [| b rest Hb _ IH].
  - reflexivity.
  - cbn [map length]. rewrite !bigEndianValue_cons, IH, length_map.
    rewrite (invertByte_eq b Hb), pow256_S. lia.
Qed.

Lemma all_ff_value bytes :
  forallb (Z.eqb 255) bytes = true ->
  bigEndianValue bytes = 256 ^ Z.of_nat (length bytes) - 1.
Proof.
  induction bytes as [| b rest IH]; [reflexivity |].
  cbn [forallb length]. intros Hall.
  apply andb_true_iff in Hall as [Hb Hrest]. apply Z.eqb_eq in Hb.
  rewrite bigEndianValue_cons, (IH Hrest), pow256_S. lia.
Qed.

Lemma value_all_ff bytes :
  isBytes bytes ->
  bigEndianValue bytes = 256 ^ Z.of_nat (length bytes) - 1 ->
  forallb (Z.eqb 255) bytes = true.
Proof.
  induction 1 as [| b rest Hb Hrest IH]; [reflexivity |].
  cbn [forallb length]. rewrite bigEndianValue_cons, pow256_S.
  intros Hvalue.
  pose proof (bigEndianValue_bound rest Hrest) as Hbound.
  pose proof (pow256_pos (length rest)) as Hp.
  assert (b = 255) as -> by nia.
  apply andb_true_iff. split; [reflexivity |]. apply IH. lia.
Qed.

(** The bytes [encodeNegative] ends with, from the magnitude [r] of the
    incremented inverted value [x]: they denote [x - 256 ^ length r]. *)
Lemma signed_bytes x :
  0 < x ->
  let r := magnitude x in
  let bytes := reverse (if msbSet r then r else 255 :: r) in
  isBytes bytes /\
  twosComplement bytes = x - 256 ^ Z.of_nat (length r) /\
  length bytes = (if msbSet r then length r else S (length r)).
Proof.
  intros Hx. cbv zeta.
  pose proof (magnitude_isBytes x ltac:(lia)) as Hr.
  pose proof (bigEndianValue_magnitude x ltac:(lia)) as Hvalue.
  destruct (msbSet (magnitude x)) eqn:E.
  - split; [apply Forall_reverse; exact Hr |].
    rewrite twosComplement_reverse, E, Hvalue, length_reverse.
    split; reflexivity.
  - split; [apply Forall_reverse; constructor; [lia | exact Hr] |].
    rewrite twosComplement_reverse, bigEndianValue_cons, Hvalue.
    rewrite length_reverse. cbn [msbSet length].
    change (Z.testbit 255 7) with true. cbv iota.
    rewrite pow256_S. split; [lia | reflexivity].
Qed.

(** [encodeNegative] in terms of the value it re-encodes. *)
Lemma encodeNegative_value n :
  n < 0 ->
  let mag := magnitude (- n) in
  let padded := if forallb (Z.eqb 255) mag then 0 :: mag else mag in
  let x := 256 ^ Z.of_nat (length padded) + n in
  0 < x /\
  encodeNegative n
  = reverse (if msbSet (magnitude x) then magnitude x
             else 255 :: magnitude x).
Proof.
  intros Hn. cbv zeta. unfold encodeNegative.
  replace (Z.abs n) with (- n) by lia.
  set (mag := magnitude (- n)).
  set (padded := if forallb (Z.eqb 255) mag then 0 :: mag else mag).
  assert (Hmag : isBytes mag) by (apply magnitude_isBytes; lia).
  assert (Hvalue : bigEndianValue mag = - n)
    by (apply bigEndianValue_magnitude; lia).
  assert (Hpadded : isBytes padded /\ bigEndianValue padded = - n).
  { subst padded. destruct (forallb (Z.eqb 255) mag).
    - split; [constructor; [lia | exact Hmag] |].
      rewrite bigEndianValue_cons. lia.
    - split; assumption. }
  destruct Hpadded as [Hbytes Hpv].
  rewrite (bigEndianValue_invert padded Hbytes), Hpv.
  replace (256 ^ Z.of_nat (length padded) - 1 - - n + 1)
    with (256 ^ Z.of_nat (length padded) + n) by lia.
  split; [| reflexivity].
  pose proof (bigEndianValue_bound padded Hbytes). lia.
Qed.


(** Where the encoder is right. For [n < 0] whose magnitude [- n], of
    [k] bytes, is at most [255 * 256 ^ (k - 1)] (the first byte is not
    0xFF, or only zero bytes follow it) or is [256 ^ k - 1] (all bytes
    are 0xFF), the encoding is a shortest two's-complement encoding of
    [n]. *)
Theorem encodeNegative_minimal (n : Z) :
  n < 0 ->
  - n <= 255 * 256 ^ Z.of_nat (length (magnitude (- n)) - 1) \/
  - n = 256 ^ Z.of_nat (length (magnitude (- n))) - 1 ->
  minimalEncoding n (encodeNegative n).
Proof.
  intros Hn Hcond.
  destruct (encodeNegative_value n Hn) as [Hx Heq]. cbv zeta in Hx, Heq.
  rewrite Heq. clear Heq.
  destruct (magnitude_head (- n) ltac:(lia)) as (h & rest & Hmag & Hh).
  destruct (magnitude_bounds (- n) h rest ltac:(lia) Hmag)
    as (_ & Hrest & Hval & Hq).
  assert (Hbytes : isBytes (magnitude (- n)))
    by (apply magnitude_isBytes; lia).
  assert (Hvalue : bigEndianValue (magnitude (- n)) = - n)
    by (apply bigEndianValue_magnitude; lia).
  pose proof (pow256_pos (length rest)) as Hp.
  rewrite Hmag in Hcond, Hx, Hbytes, Hvalue |- *. cbn [length] in Hcond.
  replace (S (length rest) - 1)%nat with (length rest) in Hcond by lia.
  rewrite pow256_S in Hcond.
  destruct (forallb (Z.eqb 255) (h :: rest)) eqn:Hall.
  - (* all bytes 0xFF: one padding byte *)
    pose proof (all_ff_value _ Hall) as Hff.
    rewrite Hvalue in Hff. cbn [length] in Hff, Hx |- *.
    repeat rewrite pow256_S in Hff. repeat rewrite pow256_S in Hx.
    repeat rewrite pow256_S.
    set (x := 256 * (256 * 256 ^ Z.of_nat (length rest)) + n) in *.
    destruct (magnitude_shape x 255 (S (length rest))) as (rest' & Hr & Hlen);
      [lia | rewrite pow256_S; subst x; lia |].
    destruct (signed_bytes x Hx) as (Hout & Htwos & Hlength).
    cbv zeta in Hout, Htwos, Hlength.
    rewrite Hr in Hout, Htwos, Hlength |- *. cbn [msbSet] in *.
    change (Z.testbit 255 7) with true in *. cbv iota in *.
    cbn [length] in Htwos, Hlength. rewrite Hlen in Htwos, Hlength.
    apply (minimalEncoding_intro n _ (S (length rest))); try assumption.
    + rewrite Htwos, !pow256_S. subst x. lia.
    + right. right.
      replace (S (length rest) - 1)%nat with (length rest) by lia. lia.
  - (* no padding *)
    assert (Hle : - n <= 255 * 256 ^ Z.of_nat (length rest)).
    { destruct Hcond as [Hle | Hff]; [exact Hle |].
      rewrite (value_all_ff (h :: rest) Hbytes) in Hall; [discriminate |].
      cbn [length]. rewrite pow256_S, Hvalue. exact Hff. }
    cbn [length] in Hx |- *. rewrite pow256_S in Hx |- *.
    set (P := 256 ^ Z.of_nat (length rest)) in *.
    set (x := 256 * P + n) in *.
    assert (Hdiv : x = P * (x / P) + x mod P) by (apply Z.div_mod; lia).
    assert (Hmod : 0 <= x mod P < P) by (apply Z.mod_pos_bound; lia).
    assert (Hh' : 0 < x / P < 256).
    { split.
      - apply Z.div_str_pos. subst x. lia.
      - apply Z.div_lt_upper_bound; subst x; lia. }
    destruct (magnitude_shape x (x / P) (length rest)) as (rest' & Hr & Hlen);
      [exact Hh' | fold P; nia |].
    destruct (signed_bytes x Hx) as (Hout & Htwos & Hlength).
    cbv zeta in Hout, Htwos, Hlength.
    rewrite Hr in Hout, Htwos, Hlength |- *. cbn [msbSet] in *.
    rewrite (testbit_7 (x / P) ltac:(lia)) in *.
    cbn [length] in Htwos, Hlength. rewrite Hlen in Htwos, Hlength.
    rewrite pow256_S in Htwos. fold P in Htwos.
    assert (Hn' : twosComplement
                    (reverse (if 128 <=? x / P then x / P :: rest'
                              else 255 :: x / P :: rest')) = n)
      by (rewrite Htwos; subst x; lia).
    destruct (128 <=? x / P) eqn:E;
      [apply Z.leb_le in E | apply Z.leb_gt in E].
    + apply (minimalEncoding_intro n _ (length rest));
        [exact Hout | rewrite length_reverse; cbn [length]; lia
        | exact Hn' |].
      destruct rest as [| r0 rest0]; [left; reflexivity |].
      right. right. cbn [length] in *.
      replace (S (length rest0) - 1)%nat with (length rest0) by lia.
      subst P. rewrite pow256_S in *.
      pose proof (pow256_pos (length rest0)). nia.
    + apply (minimalEncoding_intro n _ (S (length rest)));
        [exact Hout | rewrite length_reverse; cbn [length]; lia
        | exact Hn' |].
      right. right.
      replace (S (length rest) - 1)%nat with (length rest) by lia.
      fold P. nia.
Qed.

Lemma encodeNegative_minimal_witness :
  -129 < 0 /\
  (- -129 <= 255 * 256 ^ Z.of_nat (length (magnitude (- -129)) - 1) \/
   - -129 = 256 ^ Z.of_nat (length (magnitude (- -129))) - 1) /\
  minimalEncoding (-129) (encodeNegative (-129)).
Proof.
  assert (Hcond :
    - -129 <= 255 * 256 ^ Z.of_nat (length (magnitude (- -129)) - 1) \/
    - -129 = 256 ^ Z.of_nat (length (magnitude (- -129))) - 1)
    by (left; vm_compute; discriminate).
  split; [lia |]. split; [exact Hcond |].
  apply (encodeNegative_minimal (-129)); [lia | exact Hcond].
Defined.


Lemma magnitude_length_le x j :
  0 < x < 256 ^ Z.of_nat j -> (length (magnitude x) <= j)%nat.
Proof.
  intros Hx.
  destruct (magnitude_head x ltac:(lia)) as (h & rest & Hmag & Hh).
  destruct (magnitude_bounds x h rest ltac:(lia) Hmag) as (_ & _ & Hval & Hq).
  rewrite Hmag. cbn [length].
  destruct (Nat.le_gt_cases (S (length rest)) j) as [Hle | Hgt];
    [exact Hle | exfalso].
  assert (Hpow : 256 ^ Z.of_nat j <= 256 ^ Z.of_nat (length rest))
    by (apply pow256_le; lia).
  nia.
Qed.

(** Where the encoder is wrong. For [n < 0] whose magnitude [- n], of
    [k] bytes, lies strictly between [255 * 256 ^ (k - 1)] and
    [256 ^ k - 1] (the first byte is 0xFF, a later byte is not zero and
    a byte is not 0xFF), the bytes returned do not denote [n]. *)
Theorem encodeNegative_wrong (n : Z) :
  n < 0 ->
  255 * 256 ^ Z.of_nat (length (magnitude (- n)) - 1) < - n
    < 256 ^ Z.of_nat (length (magnitude (- n))) - 1 ->
  twosComplement (encodeNegative n) <> n.
Proof.
  intros Hn Hcond.
  destruct (encodeNegative_value n Hn) as [Hx Heq]. cbv zeta in Hx, Heq.
  rewrite Heq. clear Heq.
  destruct (magnitude_head (- n) ltac:(lia)) as (h & rest & Hmag & Hh).
  pose proof (pow256_pos (length rest)) as Hp.
  rewrite Hmag in Hcond, Hx |- *. cbn [length] in Hcond.
  replace (S (length rest) - 1)%nat with (length rest) in Hcond by lia.
  rewrite pow256_S in Hcond.
  destruct (forallb (Z.eqb 255) (h :: rest)) eqn:Hall.
  { pose proof (all_ff_value _ Hall) as Hff.
    rewrite <- Hmag, bigEndianValue_magnitude in Hff by lia.
    rewrite Hmag in Hff. cbn [length] in Hff. rewrite pow256_S in Hff. lia. }
  cbn [length] in Hx |- *. rewrite pow256_S in Hx |- *.
  set (P := 256 ^ Z.of_nat (length rest)) in *.
  set (x := 256 * P + n) in *.
  destruct (signed_bytes x Hx) as (_ & Htwos & _). cbv zeta in Htwos.
  rewrite Htwos.
  assert (Hlen : (length (magnitude x) <= length rest)%nat).
  { apply magnitude_length_le. fold P. subst x. lia. }
  assert (Hpow : 256 ^ Z.of_nat (length (magnitude x)) <= P)
    by (apply pow256_le; exact Hlen).
  subst x. lia.
Qed.

Lemma encodeNegative_wrong_witness :
  -65281 < 0 /\
  255 * 256 ^ Z.of_nat (length (magnitude (- -65281)) - 1) < - -65281
    < 256 ^ Z.of_nat (length (magnitude (- -65281))) - 1 /\
  twosComplement (encodeNegative (-65281)) <> -65281.
Proof.
  assert (Hcond :
    255 * 256 ^ Z.of_nat (length (magnitude (- -65281)) - 1) < - -65281
      < 256 ^ Z.of_nat (length (magnitude (- -65281))) - 1)
    by (split; vm_compute; reflexivity).
  split; [lia |]. split; [exact Hcond |].
  apply (encodeNegative_wrong (-65281)); [lia | exact Hcond].
Defined.

(** X5. The encoder itself: a shortest encoding for every non-negative
    integer and for the negative integers of [encodeNegative_minimal]. *)
Theorem bigIntToByteArray_minimal (n : Z) :
  0 <= n \/
  - n <= 255 * 256 ^ Z.of_nat (length (magnitude (- n)) - 1) \/
  - n = 256 ^ Z.of_nat (length (magnitude (- n))) - 1 ->
  exists bytes, bigIntToByteArray n = Ok bytes /\ minimalEncoding n bytes.
Proof.
  intros Hcond. destruct (Z.le_gt_cases 0 n) as [Hn | Hn].
  - exists (encodeNonNegative n).
    split; [apply bigIntToByteArray_of_nonnegative; exact Hn |].
    apply encodeNonNegative_minimal. exact Hn.
  - exists (encodeNegative n).
    split; [apply bigIntToByteArray_of_negative; lia |].
    apply encodeNegative_minimal; [lia |].
    destruct Hcond as [Hcond | Hcond]; [lia | exact Hcond].
Qed.

Lemma bigIntToByteArray_minimal_witness :
  (0 <= -128 \/
   - -128 <= 255 * 256 ^ Z.of_nat (length (magnitude (- -128)) - 1) \/
   - -128 = 256 ^ Z.of_nat (length (magnitude (- -128))) - 1) /\
  exists bytes,
    bigIntToByteArray (-128) = Ok bytes /\ minimalEncoding (-128) bytes.
Proof.
  assert (Hcond :
    0 <= -128 \/
    - -128 <= 255 * 256 ^ Z.of_nat (length (magnitude (- -128)) - 1) \/
    - -128 = 256 ^ Z.of_nat (length (magnitude (- -128))) - 1)
    by (right; left; vm_compute; discriminate).
  split; [exact Hcond |].
  exact (bigIntToByteArray_minimal (-128) Hcond).
Defined.

(** ** Minimality *)

(** C5 at [-16711808 = -0xFF0080]. The encoder returns [80 FF], whose
    leading byte is removable: [80] denotes the same integer, [-128],
    which is not the integer encoded. The two's-complement encoding of
    the integer is [80 FF 00 FF]. Inverting the magnitude [FF 00 80]
    gives [00 FF 7F]; re-encoding [0xFF7F + 1] drops the leading zero
    byte, and with it the sign extension. *)
Theorem bigIntToByteArray_removable_leading_byte :
  bigIntToByteArray (-16711808) = Ok [128; 255] /\
  removableLeadingByte [128; 255] /\
  twosComplement [128; 255] = -128 /\
  twosComplement [128; 255; 0; 255] = -16711808.
Proof.
  split; [reflexivity |]. split; [| split; reflexivity].
  split; [simpl; lia | reflexivity].
Qed.

(** The same loss at [-65281 = -0xFF01]: the encoder returns [FF], the
    encoding of [-1], where the two's-complement encoding is
    [FF 00 FF]. *)
Example bigIntToByteArray_65281 :
  bigIntToByteArray (-65281) = Ok [255] /\
  twosComplement [255] = -1 /\
  twosComplement [255; 0; 255] = -65281.
Proof. repeat split; reflexivity. Qed.

End CodecFacts.

Module ExprFacts.
Import Expr.

(** ** The conditional sequence *)

(** Skip a prefix of an append when looking up at an index past it. *)
Ltac skip_prefix := rewrite lookup_app_r by (cbn [length]; lia).

(** Set the index of the lookup in the goal to [n]. *)
Ltac at_index n :=
  match goal with
  | |- _ !! ?i = _ => replace i with n by (cbn [length]; lia)
  end.

Section Conditional.
Variables (c wt wf : list Operation) (J1 J2 F E : Operation).

Let inputs : list Operation := c ++ wt ++ wf.
Let sequence : list Operation :=
  c ++ [J1] ++ wt ++ [J2] ++ [F] ++ wf ++ [E].

Lemma sequence_lookup_input k x :
  inputs !! k = Some x ->
  sequence !! conditionalPosition (length c) (length wt) k = Some x.
Proof.
  unfold inputs, sequence, conditionalPosition. intros Hk.
  apply lookup_app_Some in Hk as [Hk | [Hc Hk]].
  - apply lookup_lt_Some in Hk as Hlt.
    rewrite decide_True by lia. apply lookup_app_l_Some. exact Hk.
  - rewrite decide_False by lia.
    apply lookup_app_Some in Hk as [Hk | [Hwt Hk]].
    + apply lookup_lt_Some in Hk as Hlt.
      rewrite decide_True by lia.
      do 2 skip_prefix. apply lookup_app_l_Some.
      at_index (k - length c)%nat. exact Hk.
    + rewrite decide_False by lia.
      do 5 skip_prefix. apply lookup_app_l_Some.
      at_index (k - length c - length wt)%nat. exact Hk.
Qed.

Lemma sequence_lookup_inv i x :
  sequence !! i = Some x ->
  (exists k,
     i = conditionalPosition (length c) (length wt) k /\
     inputs !! k = Some x) \/
  (i = length c /\ x = J1) \/
  (i = (length c + length wt + 1)%nat /\ x = J2) \/
  (i = (length c + length wt + 2)%nat /\ x = F) \/
  (i = (length c + length wt + length wf + 3)%nat /\ x = E).
Proof.
  unfold inputs, sequence, conditionalPosition. intros Hi.
  apply lookup_app_Some in Hi as [Hi | [H1 Hi]].
  { left. exists i. apply lookup_lt_Some in Hi as Hlt.
    rewrite decide_True by lia. split; [reflexivity |].
    apply lookup_app_l_Some. exact Hi. }
  apply lookup_app_Some in Hi as [Hi | [H2 Hi]].
  { apply list_lookup_singleton_Some in Hi as [Hi <-].
    right. left. split; [lia | reflexivity]. }
  cbn [length] in H2, Hi.
  apply lookup_app_Some in Hi as [Hi | [H3 Hi]].
  { left. exists (i - 1)%nat. apply lookup_lt_Some in Hi as Hlt.
    rewrite decide_False by lia. rewrite decide_True by lia.
    split; [lia |].
    skip_prefix. apply lookup_app_l_Some.
    at_index (i - length c - 1)%nat. exact Hi. }
  apply lookup_app_Some in Hi as [Hi | [H4 Hi]].
  { apply list_lookup_singleton_Some in Hi as [Hi <-].
    right. right. left. split; [lia | reflexivity]. }
  cbn [length] in H4, Hi.
  apply lookup_app_Some in Hi as [Hi | [H5 Hi]].
  { apply list_lookup_singleton_Some in Hi as [Hi <-].
    right. right. right. left. split; [lia | reflexivity]. }
  cbn [length] in H5, Hi.
  apply lookup_app_Some in Hi as [Hi | [H6 Hi]].
  { left. exists (i - 3)%nat. apply lookup_lt_Some in Hi as Hlt.
    rewrite decide_False by lia. rewrite decide_False by lia.
    split; [lia |].
    do 2 skip_prefix.
    at_index (i - length c - 1 - length wt - 1 - 1)%nat. exact Hi. }
  apply list_lookup_singleton_Some in Hi as [Hi <-].
  right. right. right. right. split; [lia | reflexivity].
Qed.

Lemma sequence_lookup_J1 : sequence !! length c = Some J1.
Proof.
  unfold sequence. skip_prefix. at_index 0%nat. reflexivity.
Qed.

Lemma sequence_lookup_J2 :
  sequence !! (length c + 1 + length wt)%nat = Some J2.
Proof.
  unfold sequence. do 3 skip_prefix. at_index 0%nat. reflexivity.
Qed.

Lemma sequence_lookup_F :
  sequence !! (length c + length wt + 2)%nat = Some F.
Proof.
  unfold sequence. do 4 skip_prefix. at_index 0%nat. reflexivity.
Qed.

Lemma sequence_lookup_E :
  sequence !! (length c + length wt + length wf + 3)%nat = Some E.
Proof.
  unfold sequence. do 6 skip_prefix. at_index 0%nat. reflexivity.
Qed.

End Conditional.

Lemma conditionalPosition_lt c wt i j :
  (i < j)%nat -> (conditionalPosition c wt i < conditionalPosition c wt j)%nat.
Proof.
  unfold conditionalPosition. intros Hij.
  repeat case_decide; lia.
Qed.


Lemma allocated_noop next ops id :
  Forall (allocatedBefore next) ops -> noop id ∈ ops -> (id < next)%nat.
Proof.
  intros Hall Hin. rewrite Forall_forall in Hall.
  exact (Hall (noop id) Hin).
Qed.

Lemma allocated_target next ops i op t :
  Forall (allocatedBefore next) ops ->
  ops !! i = Some op -> targetOf op = Some t -> (t < next)%nat.
Proof.
  intros Hall Hop Ht. rewrite Forall_forall in Hall.
  specialize (Hall op (list_elem_of_lookup_2 _ _ _ Hop)).
  destruct op; try discriminate; injection Ht as <-; exact Hall.
Qed.

Lemma allocatedBefore_mono next next' op :
  (next <= next')%nat -> allocatedBefore next op -> allocatedBefore next' op.
Proof. intros Hle. destruct op; simpl; lia. Qed.

Lemma makeConditionalExpression_eq condition whenTrue whenFalse next :
  makeConditionalExpression condition whenTrue whenFalse next =
    (condition ++ [jumpifnot next] ++ whenTrue ++ [jump (S next)]
       ++ [noop next] ++ whenFalse ++ [noop (S next)],
     S (S next)).
Proof.
  unfold makeConditionalExpression, ROA_append, ROA_concat.
  rewrite <- !app_assoc. reflexivity.
Qed.

(** C6. [makeConditionalExpression] returns the condition, a
    jump-if-not to the false target, the true branch, a jump to the end
    target, the false target, the false branch and the end target, in
    this order; the two targets are fresh no-ops, distinct from each
    other and from every operation of the three lists; the target of
    each of the two jumps appears exactly once in the sequence, after
    the jump. The jumps of the three lists keep the invariant when the
    lists, in this order, have it. *)
Theorem makeConditionalExpression_sequence
    (condition whenTrue whenFalse : list Operation) (next : nat) :
  Forall (allocatedBefore next) (condition ++ whenTrue ++ whenFalse) ->
  exists falseTarget endTarget,
    let ops :=
      condition ++ [jumpifnot falseTarget] ++ whenTrue
        ++ [jump endTarget] ++ [noop falseTarget] ++ whenFalse
        ++ [noop endTarget] in
    makeConditionalExpression condition whenTrue whenFalse next
      = (ops, S (S next)) /\
    falseTarget <> endTarget /\
    (noop falseTarget ∉ condition ++ whenTrue ++ whenFalse) /\
    (noop endTarget ∉ condition ++ whenTrue ++ whenFalse) /\
    targetResolved ops (length condition) /\
    targetResolved ops (length condition + 1 + length whenTrue) /\
    ((forall i, targetResolved (condition ++ whenTrue ++ whenFalse) i) ->
     forall i, targetResolved ops i) /\
    Forall (allocatedBefore (S (S next))) ops.
Proof.
  intros Halloc. exists next, (S next). cbv zeta.
  set (ops := condition ++ [jumpifnot next] ++ whenTrue ++ [jump (S next)]
                ++ [noop next] ++ whenFalse ++ [noop (S next)]).
  assert (Hfalse : noop next ∉ condition ++ whenTrue ++ whenFalse).
  { intros Hin. pose proof (allocated_noop _ _ _ Halloc Hin). lia. }
  assert (Hend : noop (S next) ∉ condition ++ whenTrue ++ whenFalse).
  { intros Hin. pose proof (allocated_noop _ _ _ Halloc Hin). lia. }
  assert (HonlyF : forall j',
             ops !! j' = Some (noop next) ->
             j' = (length condition + length whenTrue + 2)%nat).
  { intros j' Hj'. apply sequence_lookup_inv in Hj'
      as [(k & _ & Hk) | [[_ Hk] | [[_ Hk] | [[Hj' _] | [_ Hk]]]]];
      try discriminate; try assumption.
    - exfalso. apply Hfalse. eapply list_elem_of_lookup_2. exact Hk.
    - injection Hk as Hk. lia. }
  assert (HonlyE : forall j',
             ops !! j' = Some (noop (S next)) ->
             j' = (length condition + length whenTrue
                   + length whenFalse + 3)%nat).
  { intros j' Hj'. apply sequence_lookup_inv in Hj'
      as [(k & _ & Hk) | [[_ Hk] | [[_ Hk] | [[_ Hk] | [Hj' _]]]]];
      try discriminate; try assumption.
    - exfalso. apply Hend. eapply list_elem_of_lookup_2. exact Hk.
    - injection Hk as Hk. lia. }
  assert (HJ1 : targetResolved ops (length condition)).
  { intros op t Hop Ht. subst ops.
    rewrite sequence_lookup_J1 in Hop. injection Hop as <-.
    injection Ht as <-.
    exists (length condition + length whenTrue + 2)%nat.
    split; [lia |]. split; [apply sequence_lookup_F | exact HonlyF]. }
  assert (HJ2 : targetResolved ops (length condition + 1 + length whenTrue)).
  { intros op t Hop Ht. subst ops.
    rewrite sequence_lookup_J2 in Hop. injection Hop as <-.
    injection Ht as <-.
    exists (length condition + length whenTrue + length whenFalse + 3)%nat.
    split; [lia |]. split; [apply sequence_lookup_E | exact HonlyE]. }
  split; [apply makeConditionalExpression_eq |].
  split; [lia |].
  split; [exact Hfalse |]. split; [exact Hend |].
  split; [exact HJ1 |]. split; [exact HJ2 |]. split.
  - intros Hinputs i op t Hop Ht.
    pose proof Hop as Hcase. apply sequence_lookup_inv in Hcase
      as [(k & -> & Hk) | [[-> ->] | [[-> ->] | [[_ ->] | [_ ->]]]]];
      try discriminate.
    + pose proof (allocated_target _ _ _ _ _ Halloc Hk Ht) as Hlt.
      destruct (Hinputs k op t Hk Ht) as (j0 & Hkj & Hj0 & Huniq).
      exists (conditionalPosition (length condition) (length whenTrue) j0).
      split; [apply conditionalPosition_lt; exact Hkj |].
      split; [apply sequence_lookup_input; exact Hj0 |].
      intros j' Hj'. apply sequence_lookup_inv in Hj'
        as [(k' & -> & Hk') | [[_ Hx] | [[_ Hx] | [[_ Hx] | [_ Hx]]]]];
        try discriminate.
      * rewrite (Huniq k' Hk'). reflexivity.
      * injection Hx as Hx. lia.
      * injection Hx as Hx. lia.
    + exact (HJ1 _ _ Hop Ht).
    + replace (length condition + length whenTrue + 1)%nat
        with (length condition + 1 + length whenTrue)%nat in Hop by lia.
      destruct (HJ2 _ _ Hop Ht) as (j & Hlt & Hj & Huniq).
      exists j. split; [lia |]. split; assumption.
  - subst ops. repeat (apply Forall_app; split);
      try (repeat constructor; simpl; lia).
    all: apply Forall_app in Halloc as [Hc Halloc];
         apply Forall_app in Halloc as [Hwt Hwf].
    all: eapply Forall_impl; [eassumption |];
         intros op; apply allocatedBefore_mono; lia.
Qed.


Lemma makeConditionalExpression_sequence_witness :
  let inner :=
    [pushbool true; jumpifnot 0; pushint 1; jump 1; noop 0; pushint 2;
     noop 1] in
  Forall (allocatedBefore 2) ([pushbool false] ++ inner ++ [pushint 3]) /\
  exists falseTarget endTarget,
    makeConditionalExpression [pushbool false] inner [pushint 3] 2%nat
    = ([pushbool false] ++ [jumpifnot falseTarget] ++ inner
         ++ [jump endTarget] ++ [noop falseTarget] ++ [pushint 3]
         ++ [noop endTarget], 4%nat).
Proof.
  intros inner.
  assert (Halloc :
    Forall (allocatedBefore 2) ([pushbool false] ++ inner ++ [pushint 3]))
    by (repeat constructor; simpl; lia).
  split; [exact Halloc |].
  destruct (makeConditionalExpression_sequence
              [pushbool false] inner [pushint 3] 2%nat Halloc)
    as (falseTarget & endTarget & Heq & _).
  exists falseTarget, endTarget. exact Heq.
Defined.

Example makeConditionalExpression_run :
  makeConditionalExpression [pushbool true] [pushint 1] [pushint 2] 0%nat
  = ([pushbool true; jumpifnot 0; pushint 1; jump 1; noop 0; pushint 2;
      noop 1], 2%nat).
Proof. reflexivity. Qed.

(** ** Expression chains *)

Section ChainFacts.
Context `{Collaborators}.

Lemma reduceExpressionChain_error context node e :
  error context = Some e -> reduceExpressionChain context node = context.
Proof. intros He. unfold reduceExpressionChain. rewrite He. reflexivity. Qed.

Lemma foldl_reduceExpressionChain_error chain :
  forall context e,
    error context = Some e ->
    foldl reduceExpressionChain context chain = context.
Proof.
  induction chain as [| node chain IH]; intros context e He; [reflexivity |].
  cbn [foldl]. rewrite (reduceExpressionChain_error context node e He).
  exact (IH context e He).
Qed.

(** C9. Once the chain context holds an error, a reduction step returns
    the context as it is, whatever the node: no operation is appended
    and the error is kept; so does the reduction of any further chain;
    and [parseExpression] returns the error that the reduction of a
    prefix of the chain has recorded. *)
Theorem reduceExpressionChain_short_circuit
    (context : ExpressionChainContext) (e : ParseError) :
  error context = Some e ->
  (forall node, reduceExpressionChain context node = context) /\
  (forall chain, foldl reduceExpressionChain context chain = context) /\
  (forall scope node next pre post,
     makeExpressionChain node = pre ++ post ->
     foldl reduceExpressionChain (initialContext scope next) pre = context ->
     (parseExpression scope node next).1 = inl e).
Proof.
  intros He. split; [| split].
  - intros node. exact (reduceExpressionChain_error context node e He).
  - intros chain. exact (foldl_reduceExpressionChain_error chain context e He).
  - intros scope node next pre post Hchain Hpre.
    unfold parseExpression. rewrite Hchain, foldl_app, Hpre.
    rewrite (foldl_reduceExpressionChain_error post context e He).
    rewrite He. reflexivity.
Qed.

End ChainFacts.

Lemma reduceExpressionChain_short_circuit_witness :
  let node := OtherExpression "CallExpression" (Some (NumericLiteral (1 # 2))) in
  let e :=
    makeParseError (NumericLiteral (1 # 2))
      "invalid non-integer numeric literal 0.5" in
  let context :=
    @reduceExpressionChain sampleCollaborators
      (@initialContext sampleCollaborators tt 0%nat)
      (NumericLiteral (1 # 2)) in
  @error sampleCollaborators context = Some e /\
  @reduceExpressionChain sampleCollaborators context node = context /\
  (@parseExpression sampleCollaborators tt node 0%nat).1 = inl e.
Proof.
  intros node e context.
  assert (He : @error sampleCollaborators context = Some e) by reflexivity.
  destruct (@reduceExpressionChain_short_circuit sampleCollaborators
              context e He) as (Hstep & _ & Hparse).
  split; [exact He |]. split; [apply Hstep |].
  apply (Hparse tt node 0%nat [NumericLiteral (1 # 2)] [node]);
    reflexivity.
Defined.

End ExprFacts.

Module CompilerFacts.
Import Compiler.

Section PassFacts.
Context `{Collaborators}.

(** ** Manifest entries *)


Lemma toMethodDef_exported node offset r :
  hasExportKeyword node = true ->
  toMethodDef node offset = Ok r ->
  exists def,
    r = Some def /\
    (truthy (isVoidLike (getReturnType node)) = true ->
     returnType def = Some Void).
Proof.
  intros Hexport. unfold toMethodDef. rewrite Hexport. cbn [negb].
  unfold mbind, result_mbind, result_bind.
  destruct (getNameOrThrow node) as [name |]; [| discriminate].
  destruct (mapM _ (getParameters node)) as [params |]; [| discriminate].
  destruct (truthy (isVoidLike (getReturnType node))).
  - intros [= <-]. eexists. split; [reflexivity |]. reflexivity.
  - destruct (convertContractType _) as [t |]; [| discriminate].
    intros [= <-]. eexists. split; [reflexivity |]. discriminate.
Qed.




(** *** The declarations the function pass lists *)




Lemma existsb_isError_caught diags error :
  existsb isError (diags ++ [caughtDiagnostic error]) = true.
Proof.
  rewrite existsb_app. apply orb_true_iff. right. reflexivity.
Qed.

Lemma runPass_clean (pass : CompilePass) context :
  existsb isError (diagnostics (runPass pass context)) = false ->
  exists u, pass context = (Ok u, runPass pass context).
Proof.
  unfold runPass. destruct (pass context) as [[u | e] context'].
  - intros _. exists u. reflexivity.
  - cbn [diagnostics setDiagnostics].
    rewrite existsb_isError_caught. discriminate.
Qed.


End PassFacts.



Example toMethodDef_helloWorld :
  @toMethodDef sampleCollaborators helloWorld 0
  = Ok (Some (mkContractMethodDefinition "helloWorld" 0 [] (Some Void))).
Proof. reflexivity. Qed.


(** ** The pass loop *)


Lemma runPass_artifacts (pass : CompilePass) context :
  artifacts (runPass pass context) = artifacts (pass context).2.
Proof.
  unfold runPass. destruct (pass context) as [[u | e] context']; reflexivity.
Qed.

Lemma forEach_artifacts {A} (body : A -> CompilePass) :
  (forall item context,
     artifacts (body item context).2 = artifacts context) ->
  forall items context,
    artifacts (forEach body items context).2 = artifacts context.
Proof.
  intros Hbody. induction items as [| item items IH]; intros context;
    [reflexivity |].
  cbn [forEach]. specialize (Hbody item context).
  destruct (body item context) as [[u | e] context']; cbn [snd] in *.
  - rewrite IH. exact Hbody.
  - exact Hbody.
Qed.

Section HaltFacts.
Context `{Collaborators}.

Lemma processChild_artifacts child context :
  artifacts (processChild child context).2 = artifacts context.
Proof.
  unfold processChild.
  destruct child as [| | node |]; try reflexivity.
  destruct (functionName node) as [name |]; [| reflexivity].
  destruct (getBody node) as [[body | kindName body] |]; try reflexivity.
  destruct (convertStatement _ _ _) as [[outcome builder] diags].
  reflexivity.
Qed.

Lemma processFunctionsPass_artifacts context :
  artifacts (processFunctionsPass context).2 = artifacts context.
Proof.
  unfold processFunctionsPass. apply forEach_artifacts.
  intros src context'. destruct (isDeclarationFile src); [reflexivity |].
  apply forEach_artifacts. apply processChild_artifacts.
Qed.

(** A compilation that ends with an error diagnostic has no artifacts. *)
Lemma runPasses_error_no_artifacts options :
  existsb isError (diagnostics (runPasses passes (initialContext options)))
    = true ->
  artifacts (runPasses passes (initialContext options)) = None.
Proof.
  unfold passes. cbn [runPasses].
  set (c0 := initialContext options).
  set (c1 := runPass resolveDeclarationsPass c0).
  assert (Ha1 : artifacts c1 = None) by reflexivity.
  destruct (existsb isError (diagnostics c1)) eqn:E1; [intros _; exact Ha1 |].
  set (c2 := runPass processFunctionsPass c1).
  assert (Ha2 : artifacts c2 = None).
  { subst c2. rewrite runPass_artifacts, processFunctionsPass_artifacts.
    exact Ha1. }
  destruct (existsb isError (diagnostics c2)) eqn:E2; [intros _; exact Ha2 |].
  assert (Hc3 :
    existsb isError (diagnostics (runPass collectArtifactsPass c2)) = true ->
    artifacts (runPass collectArtifactsPass c2) = None).
  { unfold runPass, collectArtifactsPass.
    destruct (collectMethods _ [] []) as [[fullScript collected] | e].
    - cbn [diagnostics setArtifacts]. congruence.
    - intros _. exact Ha2. }
  destruct (existsb isError (diagnostics (runPass collectArtifactsPass c2)))
    eqn:E3; intros Herror; apply Hc3; congruence.
Qed.


(** Without an error, the three passes run one after the other. *)
Lemma compile_runs_in_order options :
  let c1 := runPass resolveDeclarationsPass (initialContext options) in
  let c2 := runPass processFunctionsPass c1 in
  let c3 := runPass collectArtifactsPass c2 in
  existsb isError (diagnostics c2) = false ->
  resultContext (compile options) = c3.
Proof.
  intros c1 c2 c3 Hclean. unfold compile, passes.
  cbn [resultContext runPasses].
  change (existsb isError (diagnostics
            (runPass resolveDeclarationsPass (initialContext options))))
    with false.
  cbv iota. fold c1. fold c2. rewrite Hclean. fold c3.
  destruct (existsb isError (diagnostics c3)); reflexivity.
Qed.

End HaltFacts.


Example compile_without_error :
  resultDiagnostics
    (@compile sampleCollaborators (sampleOptions [helloWorld; helper])) = []
  /\ is_Some (resultArtifacts
       (@compile sampleCollaborators (sampleOptions [helloWorld; helper]))).
Proof. split; [reflexivity | eexists; reflexivity]. Qed.

End CompilerFacts.

(** * Further properties of the codec *)

Module CodecExtras.
Import Codec CodecSpec CodecFacts.

(** X8. [toBigInt] undoes [toBuffer] on the non-negative integers. *)
Theorem toBigInt_toBuffer (v : Z) : 0 <= v -> toBigInt (toBuffer v) = Ok v.
Proof.
  intros Hv. rewrite (toBuffer_magnitude v Hv).
  rewrite toBigInt_bytes
    by (apply magnitude_isBytes || apply magnitude_nonempty; assumption).
  rewrite (bigEndianValue_magnitude v Hv). reflexivity.
Qed.

Lemma toBigInt_toBuffer_witness :
  0 <= 65535 /\ toBigInt (toBuffer 65535) = Ok 65535.
Proof. split; [lia | apply (toBigInt_toBuffer 65535); lia]. Defined.



(** X10. [allBitsSet] answers whether every byte of the buffer is 0xFF; it
    says yes of the empty buffer. *)
Theorem allBitsSet_iff (buffer : list Z) :
  allBitsSet buffer = true <-> Forall (fun b => b = 255) buffer.
Proof.
  rewrite allBitsSet_forallb, forallb_forall, Forall_forall.
  split; intros Hall b Hb.
  - symmetry. apply Z.eqb_eq. apply Hall. apply list_elem_of_In. exact Hb.
  - apply Z.eqb_eq. symmetry. apply Hall. apply list_elem_of_In. exact Hb.
Qed.

(** The bytes the encoder returns for a negative integer, before the
    reversal: bytes with the most-significant bit set. *)
Lemma negative_bytes n :
  n < 0 ->
  exists bytes,
    encodeNegative n = reverse bytes /\ isBytes bytes /\ bytes <> [] /\
    msbSet bytes = true.
Proof.
  intros Hn. destruct (encodeNegative_value n Hn) as [Hx Heq].
  cbv zeta in Hx, Heq. rewrite Heq.
  match goal with
  | |- context [magnitude ?x] => set (r := magnitude x) in *
  end.
  assert (Hr : isBytes r) by (apply magnitude_isBytes; lia).
  exists (if msbSet r then r else 255 :: r).
  split; [reflexivity |].
  destruct (msbSet r) eqn:E.
  - split; [exact Hr |]. split; [apply magnitude_nonempty | exact E].
  - split; [constructor; [lia | exact Hr] |].
    split; [discriminate | reflexivity].
Qed.

(** X3. The encoder never throws: for every integer it returns a non-empty
    array of bytes. *)
Theorem bigIntToByteArray_returns (n : Z) :
  exists bytes,
    bigIntToByteArray n = Ok bytes /\ isBytes bytes /\ bytes <> [].
Proof.
  destruct (Z.le_gt_cases 0 n) as [Hn | Hn].
  - exists (encodeNonNegative n).
    split; [apply bigIntToByteArray_of_nonnegative; exact Hn |].
    rewrite (encodeNonNegative_reverse n Hn).
    destruct (nonnegative_bytes n Hn) as (Hbytes & Hne & _ & _).
    split; [apply Forall_reverse; exact Hbytes |].
    intros Hnil. apply Hne. apply (f_equal reverse) in Hnil.
    rewrite reverse_involutive in Hnil. exact Hnil.
  - exists (encodeNegative n).
    split; [apply bigIntToByteArray_of_negative; lia |].
    destruct (negative_bytes n ltac:(lia)) as (bytes & -> & Hbytes & Hne & _).
    split; [apply Forall_reverse; exact Hbytes |].
    intros Hnil. apply Hne. apply (f_equal reverse) in Hnil.
    rewrite reverse_involutive in Hnil. exact Hnil.
Qed.

(** X4. The sign bit of the encoding, the top bit of its last byte, is set
    exactly for the negative integers. *)
Theorem bigIntToByteArray_sign (n : Z) (bytes : list Z) :
  bigIntToByteArray n = Ok bytes -> (signSet bytes = true <-> n < 0).
Proof.
  destruct (Z.le_gt_cases 0 n) as [Hn | Hn].
  - rewrite (bigIntToByteArray_of_nonnegative n Hn). intros [= <-].
    rewrite (encodeNonNegative_reverse n Hn), signSet_reverse.
    destruct (nonnegative_bytes n Hn) as (_ & _ & Hmsb & _).
    cbv zeta in Hmsb. rewrite Hmsb. split; [discriminate | lia].
  - rewrite (bigIntToByteArray_of_negative n ltac:(lia)). intros [= <-].
    destruct (negative_bytes n ltac:(lia)) as (b & -> & _ & _ & Hmsb).
    rewrite signSet_reverse, Hmsb. split; [lia | reflexivity].
Qed.

Lemma bigIntToByteArray_sign_witness :
  bigIntToByteArray (-32768) = Ok [0; 128] /\
  (signSet [0; 128] = true <-> -32768 < 0).
Proof.
  assert (Hrun : bigIntToByteArray (-32768) = Ok [0; 128]) by reflexivity.
  split; [exact Hrun |].
  exact (bigIntToByteArray_sign (-32768) [0; 128] Hrun).
Defined.

(** X2. The decoder refuses what the encoder returns for any negative
    integer: decoding it throws "Not Implemented". *)
Theorem negative_roundtrip_unsupported (n : Z) :
  n < 0 ->
  bigIntToByteArray n ≫= decode = Throw (Error "Not Implemented").
Proof.
  intros Hn. rewrite (bigIntToByteArray_of_negative n Hn).
  change (Ok (encodeNegative n) ≫= decode) with (decode (encodeNegative n)).
  destruct (negative_bytes n Hn) as (bytes & -> & Hbytes & _ & Hmsb).
  rewrite decode_run, reverse_involutive.
  rewrite (signBit_clear_msbSet bytes Hbytes), Hmsb. reflexivity.
Qed.

Lemma negative_roundtrip_unsupported_witness :
  -1000000 < 0 /\
  bigIntToByteArray (-1000000) ≫= decode = Throw (Error "Not Implemented").
Proof.
  split; [lia | apply (negative_roundtrip_unsupported (-1000000)); lia].
Defined.

(** X7. What the decoder returns. On an array of bytes it throws the
    SyntaxError of [BigInt("0x")] when the array is empty, and when the
    array is not empty and the sign bit of its last byte is clear it
    returns the unsigned little-endian value of the bytes, leading zero
    bytes included. *)
Theorem byteArrayToBigInt_unsigned_value
    (σ : gmap positive (list Z)) (value : positive) (bytes : list Z) :
  σ !! value = Some bytes ->
  isBytes bytes ->
  (bytes = [] ->
   (byteArrayToBigInt value σ).1
   = Throw (SyntaxError "Cannot convert 0x to a BigInt")) /\
  (bytes <> [] -> signSet bytes = false ->
   (byteArrayToBigInt value σ).1 = Ok (unsignedValue bytes)).
Proof.
  intros Hvalue Hbytes.
  rewrite (byteArrayToBigInt_run σ value bytes Hvalue). cbn [fst].
  split.
  - intros ->. reflexivity.
  - intros Hne Hsign.
    assert (Hrev : isBytes (reverse bytes))
      by (apply Forall_reverse; exact Hbytes).
    rewrite (signBit_clear_msbSet _ Hrev).
    rewrite <- signSet_reverse, reverse_involutive, Hsign. cbn [negb].
    rewrite toBigInt_bytes; [| exact Hrev |].
    + rewrite <- unsignedValue_reverse, reverse_involutive. reflexivity.
    + intros Hnil. apply Hne. apply (f_equal reverse) in Hnil.
      rewrite reverse_involutive in Hnil. exact Hnil.
Qed.

Lemma byteArrayToBigInt_unsigned_value_witness :
  ({[ 5%positive := [1; 2; 0] ]} : gmap positive (list Z)) !! 5%positive
    = Some [1; 2; 0] /\
  isBytes [1; 2; 0] /\
  (byteArrayToBigInt 5%positive {[ 5%positive := [1; 2; 0] ]}).1 = Ok 513 /\
  (byteArrayToBigInt 5%positive {[ 5%positive := [] ]}).1
  = Throw (SyntaxError "Cannot convert 0x to a BigInt").
Proof.
  assert (Hbytes : isBytes [1; 2; 0]) by (repeat constructor; lia).
  split; [reflexivity |]. split; [exact Hbytes |]. split.
  - refine (proj2 (byteArrayToBigInt_unsigned_value
                     {[ 5%positive := [1; 2; 0] ]} 5%positive [1; 2; 0]
                     _ Hbytes) _ _).
    + reflexivity.
    + discriminate.
    + reflexivity.
  - refine (proj1 (byteArrayToBigInt_unsigned_value
                     {[ 5%positive := [] ]} 5%positive [] _ _) _).
    + reflexivity.
    + constructor.
    + reflexivity.
Defined.

(** X6. Where the encoder loses the sign extension: for [n < 0] whose
    magnitude, of [k] bytes, lies strictly between [255 * 256 ^ (k - 1)]
    and [256 ^ k - 1], the bytes it returns do not denote [n] in two's
    complement. *)
Theorem bigIntToByteArray_wrong (n : Z) :
  n < 0 ->
  255 * 256 ^ Z.of_nat (length (magnitude (- n)) - 1) < - n
    < 256 ^ Z.of_nat (length (magnitude (- n))) - 1 ->
  exists bytes,
    bigIntToByteArray n = Ok bytes /\ twosComplement bytes <> n.
Proof.
  intros Hn Hrange. exists (encodeNegative n).
  split; [apply bigIntToByteArray_of_negative; exact Hn |].
  apply encodeNegative_wrong; assumption.
Qed.

Lemma bigIntToByteArray_wrong_witness :
  -16711808 < 0 /\
  255 * 256 ^ Z.of_nat (length (magnitude (- -16711808)) - 1) < - -16711808
    < 256 ^ Z.of_nat (length (magnitude (- -16711808))) - 1 /\
  exists bytes,
    bigIntToByteArray (-16711808) = Ok bytes /\
    twosComplement bytes <> -16711808.
Proof.
  assert (Hrange :
    255 * 256 ^ Z.of_nat (length (magnitude (- -16711808)) - 1)
      < - -16711808
      < 256 ^ Z.of_nat (length (magnitude (- -16711808))) - 1)
    by (split; vm_compute; reflexivity).
  split; [lia |]. split; [exact Hrange |].
  apply (bigIntToByteArray_wrong (-16711808)); [lia | exact Hrange].
Defined.

End CodecExtras.

(** * Further properties of the expression translation *)

Module ExprExtras.
Import Expr Constants ExprFacts.

(** Induction on the expressions a node wraps. *)
Lemma Expression_wrap_ind (P : Expression -> Prop) :
  (forall node, getExpression node = None -> P node) ->
  (forall kindName expr, P expr -> P (OtherExpression kindName (Some expr))) ->
  forall node, P node.
Proof.
  intros Hleaf Hwrap. fix IH 1. intros node.
  destruct node as [v | | | s | | q | s | kindName [expr |]];
    try (apply Hleaf; reflexivity).
  apply Hwrap. apply IH.
Qed.

Lemma makeChain_app head :
  forall tail, makeChain head tail = makeChain head [] ++ tail.
Proof.
  induction head as [node Hleaf | kindName expr IH] using Expression_wrap_ind;
    intros tail.
  - destruct node as [v | | | s | | q | s | kindName [expr |]];
      try reflexivity; discriminate.
  - cbn [makeChain].
    rewrite (IH (_ :: tail)), (IH [_]), <- app_assoc. reflexivity.
Qed.

Lemma makeExpressionChain_leaf node :
  getExpression node = None -> makeExpressionChain node = [node].
Proof.
  intros Hleaf. unfold makeExpressionChain.
  destruct node as [v | | | s | | q | s | kindName [expr |]];
    try reflexivity; discriminate.
Qed.

Lemma makeExpressionChain_wrap kindName expr :
  makeExpressionChain (OtherExpression kindName (Some expr))
  = makeExpressionChain expr ++ [OtherExpression kindName (Some expr)].
Proof.
  unfold makeExpressionChain. cbn [makeChain]. apply makeChain_app.
Qed.

(** X11. The chain of an expression ends with the expression, begins with an
    expression that wraps none, and each of its elements is the
    expression its successor wraps. *)
Theorem makeExpressionChain_linked (node : Expression) :
  let chain := makeExpressionChain node in
  last chain = Some node /\
  (exists first, head chain = Some first /\ getExpression first = None) /\
  (forall i inner outer,
     chain !! i = Some inner -> chain !! S i = Some outer ->
     getExpression outer = Some inner).
Proof.
  cbv zeta.
  induction node as [node Hleaf | kindName expr IH] using Expression_wrap_ind.
  - rewrite (makeExpressionChain_leaf node Hleaf).
    split; [reflexivity |]. split; [exists node; split; [reflexivity | exact Hleaf] |].
    intros i inner outer _ Houter. destruct i; discriminate.
  - rewrite makeExpressionChain_wrap.
    destruct IH as (Hlast & (first & Hhead & Hfirst) & Hlink).
    split; [apply last_snoc |]. split.
    + exists first. split; [| exact Hfirst].
      destruct (makeExpressionChain expr); [discriminate | exact Hhead].
    + intros i inner outer Hinner Houter.
      apply lookup_app_Some in Houter as [Houter | [Hlen Houter]].
      * apply (Hlink i); [| exact Houter].
        apply lookup_app_Some in Hinner as [Hinner | [Hlen _]];
          [exact Hinner |].
        apply lookup_lt_Some in Houter. lia.
      * apply list_lookup_singleton_Some in Houter as [Hi <-].
        cbn [getExpression]. f_equal.
        assert (i = pred (length (makeExpressionChain expr))) as -> by lia.
        rewrite lookup_app_l in Hinner
          by (destruct (makeExpressionChain expr); [discriminate | simpl; lia]).
        rewrite <- last_lookup, Hlast in Hinner. congruence.
Qed.


Section ParseFacts.
Context `{Collaborators}.

Lemma reduceExpressionChain_other context kindName expr :
  is_Some (error (reduceExpressionChain context
                    (OtherExpression kindName expr))).
Proof.
  unfold reduceExpressionChain.
  destruct (error context) as [e |] eqn:He.
  - rewrite He. eauto.
  - cbn. eauto.
Qed.

Lemma foldl_reduceExpressionChain_snoc_other chain context kindName expr :
  is_Some (error (foldl reduceExpressionChain context
                    (chain ++ [OtherExpression kindName expr]))).
Proof. rewrite foldl_app. cbn [foldl]. apply reduceExpressionChain_other. Qed.

Lemma makeExpressionChain_other kindName expr :
  exists chain,
    makeExpressionChain (OtherExpression kindName expr)
    = chain ++ [OtherExpression kindName expr].
Proof.
  destruct expr as [expr |].
  - eexists. apply makeExpressionChain_wrap.
  - exists []. reflexivity.
Qed.

(** X12. [parseExpression] returns operations only for a literal or an
    identifier: for a node of any other kind, and so for every node that
    wraps an expression (a property access, a call), it returns an
    error. *)
Theorem parseExpression_only_leaves
    (scope : Scope) (node : Expression) (next : nat)
    (operations : list Operation) :
  (parseExpression scope node next).1 = inr operations ->
  makeExpressionChain node = [node] /\
  forall kindName expr, node <> OtherExpression kindName expr.
Proof.
  intros Hrun.
  assert (Hleaf : forall kindName expr,
            node <> OtherExpression kindName expr).
  { intros kindName expr ->.
    destruct (makeExpressionChain_other kindName expr) as [chain Hchain].
    unfold parseExpression in Hrun. rewrite Hchain in Hrun.
    destruct (foldl_reduceExpressionChain_snoc_other chain
                (initialContext scope next) kindName expr) as [e He].
    rewrite He in Hrun. discriminate. }
  split; [| exact Hleaf].
  apply makeExpressionChain_leaf.
  destruct node; try reflexivity. exfalso. eapply Hleaf. reflexivity.
Qed.

(** No operation allocated before [next] targets or is the object
    [next]. *)
Lemma no_end_jumps next (operations : list Operation) :
  Forall (allocatedBefore next) operations ->
  filter (fun op => targetOf op = Some next)
    (filter (fun op => isJumpTargetOp op = true) operations) = [].
Proof.
  induction 1 as [| op rest Hop _ IH]; [reflexivity |].
  rewrite filter_cons. destruct (decide (isJumpTargetOp op = true)).
  - rewrite filter_cons. destruct (decide (targetOf op = Some next)) as [Ht |].
    + exfalso. destruct op; try discriminate; injection Ht as ->;
        simpl in Hop; lia.
    + exact IH.
  - exact IH.
Qed.

Lemma parseExpression_leaf scope node next :
  getExpression node = None ->
  parseExpression scope node next =
    let result := reduceExpressionChain (initialContext scope next) node in
    match error result with
    | Some e => (inl e, S next)
    | None =>
        (inr (if negb (bool_decide
                   (filter (fun op => targetOf op = Some next)
                      (filter (fun op => isJumpTargetOp op = true)
                         (ops result)) = []))
              then ROA_append (noop next) (ops result)
              else ops result), S next)
    end.
Proof.
  intros Hleaf. unfold parseExpression.
  rewrite (makeExpressionChain_leaf node Hleaf). reflexivity.
Qed.

(** X13. An identifier whose symbol the scope does not resolve is an error
    that names the symbol; so is an identifier without a symbol. *)
Theorem parseExpression_unresolved_identifier
    (scope : Scope) (symbol : Symbol) (next : nat) :
  resolve scope symbol = None ->
  (parseExpression scope (Identifier (Some symbol)) next).1
  = inl (makeParseError (Identifier (Some symbol))
           ("Failed to resolve identifier " +:+ getName symbol)) /\
  (parseExpression scope (Identifier None) next).1
  = inl (makeParseError (Identifier None) "invalid symbol").
Proof.
  intros Hresolve. rewrite !parseExpression_leaf by reflexivity.
  cbv zeta. unfold reduceExpressionChain, reduceIdentifier. cbn.
  rewrite Hresolve. split; reflexivity.
Qed.

(** X14. An identifier the scope resolves is translated to the load
    operations of its compile-time object, and to nothing else: the end
    target [parseExpression] creates is not appended, the operations
    being objects that existed before it. An object without load
    operations is an error. *)
Theorem parseExpression_resolved_identifier
    (scope : Scope) (symbol : Symbol) (next : nat)
    (object : CompileTimeObject Scope) :
  resolve scope symbol = Some object ->
  match getLoadOps object with
  | None =>
      (parseExpression scope (Identifier (Some symbol)) next).1
      = inl (makeParseError (Identifier (Some symbol))
               (getName (Expr.symbol object)
                  +:+ " does not support load operations"))
  | Some load =>
      match load scope (Identifier (Some symbol)) with
      | inl e =>
          (parseExpression scope (Identifier (Some symbol)) next).1 = inl e
      | inr loadOps =>
          Forall (allocatedBefore next) loadOps ->
          parseExpression scope (Identifier (Some symbol)) next
          = (inr loadOps, S next)
      end
  end.
Proof.
  intros Hresolve. rewrite parseExpression_leaf by reflexivity.
  cbv zeta. unfold reduceExpressionChain, reduceIdentifier. cbn.
  rewrite Hresolve.
  destruct (getLoadOps object) as [load |]; [| reflexivity].
  destruct (load scope (Identifier (Some symbol))) as [e | loadOps];
    [reflexivity |].
  intros Halloc. cbn. unfold ROA_concat. rewrite app_nil_r.
  rewrite (no_end_jumps next loadOps Halloc).
  rewrite bool_decide_eq_true_2 by reflexivity. reflexivity.
Qed.

(** X16. The agreement of the two constant readers: [getConstantValue]
    throws on a node exactly when [parseConstantValue] returns an error,
    both reporting the node, and otherwise they give the same value. *)
Theorem constant_values_agree (node : Expression) :
  match getConstantValue node, parseConstantValue node with
  | inr value, inr value' => value = value'
  | inl e, inl e' => Expr.node e = node /\ Expr.node e' = node
  | _, _ => False
  end.
Proof.
  destruct node as [v | | | s | | q | s | kindName expr]; cbn;
    try (split; reflexivity); try reflexivity.
  destruct (Number_isInteger q); cbn; [reflexivity | split; reflexivity].
Qed.

(** X15. From a context without error, a reduction step on a node that is
    not an identifier records an error exactly when [getConstantValue]
    throws on the node; when it does not, the step appends one
    operation. *)
Theorem reduceExpressionChain_constants
    (context : ExpressionChainContext) (node : Expression) :
  error context = None ->
  (forall symbol, node <> Identifier symbol) ->
  (error (reduceExpressionChain context node) = None <->
   exists value, getConstantValue node = inr value) /\
  (error (reduceExpressionChain context node) = None ->
   exists op, ops (reduceExpressionChain context node) = ops context ++ [op]).
Proof.
  intros Hclean Hnode. unfold reduceExpressionChain. rewrite Hclean.
  destruct node as [v | | | s | | q | s | kindName expr]; cbn;
    try (split; [split; [eauto | intros _; exact Hclean] | eauto]).
  - exfalso. eapply Hnode. reflexivity.
  - unfold reduceNumericLiteral. destruct (Number_isInteger q); cbn.
    + split; [split; [eauto | intros _; exact Hclean] | eauto].
    + split; [split; [discriminate | intros [? ?]; discriminate]
             | discriminate].
  - split; [split; [discriminate | intros [? ?]; discriminate]
           | discriminate].
Qed.

End ParseFacts.

Lemma parseExpression_only_leaves_witness :
  (@parseExpression sampleCollaborators tt (BigIntLiteral 5) 0%nat).1
    = inr [pushint 5] /\
  makeExpressionChain (BigIntLiteral 5) = [BigIntLiteral 5].
Proof.
  assert (Hrun :
    (@parseExpression sampleCollaborators tt (BigIntLiteral 5) 0%nat).1
    = inr [pushint 5]) by reflexivity.
  split; [exact Hrun |].
  exact (proj1 (@parseExpression_only_leaves sampleCollaborators tt
                  (BigIntLiteral 5) 0%nat [pushint 5] Hrun)).
Defined.

Lemma parseExpression_unresolved_identifier_witness :
  let symbol := mkSymbol 7 "owner" in
  @resolve sampleCollaborators tt symbol = None /\
  (@parseExpression sampleCollaborators tt (Identifier (Some symbol))
     0%nat).1
  = inl (makeParseError (Identifier (Some symbol))
           "Failed to resolve identifier owner").
Proof.
  intros symbol. split; [reflexivity |].
  exact (proj1 (@parseExpression_unresolved_identifier sampleCollaborators
                  tt symbol 0%nat eq_refl)).
Defined.

Lemma parseExpression_resolved_identifier_witness :
  let symbol := mkSymbol 7 "answer" in
  @parseExpression answerCollaborators tt (Identifier (Some symbol)) 3%nat
  = (inr [pushint 42], 4%nat).
Proof.
  intros symbol.
  apply (@parseExpression_resolved_identifier answerCollaborators tt symbol
           3%nat
           (mkCompileTimeObject unit symbol
              (Some (fun _ _ => inr [pushint 42]))) eq_refl).
  repeat constructor.
Defined.

Lemma reduceExpressionChain_constants_witness :
  let context := @initialContext sampleCollaborators tt 0%nat in
  @error sampleCollaborators context = None /\
  (forall symbol, NumericLiteral (3 # 1) <> Identifier symbol) /\
  @ops sampleCollaborators
    (@reduceExpressionChain sampleCollaborators context
       (NumericLiteral (3 # 1)))
  = [pushint 3].
Proof.
  intros context.
  assert (Hnode : forall symbol, NumericLiteral (3 # 1) <> Identifier symbol)
    by discriminate.
  split; [reflexivity |]. split; [exact Hnode |].
  destruct (proj2 (@reduceExpressionChain_constants sampleCollaborators
                     context (NumericLiteral (3 # 1)) eq_refl Hnode)
              eq_refl) as [op Hop].
  reflexivity.
Defined.

End ExprExtras.

(** ** Further properties of the compiler passes *)

Module CompilerExtras.
Import Compiler CompilerFacts.

Section PassExtras.
Context `{Collaborators}.

Lemma convertContractType_not_void type converted :
  convertContractType type = Ok converted -> converted <> Void.
Proof.
  unfold convertContractType.
  destruct type as [type | type];
    [destruct type as [| | | | | primitive | other]
    | destruct (tsTypeToContractType type) as [| | | | | primitive | other]];
    try destruct primitive; intros [= <-]; discriminate.
Qed.

Lemma mapM_result_Forall2 {A B} (f : A -> result B) items converted :
  mapM f items = Ok converted ->
  Forall2 (fun item b => f item = Ok b) items converted.
Proof.
  revert converted. induction items as [| item rest IH]; intros converted.
  - intros [= <-]. constructor.
  - cbn. unfold mbind, result_mbind, result_bind.
    destruct (f item) as [b |] eqn:Hitem; [| discriminate].
    destruct (mapM f rest) as [bs |]; [| discriminate].
    intros [= <-]. constructor; [exact Hitem | apply IH; reflexivity].
Qed.

Lemma mapM_result_is_ok {A B} (f : A -> result B) items :
  is_ok (mapM f items) = true <->
  Forall (fun item => is_ok (f item) = true) items.
Proof.
  induction items as [| item rest IH].
  - split; [constructor | reflexivity].
  - cbn. unfold mbind, result_mbind, result_bind.
    destruct (f item) as [b |] eqn:Hitem.
    + destruct (mapM f rest) as [bs |]; cbn.
      * split; [| reflexivity]. intros _. constructor.
        -- rewrite Hitem. reflexivity.
        -- apply IH. reflexivity.
      * split; [discriminate |]. intros Hall.
        apply Forall_cons in Hall as [_ Hall]. apply IH in Hall.
        discriminate.
    + cbn. split; [discriminate |]. intros Hall.
      apply Forall_cons in Hall as [Hhead _]. rewrite Hitem in Hhead.
      discriminate.
Qed.

Lemma toMethodDef_inv node offset def :
  toMethodDef node offset = Ok (Some def) ->
  hasExportKeyword node = true /\
  functionName node = Some (methodName def) /\
  Compiler.offset def = offset /\
  Forall2 (fun p entry =>
             entry.1 = parameterName p /\
             convertContractType (inr (parameterType p)) = Ok entry.2)
    (getParameters node) (parameters def) /\
  exists converted,
    returnType def = Some converted /\
    (converted = Void <-> truthy (isVoidLike (getReturnType node)) = true) /\
    (converted <> Void ->
     convertContractType (inr (getReturnType node)) = Ok converted).
Proof.
  unfold toMethodDef.
  destruct (hasExportKeyword node); cbn [negb]; [| discriminate].
  unfold mbind at 1 2 3, result_mbind, result_bind, getNameOrThrow.
  destruct (functionName node) as [name |]; [| discriminate].
  destruct (mapM _ (getParameters node)) as [params |] eqn:Hparams;
    [| discriminate].
  apply mapM_result_Forall2 in Hparams.
  assert (Hentries :
    Forall2 (fun p entry =>
               entry.1 = parameterName p /\
               convertContractType (inr (parameterType p)) = Ok entry.2)
      (getParameters node) params).
  { eapply Forall2_impl; [exact Hparams |]. intros p entry.
    unfold mbind, result_mbind, result_bind.
    destruct (convertContractType _) as [t |]; [| discriminate].
    intros [= <-]. split; reflexivity. }
  destruct (truthy (isVoidLike (getReturnType node))) eqn:Hvoid.
  - intros [= <-]. cbn. repeat split; try assumption; try reflexivity.
    exists Void. repeat split; try reflexivity. congruence.
  - destruct (convertContractType (inr (getReturnType node)))
      as [converted |] eqn:Hreturn; [| discriminate].
    intros [= <-]. cbn. repeat split; try assumption; try reflexivity.
    exists converted. split; [reflexivity |]. split; [| reflexivity].
    split; [| discriminate]. intros ->.
    exfalso. exact (convertContractType_not_void _ _ Hreturn eq_refl).
Qed.

(** X17. The manifest entry of an exported function: it has the function's
    name and the given offset, a parameter for each parameter of the
    function, in order, under its name and with its converted type, and
    a return type, which is [Void] exactly when the function's return
    type is void-like and is the converted return type otherwise. *)
Theorem toMethodDef_entry
    (node : FunctionDeclaration) (offset : Z)
    (def : ContractMethodDefinition) :
  toMethodDef node offset = Ok (Some def) ->
  hasExportKeyword node = true /\
  functionName node = Some (methodName def) /\
  Compiler.offset def = offset /\
  Forall2 (fun p entry =>
             entry.1 = parameterName p /\
             convertContractType (inr (parameterType p)) = Ok entry.2)
    (getParameters node) (parameters def) /\
  exists converted,
    returnType def = Some converted /\
    (converted = Void <-> truthy (isVoidLike (getReturnType node)) = true) /\
    (converted <> Void ->
     convertContractType (inr (getReturnType node)) = Ok converted).
Proof. exact (toMethodDef_inv node offset def). Qed.

(** X18. [toMethodDef] returns (rather than throws) exactly for a function
    that is not exported, or that has a name, parameters whose types all
    convert and a return type that is void-like or converts. The type of
    a function that is not exported is never looked at. *)
Theorem toMethodDef_returns_iff (node : FunctionDeclaration) (offset : Z) :
  is_ok (toMethodDef node offset) = true <->
  hasExportKeyword node = false \/
  (is_Some (functionName node) /\
   Forall (fun p =>
             is_ok (convertContractType (inr (parameterType p))) = true)
     (getParameters node) /\
   (truthy (isVoidLike (getReturnType node)) = true \/
    is_ok (convertContractType (inr (getReturnType node))) = true)).
Proof.
  unfold toMethodDef.
  destruct (hasExportKeyword node); cbn [negb];
    [| split; [intros _; left; reflexivity | reflexivity]].
  unfold mbind at 1 2 3, result_mbind, result_bind, getNameOrThrow.
  destruct (functionName node) as [name |];
    [| split; [discriminate | intros [[=] | [[? [=]] _]]]].
  destruct (mapM _ (getParameters node)) as [params |] eqn:Hparams.
  - assert (Hall :
      Forall (fun p =>
                is_ok (convertContractType (inr (parameterType p))) = true)
        (getParameters node)).
    { apply mapM_result_Forall2 in Hparams.
      induction Hparams as [| p entry ps entries Hp _ IH]; constructor.
      - unfold mbind, result_mbind, result_bind in Hp.
        destruct (convertContractType _); [reflexivity | discriminate].
      - exact IH. }
    destruct (truthy (isVoidLike (getReturnType node))).
    + split; [| reflexivity]. intros _. right. eauto.
    + destruct (convertContractType (inr (getReturnType node))); cbn.
      * split; [| reflexivity]. intros _. right. eauto.
      * split; [discriminate |].
        intros [[=] | (_ & _ & [[=] | [=]])].
  - split; [discriminate |]. intros [[=] | (_ & Hall & _)]. exfalso.
    match type of Hparams with
    | mapM ?f ?items = _ => assert (Hok : is_ok (mapM f items) = true)
    end.
    { apply mapM_result_is_ok. eapply Forall_impl; [exact Hall |].
      intros p. cbn.
      destruct (convertContractType _); [reflexivity | discriminate]. }
    pose proof (eq_trans (eq_sym Hok) (f_equal is_ok Hparams)) as Hfalse.
    discriminate Hfalse.
Qed.

Lemma collectMethods_ranges ops :
  forall fullScript methods fullScript' methods',
    collectMethods ops fullScript methods = Ok (fullScript', methods') ->
    exists added,
      methods' = methods ++ added /\
      tiled (Z.of_nat (List.length fullScript)) (map debug added)
        (Z.of_nat (List.length fullScript')) /\
      Forall2 collectedFrom ops added.
Proof.
  induction ops as [| op rest IH];
    intros fullScript methods fullScript' methods' Hrun.
  - injection Hrun as <- <-. exists []. rewrite app_nil_r.
    repeat split. constructor.
  - cbn [collectMethods] in Hrun.
    unfold mbind, result_mbind, result_bind in Hrun.
    destruct (ScriptBuilder_compile _ _) as [[script points] |];
      [| discriminate].
    destruct (toMethodDef (node op) _) as [def |] eqn:Hdef; [| discriminate].
    apply IH in Hrun as (added & -> & Htiled & Hadded).
    eexists (_ :: added). rewrite <- app_assoc. split; [reflexivity |].
    split.
    + cbn [map tiled debug toDebugInfoMethod rangeStart rangeEnd].
      split; [reflexivity |].
      rewrite length_app, Nat2Z.inj_add in Htiled.
      replace (Z.of_nat (List.length fullScript)
               + Z.of_nat (List.length script) - 1 + 1)
        with (Z.of_nat (List.length fullScript)
              + Z.of_nat (List.length script)) by lia.
      exact Htiled.
    + constructor; [| exact Hadded].
      split; [reflexivity |]. cbn [methodDef debug].
      destruct def as [def |].
      * apply toMethodDef_inv in Hdef as (Hexport & Hname & Hoffset & _).
        repeat split; assumption.
      * destruct (hasExportKeyword (node op)) eqn:Hexport; [| reflexivity].
        destruct (toMethodDef_exported _ _ _ Hexport Hdef) as (d & [=] & _).
Qed.

Lemma collectArtifactsPass_inv context u context' :
  collectArtifactsPass context = (Ok u, context') ->
  exists fullScript collected,
    collectMethods (default [] (operations context)) [] []
      = Ok (fullScript, collected) /\
    artifacts context'
    = Some (mkCompilationArtifacts
              (mkNEF "neo-devpack-ts" (Codec.Buffer_toString_hex fullScript))
              (mkContractManifest
                 (default "Test Contract" (contextName context))
                 (omap methodDef collected))
              (mkDebugInfo
                 (hash160 (Codec.Buffer_toString_hex fullScript))
                 (NEF_checksum
                    (mkNEF "neo-devpack-ts"
                       (Codec.Buffer_toString_hex fullScript)))
                 (map debug collected))).
Proof.
  unfold collectArtifactsPass.
  destruct (collectMethods _ [] []) as [[fullScript collected] |];
    [| discriminate].
  intros [= _ <-]. exists fullScript, collected. split; reflexivity.
Qed.

(** X19. In the artifacts [collectArtifactsPass] sets, the ranges of the
    debug methods tile the script: the first starts at 0, each next one
    where the one before ends, the last ends with the script, whose hex
    text is the NEF's script. Each manifest entry has the offset at
    which the debug range of its method starts. *)
Theorem collectArtifactsPass_ranges
    (context : CompilationContext) (u : unit)
    (context' : CompilationContext) :
  collectArtifactsPass context = (Ok u, context') ->
  exists a fullScript collected,
    artifacts context' = Some a /\
    script (nef a) = Codec.Buffer_toString_hex fullScript /\
    abiMethods (manifest a) = omap methodDef collected /\
    methods (debugInfo a) = map debug collected /\
    tiled 0 (methods (debugInfo a)) (Z.of_nat (List.length fullScript)) /\
    Forall2 collectedFrom (default [] (operations context)) collected.
Proof.
  intros Hrun.
  apply collectArtifactsPass_inv in Hrun
    as (fullScript & collected & Hcollect & Hartifacts).
  apply collectMethods_ranges in Hcollect as (added & Heq & Htiled & Hall).
  cbn [app] in Heq. subst collected.
  eexists _, fullScript, added. split; [exact Hartifacts |].
  repeat split; assumption.
Qed.












(** [compile] returns artifacts exactly when the diagnostics it returns
    hold no error. *)
Theorem compile_artifacts_iff_no_error (options : CompileOptions) :
  is_Some (resultArtifacts (compile options)) <->
  existsb isError (resultDiagnostics (compile options)) = false.
Proof.
  split.
  - intros [a Ha].
    destruct (existsb isError (resultDiagnostics (compile options)))
      eqn:Herror; [| reflexivity].
    unfold compile in Ha, Herror. cbn [resultArtifacts] in Ha.
    cbn [resultDiagnostics] in Herror.
    rewrite (runPasses_error_no_artifacts options Herror) in Ha.
    discriminate.
  - unfold compile, passes.
    cbn [resultDiagnostics resultArtifacts runPasses].
    set (c0 := initialContext options).
    set (c1 := runPass resolveDeclarationsPass c0).
    change (existsb isError (diagnostics c1)) with false. cbv iota.
    set (c2 := runPass processFunctionsPass c1).
    destruct (existsb isError (diagnostics c2)) eqn:E2; [congruence |].
    set (c3 := runPass collectArtifactsPass c2).
    assert (Hresult :
      (if existsb isError (diagnostics c3) then c3 else c3) = c3)
      by (destruct (existsb isError (diagnostics c3)); reflexivity).
    rewrite Hresult. intros E3.
    destruct (runPass_clean _ _ E3) as [u3 H3]. fold c3 in H3.
    apply collectArtifactsPass_inv in H3
      as (fullScript & collected & _ & Hartifacts).
    rewrite Hartifacts. eauto.
Qed.

Lemma storageBuiltin_lookup name calls :
  storageBuiltin !! name = Some calls ->
  calls ∈ [ [SysCall "System.Storage.GetContext"];
            [SysCall "System.Storage.Get"];
            [SysCall "System.Storage.Put"] ].
Proof.
  unfold storageBuiltin. intros Hlookup.
  apply elem_of_list_to_map_2 in Hlookup.
  repeat (apply elem_of_cons in Hlookup as [[= _ <-] | Hlookup];
          [repeat constructor |]).
  apply elem_of_nil in Hlookup. contradiction.
Qed.

Lemma resolveMembers_calls (P : list VmCall -> Prop) iface members :
  (forall name calls, iface !! name = Some calls -> P calls) ->
  forall acc resolved,
    (forall member calls, acc !! member = Some calls -> P calls) ->
    resolveMembers iface members acc = Some resolved ->
    forall member calls, resolved !! member = Some calls -> P calls.
Proof.
  intros Hiface. induction members as [| [memberSymbol |] rest IH];
    intros acc resolved Hacc Hrun; cbn [resolveMembers] in Hrun.
  - injection Hrun as <-. exact Hacc.
  - destruct (iface !! getName memberSymbol) as [[| call calls] |] eqn:Hcalls;
      try (eapply IH; [exact Hacc | exact Hrun]).
    eapply IH; [| exact Hrun]. intros member found Hfound.
    apply lookup_insert_Some in Hfound as [[_ <-] | [_ Hfound]].
    + eapply Hiface. exact Hcalls.
    + eapply Hacc. exact Hfound.
  - discriminate.
Qed.

Lemma resolveChild_calls (P : list VmCall -> Prop) b child :
  (forall calls,
     calls ∈ [ [SysCall "System.Storage.GetContext"];
               [SysCall "System.Storage.Get"];
               [SysCall "System.Storage.Put"] ] -> P calls) ->
  (forall id resolved member calls,
     interfaces b !! id = Some resolved ->
     resolved !! member = Some calls -> P calls) ->
  forall id resolved member calls,
    interfaces (resolveChild b child) !! id = Some resolved ->
    resolved !! member = Some calls -> P calls.
Proof.
  intros Hstorage Hb. unfold resolveChild.
  destruct child as [[symbol |] members | declarations | |];
    try exact Hb.
  destruct (builtinInterfaces !! getName symbol) as [iface |] eqn:Hiface;
    [| exact Hb].
  destruct (resolveMembers iface members ∅) as [found |] eqn:Hfound;
    [| exact Hb].
  intros id resolved member calls Hid Hmember. cbn [interfaces] in Hid.
  apply lookup_insert_Some in Hid as [[_ <-] | [_ Hid]].
  - unfold builtinInterfaces in Hiface.
    apply lookup_singleton_Some in Hiface as [_ <-].
    eapply (resolveMembers_calls P storageBuiltin members);
      [| | exact Hfound | exact Hmember].
    + intros name found' Hlookup. apply Hstorage.
      eapply storageBuiltin_lookup. exact Hlookup.
    + intros m c Hempty. rewrite lookup_empty in Hempty. discriminate.
  - eapply Hb; eassumption.
Qed.

Lemma foldl_invariant {A B} (I : A -> Prop) (f : A -> B -> A) items :
  (forall a item, I a -> I (f a item)) ->
  forall a, I a -> I (foldl f a items).
Proof.
  intros Hstep. induction items as [| item rest IH]; intros a Ha;
    [exact Ha |].
  cbn [foldl]. apply IH. apply Hstep. exact Ha.
Qed.

(** X22. The only calls [resolveDeclarationsPass] records for a member of an
    interface are the three storage system calls. *)
Theorem resolveDeclarationsPass_storage_calls
    (context : CompilationContext) (b : Builtins)
    (id member : positive) (resolved : gmap positive (list VmCall))
    (calls : list VmCall) :
  builtins (resolveDeclarationsPass context).2 = Some b ->
  interfaces b !! id = Some resolved ->
  resolved !! member = Some calls ->
  calls ∈ [ [SysCall "System.Storage.GetContext"];
            [SysCall "System.Storage.Get"];
            [SysCall "System.Storage.Put"] ].
Proof.
  unfold resolveDeclarationsPass. cbn [snd builtins setBuiltins].
  intros [= <-]. revert id resolved member calls.
  set (I := fun b : Builtins =>
              forall id resolved member calls,
                interfaces b !! id = Some resolved ->
                resolved !! member = Some calls ->
                calls ∈ [ [SysCall "System.Storage.GetContext"];
                          [SysCall "System.Storage.Get"];
                          [SysCall "System.Storage.Put"] ]).
  apply (foldl_invariant I).
  - intros b src Hb. destruct (isDeclarationFile src); cbn [negb];
      [| exact Hb].
    apply (foldl_invariant I); [| exact Hb]. intros b' child Hb'.
    unfold I. apply (resolveChild_calls _ b' child); [auto | exact Hb'].
  - intros id resolved member calls Hid. cbn [interfaces] in Hid.
    rewrite lookup_empty in Hid. discriminate.
Qed.

End PassExtras.

Lemma toMethodDef_entry_witness :
  let greet :=
    mkFunctionDeclaration (Some "greet") true
      [mkParameter "name" stringType] stringType (Some sampleBody) in
  let def :=
    mkContractMethodDefinition "greet" 7 [("name", Any)] (Some Any) in
  @toMethodDef sampleCollaborators greet 7 = Ok (Some def) /\
  functionName greet = Some (methodName def).
Proof.
  intros greet def.
  assert (Hrun : @toMethodDef sampleCollaborators greet 7 = Ok (Some def))
    by reflexivity.
  split; [exact Hrun |].
  exact (proj1 (proj2 (@toMethodDef_entry sampleCollaborators greet 7 def
                         Hrun))).
Defined.


Lemma collectArtifactsPass_ranges_witness :
  let context :=
    (@processFunctionsPass sampleCollaborators
       (initialContext (sampleOptions [helloWorld; helper]))).2 in
  let run := @collectArtifactsPass sampleCollaborators context in
  exists a fullScript collected,
    artifacts run.2 = Some a /\
    script (nef a) = Codec.Buffer_toString_hex fullScript /\
    abiMethods (manifest a) = omap methodDef collected /\
    methods (debugInfo a) = map debug collected /\
    tiled 0 (methods (debugInfo a)) (Z.of_nat (List.length fullScript)) /\
    Forall2 collectedFrom (default [] (operations context)) collected.
Proof.
  intros context run.
  apply (@collectArtifactsPass_ranges sampleCollaborators context tt run.2).
  reflexivity.
Defined.


Lemma resolveDeclarationsPass_storage_calls_witness :
  let storage :=
    InterfaceDeclaration (Some (mkSymbol 1 "StorageConstructor"))
      [Some (mkSymbol 2 "get"); Some (mkSymbol 3 "find")] in
  let context :=
    initialContext
      (mkCompileOptions (mkProject [mkSourceFile true [storage]])
         None None None) in
  let b := default (mkBuiltins ∅ ∅)
             (builtins (resolveDeclarationsPass context).2) in
  let resolved := default ∅ (interfaces b !! 1%positive) in
  let calls := default [] (resolved !! 2%positive) in
  calls = [SysCall "System.Storage.Get"] /\
  resolved !! 3%positive = None /\
  calls ∈ [ [SysCall "System.Storage.GetContext"];
            [SysCall "System.Storage.Get"];
            [SysCall "System.Storage.Put"] ].
Proof.
  intros storage context b resolved calls.
  split; [vm_compute; reflexivity |]. split; [vm_compute; reflexivity |].
  apply (resolveDeclarationsPass_storage_calls context b 1%positive
           2%positive resolved calls);
    vm_compute; reflexivity.
Defined.

End CompilerExtras.

(** ** Properties of the built-in symbols *)

Module BuiltinExtras.
Import Codec CodecSpec CodecFacts Expr BuiltinDefs ExprExtras.

Lemma pair_ind {A} (P : list A -> Prop) :
  P [] -> (forall a, P [a]) ->
  (forall a b rest, P rest -> P (a :: b :: rest)) ->
  forall items, P items.
Proof.
  intros Hnil Hone Hpair items.
  assert (Hboth : P items /\ forall a, P (a :: items)).
  { induction items as [| b rest [IH IHcons]].
    - split; [exact Hnil | exact Hone].
    - split; [apply IHcons |]. intros a. apply Hpair. exact IH. }
  exact (proj1 Hboth).
Qed.

Lemma hexPairs_length_le cs :
  (List.length (hexPairs cs) * 2 <= List.length cs)%nat.
Proof.
  induction cs as [| c | hi lo rest IH] using pair_ind;
    cbn [hexPairs List.length]; try lia.
  destruct (hexValue hi), (hexValue lo); cbn [List.length]; lia.
Qed.

Lemma hexPairs_complete cs :
  (List.length (hexPairs cs) * 2 = List.length cs)%nat <->
  Forall (fun c => is_Some (hexValue c)) cs /\ Nat.Even (List.length cs).
Proof.
  induction cs as [| c | hi lo rest IH] using pair_ind.
  - split; [| reflexivity]. intros _. split; [constructor | exists 0%nat].
    reflexivity.
  - cbn [hexPairs List.length]. split; [discriminate |].
    intros [_ [k Hk]]. lia.
  - cbn [hexPairs]. pose proof (hexPairs_length_le rest) as Hle.
    destruct (hexValue hi) as [h |] eqn:Hhi;
      [destruct (hexValue lo) as [l |] eqn:Hlo |].
    + cbn [List.length]. split.
      * intros Hlen. assert (Hrest :
          (List.length (hexPairs rest) * 2 = List.length rest)%nat) by lia.
        apply IH in Hrest as [Hall [k Hk]]. split.
        -- constructor; [rewrite Hhi; eauto |].
           constructor; [rewrite Hlo; eauto | exact Hall].
        -- exists (S k). lia.
      * intros [Hall [k Hk]].
        apply Forall_cons in Hall as [_ Hall].
        apply Forall_cons in Hall as [_ Hall].
        assert (Hrest :
          (List.length (hexPairs rest) * 2 = List.length rest)%nat).
        { apply IH. split; [exact Hall |]. exists (k - 1)%nat. lia. }
        lia.
    + cbn [List.length]. split; [lia |]. intros [Hall _].
      apply Forall_cons in Hall as [_ Hall].
      apply Forall_cons in Hall as [[? Hsome] _].
      rewrite Hlo in Hsome. discriminate.
    + cbn [List.length]. split; [lia |]. intros [Hall _].
      apply Forall_cons in Hall as [[? Hsome] _].
      rewrite Hhi in Hsome. discriminate.
Qed.

Lemma length_list_ascii_of_string s :
  List.length (list_ascii_of_string s) = String.length s.
Proof. induction s as [| c s IH]; [reflexivity |]. cbn. rewrite IH. reflexivity. Qed.

(** X23. [fromHex] accepts exactly the strings that, once a leading [0x] or
    [0X] is removed, are an even number of hexadecimal digits: an odd
    length or any other character gives [none], never a shorter
    buffer. *)
Theorem fromHex_accepts (value : string) :
  is_Some (fromHex value) <->
  Forall (fun c => is_Some (hexValue c))
    (list_ascii_of_string (stripHexPrefix value)) /\
  Nat.Even (String.length (stripHexPrefix value)).
Proof.
  unfold fromHex, Buffer_from_hex. cbn [mbind option_bind].
  rewrite <- (length_list_ascii_of_string (stripHexPrefix value)).
  rewrite <- hexPairs_complete.
  destruct (Nat.eqb_spec
    (List.length (hexPairs (list_ascii_of_string (stripHexPrefix value))) * 2)
    (List.length (list_ascii_of_string (stripHexPrefix value))))
    as [Heq | Hne].
  - split; [intros _; exact Heq | eauto].
  - split; [intros [? [=]] | intros Heq; contradiction].
Qed.

Lemma hexDigit_not_x d : hexDigit d <> "x"%char /\ hexDigit d <> "X"%char.
Proof.
  unfold hexDigit. destruct d as [| p | p]; [split; discriminate | |
    split; discriminate].
  do 4 (try destruct p as [p | p |]); split; discriminate.
Qed.

Lemma hexPairs_toString bytes :
  isBytes bytes ->
  hexPairs (flat_map (fun b => [hexDigit (b / 16); hexDigit (b mod 16)]) bytes)
  = bytes.
Proof.
  induction 1 as [| b rest Hb _ IH]; [reflexivity |].
  cbn [flat_map app hexPairs].
  rewrite !hexValue_hexDigit
    by (split; [apply Z.div_pos || apply Z.mod_pos_bound; lia
               | apply Z.div_lt_upper_bound || apply Z.mod_pos_bound; lia]).
  rewrite IH. f_equal. pose proof (Z.div_mod b 16). lia.
Qed.

Lemma stripHexPrefix_toString bytes :
  stripHexPrefix (Buffer_toString_hex bytes) = Buffer_toString_hex bytes.
Proof.
  unfold stripHexPrefix, Buffer_toString_hex.
  destruct bytes as [| b rest]; [reflexivity |].
  cbn [flat_map app string_of_list_ascii String.prefix].
  destruct (hexDigit_not_x (b mod 16)) as [Hx HX].
  destruct (ascii_dec "0" (hexDigit (b / 16))) as [_ | _];
    destruct (ascii_dec "x" (hexDigit (b mod 16))) as [E | _];
    try (symmetry in E; contradiction);
    destruct (ascii_dec "X" (hexDigit (b mod 16))) as [E | _];
    try (symmetry in E; contradiction); reflexivity.
Qed.

Lemma substring_all s : String.substring 0 (String.length s) s = s.
Proof. induction s as [| c s IH]; [reflexivity |]. cbn. rewrite IH. reflexivity. Qed.

Lemma stripHexPrefix_prefixed x s :
  x = "x"%char \/ x = "X"%char ->
  stripHexPrefix (String "0" (String x s)) = s.
Proof.
  assert (Hempty : String.prefix "" s = true) by (destruct s; reflexivity).
  intros [-> | ->]; unfold stripHexPrefix; cbn; rewrite Hempty;
    cbn; rewrite Nat.sub_0_r; apply substring_all.
Qed.

Lemma fromHex_stripped value bytes :
  isBytes bytes ->
  stripHexPrefix value = Buffer_toString_hex bytes ->
  fromHex value = Some bytes.
Proof.
  intros Hbytes Hstrip. unfold fromHex, Buffer_from_hex.
  rewrite Hstrip. unfold Buffer_toString_hex.
  rewrite <- length_list_ascii_of_string.
  rewrite list_ascii_of_string_of_list_ascii.
  rewrite (hexPairs_toString bytes Hbytes). cbn [mbind option_bind].
  assert (Hlen :
    (List.length bytes * 2
     = List.length
         (flat_map (fun b => [hexDigit (b / 16); hexDigit (b mod 16)])
            bytes))%nat).
  { clear. induction bytes as [| b rest IH]; [reflexivity |].
    cbn [flat_map app List.length]. lia. }
  rewrite <- Hlen, Nat.eqb_refl. reflexivity.
Qed.

(** X24. [fromHex] reads back the hex text of a buffer, with or without a
    [0x] or [0X] before it. *)
Theorem fromHex_toString_hex (bytes : list Z) :
  isBytes bytes ->
  fromHex (Buffer_toString_hex bytes) = Some bytes /\
  fromHex ("0x" +:+ Buffer_toString_hex bytes) = Some bytes /\
  fromHex ("0X" +:+ Buffer_toString_hex bytes) = Some bytes.
Proof.
  intros Hbytes. repeat split; apply fromHex_stripped; try exact Hbytes.
  - apply stripHexPrefix_toString.
  - apply stripHexPrefix_prefixed. left. reflexivity.
  - apply stripHexPrefix_prefixed. right. reflexivity.
Qed.

Lemma fromHex_toString_hex_witness :
  fromHex "0a0bff" = Some [10; 11; 255] /\
  fromHex "0x0a0bff" = Some [10; 11; 255].
Proof.
  assert (Hbytes : isBytes [10; 11; 255]) by (repeat constructor; lia).
  destruct (fromHex_toString_hex [10; 11; 255] Hbytes) as (H1 & H2 & _).
  split; [exact H1 | exact H2].
Defined.


Section CallFacts.
Context `{Collaborators}.

Lemma parseExpression_next scope node next :
  (parseExpression scope node next).2 = S next.
Proof.
  unfold parseExpression.
  destruct (error (foldl reduceExpressionChain _ _)); reflexivity.
Qed.

Lemma parseEach_results scope args :
  forall next,
    parseEach scope args next
    = (imap (fun i arg => (parseExpression scope arg (next + i)%nat).1) args,
       (next + List.length args)%nat).
Proof.
  induction args as [| arg rest IH]; intros next.
  - cbn. rewrite Nat.add_0_r. reflexivity.
  - cbn [parseEach imap List.length].
    pose proof (parseExpression_next scope arg next) as Hnext.
    rewrite Nat.add_0_r.
    destruct (parseExpression scope arg next) as [result next'].
    cbn [fst snd] in *. subst next'. rewrite IH. f_equal.
    + f_equal. apply imap_ext. intros i a _. cbn.
      rewrite Nat.add_succ_r. reflexivity.
    + lia.
Qed.

Lemma ROA_sequence_inr {E A} (results : list (E + A)) values :
  ROA_sequence results = inr values -> results = map inr values.
Proof.
  revert values. induction results as [| [e | a] rest IH]; intros values.
  - intros [= <-]. reflexivity.
  - discriminate.
  - cbn. destruct (ROA_sequence rest) as [e | found]; [discriminate |].
    intros [= <-]. cbn. f_equal. apply IH. reflexivity.
Qed.

Lemma ROA_sequence_inl {E A} (results : list (E + A)) e :
  ROA_sequence results = inl e ->
  exists values rest, results = map inr values ++ inl e :: rest.
Proof.
  induction results as [| [e' | a] rest IH].
  - discriminate.
  - intros [= <-]. exists [], rest. reflexivity.
  - cbn. destruct (ROA_sequence rest) as [e' | found]; [| discriminate].
    intros [= <-]. destruct (IH eq_refl) as (values & after & ->).
    exists (a :: values), after. reflexivity.
Qed.

Lemma ROA_sequence_rights {E A} (values : list A) :
  @ROA_sequence E A (map inr values) = inr values.
Proof.
  induction values as [| a rest IH]; [reflexivity |].
  cbn. rewrite IH. reflexivity.
Qed.

(** X25. [parseArgArray] parses every argument, the [i]-th with the [i]-th
    object created as its end target. When all parse, the operations of
    the arguments are put in reverse order of the arguments, those of
    the last argument first; otherwise the error is that of the first
    argument, in source order, that does not parse. *)
Theorem parseArgArray_reverses
    (scope : Scope) (args : list Expression) (next : nat) :
  let results :=
    imap (fun i arg => (parseExpression scope arg (next + i)%nat).1) args in
  (parseArgArray scope args next).2 = (next + List.length args)%nat /\
  match (parseArgArray scope args next).1 with
  | inr operations =>
      exists parts,
        results = map inr parts /\ operations = concat (reverse parts)
  | inl e =>
      exists parts rest, results = map inr parts ++ inl e :: rest
  end.
Proof.
  intros results. unfold parseArgArray.
  rewrite parseEach_results. fold results. cbn [fst snd].
  split; [reflexivity |].
  destruct (ROA_sequence results) as [e | parts] eqn:Hsequence; cbn.
  - apply ROA_sequence_inl. exact Hsequence.
  - exists parts. split; [| reflexivity].
    apply ROA_sequence_inr. exact Hsequence.
Qed.

Lemma parseArgArray_parts scope args parts next :
  Forall2 (fun arg part =>
             forall n, (parseExpression scope arg n).1 = inr part)
    args parts ->
  parseArgArray scope args next
  = (inr (concat (reverse parts)), (next + List.length args)%nat).
Proof.
  intros Hparts. unfold parseArgArray. rewrite parseEach_results.
  assert (Hresults :
    imap (fun i arg => (parseExpression scope arg (next + i)%nat).1) args
    = map inr parts).
  { revert next. induction Hparts as [| arg part args parts Harg _ IH];
      intros next; [reflexivity |].
    cbn [imap map]. rewrite Harg. f_equal.
    rewrite <- (IH (S next)). apply imap_ext. intros i a _. cbn.
    rewrite Nat.add_succ_r. reflexivity. }
  rewrite Hresults, ROA_sequence_rights. reflexivity.
Qed.

(** X26. The arguments of [callContract], when each parses to the same
    operations whatever object is its end target: fewer than three
    arguments are an error; otherwise the operations are those of the
    arguments after the third, last one first, then their count and
    [pack], then those of the first three arguments, third one first,
    then the [System.Contract.Call] system call. *)
Theorem callContractArguments_layout
    (scope : Scope) (node : Expression) (args : list Expression)
    (parts : list (list Operation)) (next : nat) :
  Forall2 (fun arg part =>
             forall n, (parseExpression scope arg n).1 = inr part)
    args parts ->
  (callContractArguments scope node args next).1
  = if (List.length args <? 3)%nat
    then inl (makeParseError node "invalid arg count")
    else inr (concat (reverse (drop 3 parts))
                ++ [pushint (Z.of_nat (List.length args - 3));
                    simple "pack"]
                ++ concat (reverse (take 3 parts))
                ++ [syscall "System.Contract.Call"]).
Proof.
  intros Hparts. unfold callContractArguments.
  rewrite length_take.
  destruct (Nat.ltb_spec (List.length args) 3) as [Hshort | Hlong].
  - destruct (Nat.eqb_spec (3 `min` List.length args) 3);
      [lia | reflexivity].
  - replace (3 `min` List.length args)%nat with 3%nat by lia.
    cbn [Nat.eqb negb].
    rewrite (parseArgArray_parts scope (drop 3 args) (drop 3 parts))
      by (apply Forall2_drop; exact Hparts).
    cbn [E_map]. 
    rewrite (parseArgArray_parts scope (take 3 args) (take 3 parts))
      by (apply Forall2_take; exact Hparts).
    cbn [E_map fst]. unfold ROA_concat, ROA_append.
    rewrite length_drop, <- !app_assoc. reflexivity.
Qed.

End CallFacts.

Lemma callContractArguments_layout_witness :
  let args := map BigIntLiteral [1; 2; 3; 4; 5] in
  (@callContractArguments Expr.sampleCollaborators tt (NullKeyword) args
     0%nat).1
  = inr [pushint 5; pushint 4; pushint 2; simple "pack";
         pushint 3; pushint 2; pushint 1;
         syscall "System.Contract.Call"].
Proof.
  intros args.
  apply (@callContractArguments_layout Expr.sampleCollaborators tt
           NullKeyword args
           (map (fun v => [pushint v]) [1; 2; 3; 4; 5]) 0%nat).
  repeat constructor.
Defined.

End BuiltinExtras.

(** ** Properties of the library pass *)

Module LibraryFacts.
Import Library.
Local Open Scope nat_scope.

Lemma size_unparsed (universe parsed : gset string) (path : string) :
  path ∈ universe -> path ∉ parsed ->
  size (universe ∖ ({[ path ]} ∪ parsed)) < size (universe ∖ parsed).
Proof.
  intros Hin Hfresh.
  assert (Hsplit :
    universe ∖ parsed = {[ path ]} ∪ universe ∖ ({[ path ]} ∪ parsed)).
  { apply set_eq. intros other.
    rewrite elem_of_union, !elem_of_difference, elem_of_union,
      elem_of_singleton.
    destruct (decide (other = path)) as [-> | Hne]; tauto. }
  pose proof (size_union ({[ path ]} : gset string)
                (universe ∖ ({[ path ]} ∪ parsed))) as Hsize.
  rewrite <- Hsplit, size_singleton in Hsize.
  rewrite Hsize; [lia |].
  intros other Hone Hrest. apply elem_of_singleton in Hone as ->.
  apply elem_of_difference in Hrest as [_ Hrest]. apply Hrest.
  apply elem_of_union. left. apply elem_of_singleton. reflexivity.
Qed.

Lemma firstByPath_fresh files :
  forall seen v, v ∈ firstByPath seen files -> getFilePath v ∉ seen.
Proof.
  induction files as [| file rest IH]; intros seen v Hv.
  - apply elem_of_nil in Hv. contradiction.
  - cbn [firstByPath] in Hv.
    destruct (decide (getFilePath file ∈ seen)) as [Hseen | Hfresh].
    + apply IH. exact Hv.
    + apply elem_of_cons in Hv as [-> | Hv]; [exact Hfresh |].
      apply IH in Hv. intros Hin. apply Hv. apply elem_of_union. right.
      exact Hin.
Qed.

Lemma visitOrder_seen references seen file initial visited :
  getFilePath file ∈ seen ->
  visitOrder references seen (file :: initial) visited ->
  visitOrder references seen initial visited.
Proof.
  intros Hseen [Horder Hreached]. cbn [app firstByPath] in Horder.
  rewrite decide_True in Horder by exact Hseen.
  split; [exact Horder |]. intros earlier v later Heq.
  destruct (Hreached earlier v later Heq) as [Hin | Hin];
    [| right; exact Hin].
  apply elem_of_cons in Hin as [-> | Hin]; [| left; exact Hin].
  exfalso.
  assert (Hlisted :
    file ∈ firstByPath seen (initial ++ flat_map references visited)).
  { rewrite <- Horder, Heq. apply elem_of_app. right.
    apply elem_of_cons. left. reflexivity. }
  exact (firstByPath_fresh _ _ _ Hlisted Hseen).
Qed.

Lemma visitOrder_fresh references seen file initial visited :
  getFilePath file ∉ seen ->
  visitOrder references seen (file :: initial) visited ->
  exists rest,
    visited = file :: rest /\
    visitOrder references ({[ getFilePath file ]} ∪ seen)
      (initial ++ references file) rest.
Proof.
  intros Hfresh [Horder Hreached]. cbn [app firstByPath] in Horder.
  rewrite decide_False in Horder by exact Hfresh.
  destruct visited as [| first rest]; [discriminate |].
  injection Horder as <- Horder. exists rest. split; [reflexivity |].
  cbn [flat_map] in Horder. rewrite app_assoc in Horder.
  split; [exact Horder |]. intros earlier v later Heq.
  destruct (Hreached (first :: earlier) v later) as [Hin | (w & Hw & Hin)].
  - rewrite Heq. reflexivity.
  - apply elem_of_cons in Hin as [-> | Hin].
    + exfalso.
      assert (Hlisted :
        first ∈ firstByPath ({[ getFilePath first ]} ∪ seen)
                  ((initial ++ references first)
                     ++ flat_map references rest)).
      { rewrite <- Horder, Heq. apply elem_of_app. right.
        apply elem_of_cons. left. reflexivity. }
      apply (firstByPath_fresh _ _ _ Hlisted).
      apply elem_of_union. left. apply elem_of_singleton. reflexivity.
    + left. apply elem_of_app. left. exact Hin.
  - apply elem_of_cons in Hw as [-> | Hw].
    + left. apply elem_of_app. right. exact Hin.
    + right. exists w. split; assumption.
Qed.

Lemma visitOrder_empty references seen visited :
  visitOrder references seen [] visited -> visited = [].
Proof.
  intros [_ Hreached]. destruct visited as [| v later]; [reflexivity |].
  destruct (Hreached [] v later eq_refl) as [Hin | (w & Hw & _)].
  - apply elem_of_nil in Hin. contradiction.
  - apply elem_of_nil in Hw. contradiction.
Qed.

(** The visit order is fixed by the references. *)
Lemma visitOrder_unique references visited :
  forall initial seen other,
    visitOrder references seen initial visited ->
    visitOrder references seen initial other ->
    other = visited.
Proof.
  induction visited as [| first rest IHvisited];
    induction initial as [| file initial IHinitial];
    intros seen other Hvisited Hother.
  - apply (visitOrder_empty _ _ _ Hother).
  - destruct (decide (getFilePath file ∈ seen)) as [Hseen | Hfresh].
    + apply (IHinitial seen); eapply visitOrder_seen; eassumption.
    + apply (visitOrder_fresh _ _ _ _ _ Hfresh) in Hvisited
        as (? & [=] & _).
  - apply visitOrder_empty in Hvisited. discriminate.
  - destruct (decide (getFilePath file ∈ seen)) as [Hseen | Hfresh].
    + apply (IHinitial seen); eapply visitOrder_seen; eassumption.
    + apply (visitOrder_fresh _ _ _ _ _ Hfresh) in Hvisited
        as (rest1 & [= -> <-] & Hrest1).
      apply (visitOrder_fresh _ _ _ _ _ Hfresh) in Hother
        as (rest2 & -> & Hrest2).
      f_equal. eapply IHvisited; eassumption.
Qed.

Section PassFacts.
Context `{Collaborators}.
Variable resolver : Resolver.

(** The files a source file refers to, once resolved, and the
    references of it that do not resolve. *)
Lemma libDecl_concat_empty_l d : libDecl_concat libDecl_empty d = d.
Proof. destruct d. reflexivity. Qed.

Lemma libDecl_concat_empty_r d : libDecl_concat d libDecl_empty = d.
Proof.
  destruct d. unfold libDecl_concat, Expr.ROA_concat. cbn.
  rewrite !app_nil_r. reflexivity.
Qed.

Lemma parseLibrarySourceFile_action src declarations :
  parseLibrarySourceFile resolver src declarations
  = ((parseLibrarySourceFile resolver src libDecl_empty).1,
     libDecl_concat (contribution resolver src) declarations).
Proof.
  unfold contribution, parseLibrarySourceFile.
  destruct (globalModulesLoop _ _) as [childDecls |]; cbn [fst snd].
  - rewrite libDecl_concat_empty_r. reflexivity.
  - rewrite libDecl_concat_empty_l. reflexivity.
Qed.

Lemma globalModulesLoop_missing_body modules :
  None ∈ modules ->
  forall childDecls, globalModulesLoop modules childDecls = None.
Proof.
  induction modules as [| [body |] rest IH]; intros Hin childDecls.
  - apply elem_of_nil in Hin. contradiction.
  - cbn [globalModulesLoop]. apply IH.
    apply elem_of_cons in Hin as [[=] | Hin]. exact Hin.
  - reflexivity.
Qed.

(** X29. A source file with a global module that has no body contributes
    nothing: its own declarations are dropped with those of its
    modules, its references are not followed, and the one result is a
    failure named after the file. *)
Theorem parseLibrarySourceFile_module_without_body
    (src : SourceFile) (declarations : LibraryDeclarations) :
  ModuleDeclarationNode true None ∈ getChildren src ->
  parseLibrarySourceFile resolver src declarations
  = ([inl (basename (getFilePath src) +:+ " global module")],
     declarations).
Proof.
  intros Hmodule. unfold parseLibrarySourceFile.
  rewrite globalModulesLoop_missing_body; [reflexivity |].
  apply list_elem_of_omap. eexists. split; [exact Hmodule | reflexivity].
Qed.

Lemma libraryLoop_done fuel parsed declarations failures :
  libraryLoop resolver fuel [] parsed declarations failures
  = Some (declarations, failures).
Proof. destruct fuel; reflexivity. Qed.

Lemma libraryLoop_step fuel head rest parsed declarations failures :
  libraryLoop resolver (S fuel) (head :: rest) parsed declarations failures
  = if decide (getFilePath head ∈ parsed)
    then libraryLoop resolver fuel rest parsed declarations failures
    else
      let results := (parseLibrarySourceFile resolver head libDecl_empty).1 in
      libraryLoop resolver fuel (rest ++ rights results)
        ({[ getFilePath head ]} ∪ parsed)
        (libDecl_concat (contribution resolver head) declarations)
        (failures ++ lefts results).
Proof.
  cbn [libraryLoop]. destruct (decide _); [reflexivity |].
  rewrite parseLibrarySourceFile_action. reflexivity.
Qed.

Lemma libraryLoop_visits fuel :
  forall sources parsed declarations failures declarations' failures',
    libraryLoop resolver fuel sources parsed declarations failures
      = Some (declarations', failures') ->
    exists visited,
      NoDup (map getFilePath visited) /\
      (forall v, v ∈ visited -> getFilePath v ∉ parsed) /\
      declarations'
      = foldl (fun acc src => libDecl_concat (contribution resolver src) acc)
          declarations visited /\
      failures'
      = failures
          ++ flat_map
               (fun v =>
                  lefts (parseLibrarySourceFile resolver v libDecl_empty).1)
               visited /\
      (forall src, src ∈ sources ->
         getFilePath src ∈ parsed \/
         getFilePath src ∈ map getFilePath visited) /\
      (forall v src,
         v ∈ visited ->
         src ∈ rights (parseLibrarySourceFile resolver v libDecl_empty).1 ->
         getFilePath src ∈ parsed \/
         getFilePath src ∈ map getFilePath visited) /\
      visited
      = firstByPath parsed
          (sources
             ++ flat_map
                  (fun v =>
                     rights
                       (parseLibrarySourceFile resolver v libDecl_empty).1)
                  visited) /\
      (forall earlier v later,
         visited = earlier ++ v :: later ->
         v ∈ sources \/
         exists w,
           w ∈ earlier /\
           v ∈ rights (parseLibrarySourceFile resolver w libDecl_empty).1).
Proof.
  induction fuel as [| fuel IH];
    intros [| head rest] parsed declarations failures declarations'
      failures' Hrun.
  1, 3: rewrite libraryLoop_done in Hrun; injection Hrun as <- <-;
    exists []; cbn [map foldl flat_map]; rewrite app_nil_r;
    (split; [apply NoDup_nil_2 |]);
    (split; [intros v Hin; apply elem_of_nil in Hin; contradiction |]);
    (split; [reflexivity |]); (split; [reflexivity |]);
    (split; [intros src Hin; apply elem_of_nil in Hin; contradiction |]);
    (split; [intros v src Hin; apply elem_of_nil in Hin; contradiction |]);
    (split; [reflexivity |]);
    intros [| ? ?] v later Heq; discriminate Heq.
  - discriminate.
  - rewrite libraryLoop_step in Hrun.
    destruct (decide (getFilePath head ∈ parsed)) as [Hparsed | Hfresh].
    + apply IH in Hrun
        as (visited & Hnodup & Hnew & Hdecl & Hfail & Hsources & Hclosed
            & Horder & Hreached).
      exists visited.
      split; [exact Hnodup |]. split; [exact Hnew |].
      split; [exact Hdecl |]. split; [exact Hfail |].
      split; [| split; [exact Hclosed | split]].
      * intros src Hsrc. apply elem_of_cons in Hsrc as [-> | Hsrc].
        -- left. exact Hparsed.
        -- apply Hsources. exact Hsrc.
      * cbn [app firstByPath]. rewrite decide_True by exact Hparsed.
        exact Horder.
      * intros earlier v later Heq.
        destruct (Hreached earlier v later Heq) as [Hin | Hin];
          [left; apply elem_of_cons; right; exact Hin | right; exact Hin].
    + cbv zeta in Hrun. apply IH in Hrun
        as (visited & Hnodup & Hnew & Hdecl & Hfail & Hsources & Hclosed
            & Horder & Hreached).
      assert (Hhead : getFilePath head ∉ map getFilePath visited).
      { intros Hin. apply list_elem_of_fmap in Hin as (v & Hpath & Hv).
        apply (Hnew v Hv). rewrite <- Hpath.
        apply elem_of_union. left. apply elem_of_singleton. reflexivity. }
      assert (Hshift : forall path,
        path ∈ {[ getFilePath head ]} ∪ parsed \/
        path ∈ map getFilePath visited ->
        path ∈ parsed \/ path ∈ map getFilePath (head :: visited)).
      { intros path [Hin | Hin].
        - apply elem_of_union in Hin as [Hin | Hin].
          + right. apply elem_of_singleton in Hin as ->. cbn [map].
            apply elem_of_cons. left. reflexivity.
          + left. exact Hin.
        - right. cbn [map]. apply elem_of_cons. right. exact Hin. }
      exists (head :: visited). split; [| split; [| split; [| split;
        [| split; [| split; [| split]]]]]].
      * cbn [map]. apply NoDup_cons. split; assumption.
      * intros v Hv. apply elem_of_cons in Hv as [-> | Hv];
          [exact Hfresh |].
        intros Hin. apply (Hnew v Hv). apply elem_of_union. right.
        exact Hin.
      * exact Hdecl.
      * rewrite Hfail. cbn [flat_map]. rewrite <- app_assoc. reflexivity.
      * intros src Hsrc. apply elem_of_cons in Hsrc as [-> | Hsrc].
        -- right. cbn [map]. apply elem_of_cons. left. reflexivity.
        -- apply Hshift, Hsources. apply elem_of_app. left. exact Hsrc.
      * intros v src Hv Hsrc. apply Hshift.
        apply elem_of_cons in Hv as [-> | Hv].
        -- apply Hsources. apply elem_of_app. right. exact Hsrc.
        -- eapply Hclosed; eassumption.
      * cbn [app flat_map firstByPath].
        rewrite decide_False by exact Hfresh. f_equal.
        rewrite <- app_assoc in Horder. exact Horder.
      * intros [| first earlier] v later Heq; injection Heq as <- Heq.
        -- left. apply elem_of_cons. left. reflexivity.
        -- destruct (Hreached earlier v later Heq) as [Hin | (w & Hw & Hin)].
           ++ apply elem_of_app in Hin as [Hin | Hin].
              ** left. apply elem_of_cons. right. exact Hin.
              ** right. exists head. split; [| exact Hin].
                 apply elem_of_cons. left. reflexivity.
           ++ right. exists w. split; [| exact Hin].
              apply elem_of_cons. right. exact Hw.
Qed.

Section Termination.
Variable universe : gset string.
Hypothesis resolveLib_universe :
  forall name src,
    resolveLib resolver name = inr src -> getFilePath src ∈ universe.
Hypothesis resolveTypes_universe :
  forall name src,
    resolveTypes resolver name = inr src -> getFilePath src ∈ universe.

Lemma resolveReferences_universe libs types src :
  src ∈ rights (resolveReferences resolver libs types) ->
  getFilePath src ∈ universe.
Proof.
  unfold rights, resolveReferences, Expr.ROA_concat. intros Hsrc.
  apply list_elem_of_omap in Hsrc as ([e | found] & Hin & [= <-]).
  apply elem_of_app in Hin as [Hin | Hin];
    apply list_elem_of_fmap in Hin as (name & Hresolve & _);
    symmetry in Hresolve; eauto.
Qed.

Lemma references_universe src found :
  found ∈ rights (parseLibrarySourceFile resolver src libDecl_empty).1 ->
  getFilePath found ∈ universe.
Proof.
  unfold parseLibrarySourceFile.
  destruct (globalModulesLoop _ _); cbn [fst].
  - apply resolveReferences_universe.
  - intros Hin. cbn in Hin. apply elem_of_nil in Hin. contradiction.
Qed.

Lemma libraryLoop_terminates n :
  forall sources parsed declarations failures,
    size (universe ∖ parsed) < n ->
    Forall (fun src => getFilePath src ∈ universe) sources ->
    exists fuel,
      forall fuel', fuel <= fuel' ->
        is_Some (libraryLoop resolver fuel' sources parsed declarations
                   failures).
Proof.
  induction n as [| n IHn]; [intros; lia |].
  induction sources as [| head rest IHs];
    intros parsed declarations failures Hsize Hall.
  - exists 0. intros fuel' _. rewrite libraryLoop_done. eauto.
  - apply Forall_cons in Hall as [Hhead Hrest].
    destruct (decide (getFilePath head ∈ parsed)) as [Hparsed | Hfresh].
    + destruct (IHs parsed declarations failures Hsize Hrest)
        as [fuel Hfuel].
      exists (S fuel). intros [| fuel'] Hle; [lia |].
      rewrite libraryLoop_step, decide_True by exact Hparsed.
      apply Hfuel. lia.
    + set (results := (parseLibrarySourceFile resolver head libDecl_empty).1).
      destruct (IHn (rest ++ rights results)
                  ({[ getFilePath head ]} ∪ parsed)
                  (libDecl_concat (contribution resolver head) declarations)
                  (failures ++ lefts results)) as [fuel Hfuel].
      * pose proof (size_unparsed universe parsed (getFilePath head)
                      Hhead Hfresh).
        lia.
      * apply Forall_app. split; [exact Hrest |].
        apply Forall_forall. intros found Hfound.
        eapply references_universe. exact Hfound.
      * exists (S fuel). intros [| fuel'] Hle; [lia |].
        rewrite libraryLoop_step, decide_False by exact Hfresh.
        apply Hfuel. lia.
Qed.

End Termination.

End PassFacts.

Section ProjectFacts.
Context `{Collaborators}.

(** X28. [parseProjectLibrary] returns when the files its resolver can give
    have finitely many paths: from some number of turns on, the loop
    ends within the bound. *)
Theorem parseProjectLibrary_returns
    (project : Project) (diagnostics : list Diagnostic)
    (universe : gset string) :
  (forall name src,
     resolveLib (makeResolver project) name = inr src ->
     getFilePath src ∈ universe) ->
  (forall name src,
     resolveTypes (makeResolver project) name = inr src ->
     getFilePath src ∈ universe) ->
  exists fuel,
    forall fuel', fuel <= fuel' ->
      is_Some (parseProjectLibrary fuel' project diagnostics).
Proof.
  intros Hlib Htypes. unfold parseProjectLibrary.
  destruct (libraryLoop_terminates (makeResolver project) universe
              Hlib Htypes (S (size (universe ∖ ∅)))
              (rights (resolveReferences (makeResolver project)
                         (default [] (lib project))
                         (default [] (types project))))
              ∅ libDecl_empty
              (lefts (resolveReferences (makeResolver project)
                        (default [] (lib project))
                        (default [] (types project)))))
    as [fuel Hfuel].
  - lia.
  - apply Forall_forall. intros src Hsrc.
    eapply resolveReferences_universe; eassumption.
  - exists fuel. intros fuel' Hle.
    destruct (Hfuel fuel' Hle) as [[declarations failures] Hrun].
    rewrite Hrun. eauto.
Qed.

(** X27. What [parseProjectLibrary] returns is made of the contributions
    of the list [visited] of the source files it parsed, the latest
    first, and no file is parsed twice, however often it is referred to:
    the paths of [visited] are distinct. The list is the one the
    references fix ([visitOrder], which only this list satisfies): in
    order, the files that are the first of their path in the queue made
    of the files the compiler options refer to, followed by the files
    each file of the list refers to, each of its files being one the
    options or a file before it in the list refer to. So it holds every
    file the options refer to and every file one of its files refers to.
    The diagnostics given are kept, followed by one for each reference
    that did not resolve and each file dropped. *)
Theorem parseProjectLibrary_parses_once
    (fuel : nat) (project : Project) (diagnostics : list Diagnostic)
    (declarations : LibraryDeclarations) (results : list Diagnostic) :
  parseProjectLibrary fuel project diagnostics
    = Some (declarations, results) ->
  let resolver := makeResolver project in
  let references src :=
    (parseLibrarySourceFile resolver src libDecl_empty).1 in
  let initial :=
    resolveReferences resolver (default [] (lib project))
      (default [] (types project)) in
  exists visited,
    NoDup (map getFilePath visited) /\
    visitOrder (fun v => rights (references v)) ∅ (rights initial) visited /\
    (forall other,
       visitOrder (fun v => rights (references v)) ∅ (rights initial) other ->
       other = visited) /\
    declarations
    = foldl (fun acc src => libDecl_concat (contribution resolver src) acc)
        libDecl_empty visited /\
    results
    = diagnostics
        ++ map createDiagnostic
             (lefts initial
                ++ flat_map (fun v => lefts (references v)) visited) /\
    (forall src, src ∈ rights initial ->
       getFilePath src ∈ map getFilePath visited) /\
    (forall v src, v ∈ visited -> src ∈ rights (references v) ->
       getFilePath src ∈ map getFilePath visited).
Proof.
  intros Hrun resolver references initial.
  unfold parseProjectLibrary in Hrun. cbv zeta in Hrun.
  fold resolver in Hrun. fold initial in Hrun.
  destruct (libraryLoop resolver fuel (rights initial) ∅ libDecl_empty
              (lefts initial)) as [[found failures] |] eqn:Hloop;
    [| discriminate].
  injection Hrun as <- <-.
  apply libraryLoop_visits in Hloop
    as (visited & Hnodup & _ & Hdecl & Hfail & Hsources & Hclosed
        & Horder & Hreached).
  assert (Hvisit :
    visitOrder (fun v => rights (references v)) ∅ (rights initial) visited)
    by (split; [exact Horder | exact Hreached]).
  exists visited. split; [exact Hnodup |]. split; [exact Hvisit |].
  split; [intros other Hother; eapply visitOrder_unique; eassumption |].
  split; [exact Hdecl |].
  split; [rewrite Hfail; reflexivity |]. split.
  - intros src Hsrc. destruct (Hsources src Hsrc) as [Hin | Hin];
      [apply elem_of_empty in Hin; contradiction | exact Hin].
  - intros v src Hv Hsrc. destruct (Hclosed v src Hv Hsrc) as [Hin | Hin];
      [apply elem_of_empty in Hin; contradiction | exact Hin].
Qed.

End ProjectFacts.


Lemma parseLibrarySourceFile_module_without_body_witness :
  let src :=
    mkSourceFile "/lib/broken.d.ts"
      [FunctionDeclarationNode (declared "f");
       ModuleDeclarationNode true None]
      ["es5"] [] in
  @parseLibrarySourceFile sampleCollaborators sampleResolver src libDecl_empty
  = ([inl "/lib/broken.d.ts global module"], libDecl_empty).
Proof.
  intros src.
  apply (@parseLibrarySourceFile_module_without_body sampleCollaborators
           sampleResolver src libDecl_empty).
  repeat constructor.
Defined.

Lemma sampleResolver_universe kind name src :
  (if String.eqb name "es5" then inr es5
   else if String.eqb name "es2020" then inr es2020
   else inl (name +:+ kind)) = inr src ->
  getFilePath src ∈ ({[ "/lib/lib.es5.d.ts"; "/lib/lib.es2020.d.ts" ]}
                      : gset string).
Proof.
  destruct (String.eqb name "es5");
    [| destruct (String.eqb name "es2020")]; intros [= <-].
  - apply elem_of_union. left. apply elem_of_singleton. reflexivity.
  - apply elem_of_union. right. apply elem_of_singleton. reflexivity.
Qed.

Lemma parseProjectLibrary_returns_witness :
  exists fuel,
    forall fuel', fuel <= fuel' ->
      is_Some (@parseProjectLibrary sampleCollaborators fuel'
                 (mkProject (Some ["es2020"]) None) []).
Proof.
  apply (@parseProjectLibrary_returns sampleCollaborators
           (mkProject (Some ["es2020"]) None) []
           {[ "/lib/lib.es5.d.ts"; "/lib/lib.es2020.d.ts" ]});
    intros name src; apply sampleResolver_universe.
Defined.

Lemma parseProjectLibrary_parses_once_witness :
  let project := mkProject (Some ["es2020"]) None in
  let references src :=
    rights (@parseLibrarySourceFile sampleCollaborators sampleResolver src
              libDecl_empty).1 in
  exists declarations (results : list string),
    @parseProjectLibrary sampleCollaborators 10 project []
      = Some (declarations, results) /\
    map print (variables declarations ++ functions declarations
                 ++ interfaces declarations)
      = ["BigInt"; "globalThis"; "parseInt"; "Array"] /\
    results = ["missing types"] /\
    NoDup (map getFilePath [es2020; es5]) /\
    visitOrder references ∅ [es2020] [es2020; es5] /\
    declarations
    = foldl (fun acc src =>
               libDecl_concat
                 (@contribution sampleCollaborators sampleResolver src) acc)
        libDecl_empty [es2020; es5].
Proof.
  intros project references. eexists _, _.
  assert (Hrun :
    @parseProjectLibrary sampleCollaborators 10 project []
    = Some (mkLibraryDeclarations []
              [declared "parseInt"] [declared "Array"]
              [declared "BigInt"; declared "globalThis"],
            ["missing types"])) by (vm_compute; reflexivity).
  split; [exact Hrun |]. split; [reflexivity |]. split; [reflexivity |].
  destruct (@parseProjectLibrary_parses_once sampleCollaborators 10 project
              [] _ _ Hrun)
    as (visited & Hnodup & Hvisit & Hunique & Hdecl & _).
  assert (Hlist : [es2020; es5] = visited).
  { apply Hunique. split; [vm_compute; reflexivity |].
    intros [| first [| second earlier]] v later Heq.
    - injection Heq as <- _. left. apply elem_of_cons. left. reflexivity.
    - injection Heq as <- <- _. right. exists es2020.
      split; [apply elem_of_cons; left; reflexivity |].
      vm_compute. apply elem_of_cons. right.
      apply elem_of_cons. left. reflexivity.
    - injection Heq as _ _ Heq. destruct earlier; discriminate Heq. }
  rewrite Hlist. split; [exact Hnodup |]. split; [exact Hvisit |].
  exact Hdecl.
Defined.

End LibraryFacts.
